(** * xc-diff: the hashing pipeline of [app.js]

    A shallow embedding of the deterministic core of [src/app.js]: the CSV
    tokenizer, the field normalizer, the row hasher, the Merkle tree builder,
    the staleness-gated panel run and the leaf diff.

    Conventions.
    - A JavaScript string is a [string]; its characters stand for UTF-16 code
      units below 256.  The code unit U+FEFF (byte-order mark) is outside this
      range.
    - [undefined] and [null] are [None] of an option type.
    - The services the browser provides and the source only calls (Unicode
      normalisation, the local time zone, the free-form date parser and the
      SHA-256 digest) are the fields of [Runtime]. *)

From Stdlib Require Import ZArith Ascii String Lia.
From stdpp Require Import base option list sorting gmap strings.

Local Open Scope Z_scope.

(** ** JavaScript string primitives *)

Definition DQUOTE : ascii := "034"%char.
Definition COMMA : ascii := ","%char.
Definition LF : ascii := "010"%char.
Definition CR : ascii := "013"%char.
Definition BACKSLASH : ascii := "\"%char.

Definition str1 (c : ascii) : string := String c EmptyString.

Definition charEq (a b : ascii) : bool := Ascii.eqb a b.

Definition strHead (s : string) : option ascii :=
  match s with
  | EmptyString => None
  | String c _ => Some c
  end.

Definition isEmptyStr (s : string) : bool :=
  match s with
  | EmptyString => true
  | String _ _ => false
  end.

(** [parts.join(sep)]. *)
Fixpoint join (sep : string) (parts : list string) : string :=
  match parts with
  | [] => EmptyString
  | [p] => p
  | p :: rest => p +:+ sep +:+ join sep rest
  end.

(** ** CSV tokenizer ([parseCsv]) *)

Module Csv.

(** The mutable locals of [parseCsv]. *)
Record scan := Scan {
  rows : list (list string);
  currentRow : list string;
  currentValue : string;
  isInQuotes : bool
}.

Definition initial : scan := Scan [] [] EmptyString false.

(** [currentValue += char]. *)
Definition emit (c : ascii) (st : scan) : scan :=
  Scan (rows st) (currentRow st) (currentValue st +:+ str1 c) (isInQuotes st).

Definition toggle (st : scan) : scan :=
  Scan (rows st) (currentRow st) (currentValue st) (negb (isInQuotes st)).

Definition pushValue (st : scan) : scan :=
  Scan (rows st) (currentRow st ++ [currentValue st]) EmptyString (isInQuotes st).

(** The test [currentRow.length > 1 || (currentRow.length === 1 &&
    !isEmpty(currentRow[0]))] that guards both [rows.push(currentRow)]. *)
Definition keepsRow (row : list string) : bool :=
  match row with
  | [] => false
  | [v] => negb (isEmptyStr v)
  | _ :: _ :: _ => true
  end.

Definition isEmptyRow (row : list string) : bool :=
  match row with
  | [v] => isEmptyStr v
  | _ => false
  end.

Definition pushRowIfNeeded (st : scan) : scan :=
  if isEmptyRow (currentRow st) && bool_decide (rows st = []) then
    Scan (rows st) [] (currentValue st) (isInQuotes st)
  else if keepsRow (currentRow st) then
    Scan (rows st ++ [currentRow st]) [] (currentValue st) (isInQuotes st)
  else
    Scan (rows st) [] (currentValue st) (isInQuotes st).

(** One iteration of the [for] loop at [char = source[i]] with
    [nextChar = source[i + 1]].  The boolean tells whether the iteration
    executed [i += 1], that is, consumed [nextChar] as well. *)
Definition scanStep (char : ascii) (nextChar : option ascii) (st : scan)
  : scan * bool :=
  if charEq char DQUOTE && bool_decide (nextChar = Some DQUOTE) then
    (emit DQUOTE st, true)
  else if charEq char DQUOTE then
    (toggle st, false)
  else if charEq char COMMA && negb (isInQuotes st) then
    (pushValue st, false)
  else if (charEq char LF || charEq char CR) && negb (isInQuotes st) then
    (pushRowIfNeeded (pushValue st),
     charEq char CR && bool_decide (nextChar = Some LF))
  else
    (emit char st, false).

Fixpoint scanFrom (source : string) (st : scan) : scan :=
  match source with
  | EmptyString => st
  | String char rest =>
      let '(st', skip) := scanStep char (strHead rest) st in
      if skip then
        match rest with
        | EmptyString => st'
        | String _ rest' => scanFrom rest' st'
        end
      else scanFrom rest st'
  end.

(** The rows collected by the scan and the code after the loop, before the
    header row is split off.  [source] is [text] itself: no code unit below
    256 is the byte-order mark that [parseCsv] strips. *)
Definition tokenize (source : string) : list (list string) :=
  let st := pushValue (scanFrom source initial) in
  if keepsRow (currentRow st) then rows st ++ [currentRow st] else rows st.

(** [headers.forEach((header, index) => { entry[header] = row[index] ?? empty })]:
    a missing cell is the empty string. *)
Fixpoint fillEntry (headers : list string) (row : list string)
    (entry : gmap string string) : gmap string string :=
  match headers with
  | [] => entry
  | header :: headers' =>
      fillEntry headers' (tail row) (<[header := default EmptyString (head row)]> entry)
  end.

Record parsed := Parsed {
  headers : list string;
  dataRows : list (gmap string string)
}.

Definition parseCsv (text : string) : parsed :=
  match tokenize text with
  | [] => Parsed [] []
  | hdr :: rest => Parsed hdr (map (fun row => fillEntry hdr row ∅) rest)
  end.

End Csv.

(** ** Completions: a call either returns a value or throws *)

Inductive completion (A : Type) : Type :=
  | Returns (a : A)
  | Throws (error : string).
Arguments Returns {A} a.
Arguments Throws {A} error.

Definition bindC {A B} (m : completion A) (k : A -> completion B) : completion B :=
  match m with
  | Returns a => k a
  | Throws e => Throws e
  end.

Notation "'letC' x ':=' m 'in' k" := (bindC m (fun x => k))
  (at level 10, x name, m at level 100, k at level 200).

(** [for (const x of xs) { ... }] collecting one result per element, in
    order; the first throw aborts the loop. *)
Fixpoint forEachC {A B} (f : A -> completion B) (xs : list A) : completion (list B) :=
  match xs with
  | [] => Returns []
  | x :: xs' =>
      letC y := f x in
      letC ys := forEachC f xs' in
      Returns (y :: ys)
  end.

(** ** The services of the runtime *)

Class Runtime := {
  (** [String.prototype.normalize("NFC")]. *)
  nfc : string -> string;
  (** ECMAScript's [UTC(t)]: the UTC time value of a local time value, in the
      time zone of the environment that evaluates the script. *)
  utcOfLocal : Z -> Z;
  (** What [Date.parse] answers on a string outside the part of the Date
      Time String Format modelled by [isoDateTime] below (other ISO forms and
      the implementation's own heuristics); [None] is [NaN]. *)
  implParse : string -> option Z;
  (** [crypto.subtle.digest("SHA-256", bytes)]. *)
  digest : list N -> list N
}.

(** ** Text normalisation ([normalizeText]) *)

(** White space and line terminators, the characters matched by [\s] and
    removed by [trim], among the code units below 256: TAB, LF, VT, FF, CR,
    SPACE and NBSP. *)
Definition isSpace (c : ascii) : bool :=
  let n := N_of_ascii c in
  ((9 <=? n) && (n <=? 13) || (n =? 32) || (n =? 160))%N.

Fixpoint trimStart (s : string) : string :=
  match s with
  | EmptyString => EmptyString
  | String c rest => if isSpace c then trimStart rest else s
  end.

Fixpoint trimEnd (s : string) : string :=
  match s with
  | EmptyString => EmptyString
  | String c rest =>
      let rest' := trimEnd rest in
      if isSpace c && isEmptyStr rest' then EmptyString else String c rest'
  end.

Definition trim (s : string) : string := trimEnd (trimStart s).

(** [text.replace(/\s+/g, " ")]; [inRun] tells that the previous character
    belonged to the run of white space being replaced. *)
Fixpoint collapseSpaces (inRun : bool) (s : string) : string :=
  match s with
  | EmptyString => EmptyString
  | String c rest =>
      if isSpace c then
        if inRun then collapseSpaces true rest
        else String " "%char (collapseSpaces true rest)
      else String c (collapseSpaces false rest)
  end.

Section Normalizer.
Context {rt : Runtime}.

Definition normalizeText (value : option string) : string :=
  match value with
  | None => EmptyString
  | Some v =>
      let text := trim v in
      if isEmptyStr text then EmptyString
      else nfc (collapseSpaces false text)
  end.

End Normalizer.

(** ** ECMAScript time values

    A time value is a number of milliseconds since 1970-01-01T00:00:00Z; the
    [Date] object holds one, or [NaN]. *)

Inductive jsDate : Type :=
  | ValidDate (t : Z)
  | InvalidDate.

Definition msPerDay : Z := 86400000.

(** [TimeClip]: time values beyond 8.64e15 ms are [NaN]. *)
Definition timeClip (t : Z) : jsDate :=
  if Z.abs t <=? 8640000000000000 then ValidDate t else InvalidDate.

(** Day number of a proleptic Gregorian date ([m] from 1 to 12). *)
Definition daysFromCivil (y m d : Z) : Z :=
  let y' := if m <=? 2 then y - 1 else y in
  let era := y' / 400 in
  let yoe := y' - era * 400 in
  let mp := if 2 <? m then m - 3 else m + 9 in
  let doy := (153 * mp + 2) / 5 + d - 1 in
  let doe := yoe * 365 + yoe / 4 - yoe / 100 + doy in
  era * 146097 + doe - 719468.

(** Year, month (1 to 12) and day of the month of a day number:
    [YearFromTime], [MonthFromTime] + 1 and [DateFromTime]. *)
Definition civilFromDays (days : Z) : Z * Z * Z :=
  let z := days + 719468 in
  let era := z / 146097 in
  let doe := z - era * 146097 in
  let yoe := (doe - doe / 1460 + doe / 36524 - doe / 146096) / 365 in
  let doy := doe - (365 * yoe + yoe / 4 - yoe / 100) in
  let mp := (5 * doy + 2) / 153 in
  let d := doy - (153 * mp + 2) / 5 + 1 in
  let m := if mp <? 10 then mp + 3 else mp - 9 in
  (if m <=? 2 then yoe + era * 400 + 1 else yoe + era * 400, m, d).

Definition daysInMonth (y m : Z) : Z :=
  if m =? 12 then 31
  else daysFromCivil y (m + 1) 1 - daysFromCivil y m 1.

(** [MakeDay(year, month, date)] with a zero-based, possibly overflowing
    month. *)
Definition makeDay (year month date : Z) : Z :=
  daysFromCivil (year + month / 12) (month mod 12 + 1) 1 + date - 1.

Definition makeTime (hour min sec ms : Z) : Z :=
  hour * 3600000 + min * 60000 + sec * 1000 + ms.

Definition makeDate (day time : Z) : Z := day * msPerDay + time.

(** *** Decimal digits *)

Definition isDigit (c : ascii) : bool :=
  let n := N_of_ascii c in ((48 <=? n) && (n <=? 57))%N.

Definition digitChar (d : Z) : ascii := ascii_of_N (Z.to_N (48 + d mod 10)).

(** The last [width] decimal digits of [n], most significant first. *)
Fixpoint decimal (width : nat) (n : Z) (acc : string) : string :=
  match width with
  | O => acc
  | S w => decimal w (n / 10) (String (digitChar n) acc)
  end.

(** [Number(s)] on a string of decimal digits. *)
Definition numberOfDigits (s : string) : Z :=
  fold_left (fun acc c => acc * 10 + (Z.of_N (N_of_ascii c) - 48))
            (list_ascii_of_string s) 0.

(** *** [Date.prototype.toISOString] *)

Definition isoYear (y : Z) : string :=
  if (0 <=? y) && (y <=? 9999) then decimal 4 y EmptyString
  else String (if y <? 0 then "-"%char else "+"%char) (decimal 6 (Z.abs y) EmptyString).

(** The part of the ISO string down to the seconds, and the three digits of
    the milliseconds. *)
Definition isoSeconds (t : Z) : string :=
  let day := t / msPerDay in
  let tod := t mod msPerDay in
  let '(y, m, d) := civilFromDays day in
  isoYear y +:+ "-" +:+ decimal 2 m EmptyString +:+ "-" +:+ decimal 2 d EmptyString
    +:+ "T" +:+ decimal 2 (tod / 3600000) EmptyString
    +:+ ":" +:+ decimal 2 (tod / 60000 mod 60) EmptyString
    +:+ ":" +:+ decimal 2 (tod / 1000 mod 60) EmptyString.

Definition isoMillis (t : Z) : string :=
  decimal 3 (t mod msPerDay mod 1000) EmptyString.

(** [YYYY-MM-DDTHH:mm:ss.sssZ], with a sign and six digits for a year
    outside 0 to 9999. *)
Definition isoOfTimeValue (t : Z) : string :=
  isoSeconds t +:+ "." +:+ isoMillis t +:+ "Z".

(** [toISOString] throws a [RangeError] on an invalid date. *)
Definition toISOString (date : jsDate) : completion string :=
  match date with
  | ValidDate t => Returns (isoOfTimeValue t)
  | InvalidDate => Throws "RangeError"
  end.

(** ** Date normalisation ([normalizeDate], [parseFlexibleDate], [formatUtcIso]) *)

(** *** Matching helpers: each consumes a prefix and returns the rest *)

Definition expectChar (p : ascii -> bool) (s : string) : option (ascii * string) :=
  match s with
  | String c rest => if p c then Some (c, rest) else None
  | EmptyString => None
  end.

(** Exactly [n] decimal digits: [\d{n}]. *)
Fixpoint takeDigits (n : nat) (s : string) : option (string * string) :=
  match n with
  | O => Some (EmptyString, s)
  | S n' =>
      match s with
      | String c rest =>
          if isDigit c then
            match takeDigits n' rest with
            | Some (ds, rest') => Some (String c ds, rest')
            | None => None
            end
          else None
      | EmptyString => None
      end
  end.

(** One to three digits, as many as possible: [\d{1,3}]. *)
Definition takeDigits1to3 (s : string) : option (string * string) :=
  match takeDigits 3 s with
  | Some r => Some r
  | None =>
      match takeDigits 2 s with
      | Some r => Some r
      | None => takeDigits 1 s
      end
  end.

Definition isChar (c : ascii) : ascii -> bool := fun x => charEq x c.

(** The capture groups of the pattern of [parseFlexibleDate]. *)
Record isoGroups := IsoGroups {
  year : string;
  month : string;
  day : string;
  hour : option string;
  minute : option string;
  second : option string;
  millisecond : option string;
  zone : option string
}.

(** [(?:[ T](\d{2}):(\d{2})(?::(\d{2})(?:\.(\d{1,3}))?)?)?], case
    insensitive: hour, minute, optional second, optional millisecond. *)
Definition matchTime (s : string)
  : option (string * string * option string * option string * string) :=
  '(_, r) ← expectChar (fun c => charEq c " " || charEq c "T" || charEq c "t") s;
  '(hh, r) ← takeDigits 2 r;
  '(_, r) ← expectChar (isChar ":") r;
  '(mm, r) ← takeDigits 2 r;
  match expectChar (isChar ":") r ≫= (fun p => takeDigits 2 p.2) with
  | Some (ss, r2) =>
      match expectChar (isChar ".") r2 ≫= (fun p => takeDigits1to3 p.2) with
      | Some (ms, r3) => Some (hh, mm, Some ss, Some ms, r3)
      | None => Some (hh, mm, Some ss, None, r2)
      end
  | None => Some (hh, mm, None, None, r)
  end.

(** [(?: ?(Z|[+-]\d{2}:\d{2}))?], case insensitive. *)
Definition matchZone (s : string) : option (string * string) :=
  let r := match expectChar (isChar " ") s with
           | Some (_, r) => r
           | None => s
           end in
  match r with
  | String c r1 =>
      if charEq c "Z" || charEq c "z" then Some (str1 c, r1)
      else if charEq c "+" || charEq c "-" then
        '(hh, r2) ← takeDigits 2 r1;
        '(_, r3) ← expectChar (isChar ":") r2;
        '(mm, r4) ← takeDigits 2 r3;
        Some (String c (hh +:+ ":" +:+ mm), r4)
      else None
  | EmptyString => None
  end.

(** [value.match(/^(\d{4})-(\d{2})-(\d{2})(?:...)?(?: ?(Z|[+-]\d{2}:\d{2}))?$/i)].
    Each optional group is tried once, greedily: whenever a group can match,
    the text that follows a skipped or shortened group starts with a
    character ([ ], [T], [:], [.] or a digit) that neither the zone group nor
    the end of input accepts, so backtracking finds no other match. *)
Definition isoMatch (value : string) : option isoGroups :=
  '(y, r) ← takeDigits 4 value;
  '(_, r) ← expectChar (isChar "-") r;
  '(m, r) ← takeDigits 2 r;
  '(_, r) ← expectChar (isChar "-") r;
  '(d, r) ← takeDigits 2 r;
  let '(hh, mm, ss, ms, r) :=
    match matchTime r with
    | Some (hh, mm, ss, ms, r') => (Some hh, Some mm, ss, ms, r')
    | None => (None, None, None, None, r)
    end in
  let '(z, r) :=
    match matchZone r with
    | Some (z, r') => (Some z, r')
    | None => (None, r)
    end in
  if isEmptyStr r then Some (IsoGroups y m d hh mm ss ms z) else None.

(** *** String padding *)

Fixpoint repeatChar (n : nat) (c : ascii) : string :=
  match n with
  | O => EmptyString
  | S n' => String c (repeatChar n' c)
  end.

Definition padEnd (len : nat) (c : ascii) (s : string) : string :=
  s +:+ repeatChar (len - String.length s) c.

Definition padStart (len : nat) (c : ascii) (s : string) : string :=
  repeatChar (len - String.length s) c +:+ s.

(** [s.slice(0, n)]. *)
Definition sliceTo (n : nat) (s : string) : string := String.substring 0 n s.

(** A string is truthy when it is present and not empty. *)
Definition truthy (o : option string) : bool :=
  match o with
  | Some s => negb (isEmptyStr s)
  | None => false
  end.

(** *** The Date Time String Format, as far as it is modelled

    [isoDateTime] recognises [YYYY-MM-DDTHH:mm:ss.sssZ] and
    [YYYY-MM-DDTHH:mm:ss.sss±HH:mm] with every element in its range (month
    01-12, day within the month, hour 00-23, minute and second 00-59) and
    gives the time value ECMAScript prescribes.  Every other string is left
    to the runtime ([implParse]). *)

Definition inRange (lo hi x : Z) : bool := (lo <=? x) && (x <=? hi).

Definition isoOffset (s : string) : option (Z * string) :=
  match s with
  | String c r =>
      if charEq c "Z" then Some (0, r)
      else if charEq c "+" || charEq c "-" then
        '(hh, r) ← takeDigits 2 r;
        '(_, r) ← expectChar (isChar ":") r;
        '(mm, r) ← takeDigits 2 r;
        let h := numberOfDigits hh in
        let m := numberOfDigits mm in
        if inRange 0 23 h && inRange 0 59 m then
          Some ((if charEq c "-" then -1 else 1) * (h * 3600000 + m * 60000), r)
        else None
      else None
  | EmptyString => None
  end.

Definition isoDateTime (s : string) : option Z :=
  '(ys, r) ← takeDigits 4 s;
  '(_, r) ← expectChar (isChar "-") r;
  '(ms, r) ← takeDigits 2 r;
  '(_, r) ← expectChar (isChar "-") r;
  '(ds, r) ← takeDigits 2 r;
  '(_, r) ← expectChar (isChar "T") r;
  '(hs, r) ← takeDigits 2 r;
  '(_, r) ← expectChar (isChar ":") r;
  '(mins, r) ← takeDigits 2 r;
  '(_, r) ← expectChar (isChar ":") r;
  '(ss, r) ← takeDigits 2 r;
  '(_, r) ← expectChar (isChar ".") r;
  '(fs, r) ← takeDigits 3 r;
  '(off, r) ← isoOffset r;
  let y := numberOfDigits ys in
  let m := numberOfDigits ms in
  let d := numberOfDigits ds in
  let h := numberOfDigits hs in
  let mi := numberOfDigits mins in
  let sec := numberOfDigits ss in
  if isEmptyStr r && inRange 1 12 m && inRange 1 (daysInMonth y m) d
     && inRange 0 23 h && inRange 0 59 mi && inRange 0 59 sec then
    Some (makeDate (makeDay y (m - 1) d) (makeTime h mi sec (numberOfDigits fs)) - off)
  else None.

(** [text.replace(/\.\d{3}Z$/, "Z")]: the pattern can only match the last
    five characters. *)
Definition isMillisZ (s : string) : bool :=
  match s with
  | String d1 (String d2 (String d3 (String z EmptyString))) =>
      isDigit d1 && isDigit d2 && isDigit d3 && charEq z "Z"
  | _ => false
  end.

Fixpoint replaceMillisZ (s : string) : string :=
  match s with
  | EmptyString => EmptyString
  | String c rest =>
      if charEq c "." && isMillisZ rest then "Z"
      else String c (replaceMillisZ rest)
  end.

(** No character of [s] is a full stop, so the pattern above cannot match
    inside [s]. *)
Fixpoint dotFree (s : string) : bool :=
  match s with
  | EmptyString => true
  | String c rest => negb (charEq c ".") && dotFree rest
  end.

Section DateNormalizer.
Context {rt : Runtime}.

(** [Date.parse(s)]: a time value, which is never beyond the range of
    [TimeClip], or [None] for [NaN]. *)
Definition dateParse (s : string) : option Z :=
  let parsed := match isoDateTime s with
                | Some t => Some t
                | None => implParse s
                end in
  match parsed with
  | Some t => if Z.abs t <=? 8640000000000000 then Some t else None
  | None => None
  end.

(** [new Date(s)] on a string and [new Date(t)] on a number. *)
Definition newDateOfString (s : string) : jsDate :=
  match dateParse s with
  | Some t => timeClip t
  | None => InvalidDate
  end.

Definition newDateOfNumber (t : Z) : jsDate := timeClip t.

(** [new Date(year, monthIndex, day, hours, minutes, seconds, ms)]: the
    arguments denote local time; years 0 to 99 mean 1900 to 1999. *)
Definition newDateLocal (y mo d h mi s ms : Z) : jsDate :=
  let yr := if inRange 0 99 y then 1900 + y else y in
  timeClip (utcOfLocal (makeDate (makeDay yr mo d) (makeTime h mi s ms))).

(** [!Number.isNaN(date.getTime())]. *)
Definition isValidDate (d : jsDate) : bool :=
  match d with
  | ValidDate _ => true
  | InvalidDate => false
  end.

Definition numberOr0 (o : option string) : Z :=
  match o with
  | Some s => numberOfDigits s
  | None => 0
  end.

(** The body of [if (isoMatch) { ... }]: the date the pattern branch
    returns, or [None] when it falls through to the fallback. *)
Definition dateOfGroups (g : isoGroups) : option jsDate :=
  let ms := if truthy (millisecond g)
            then sliceTo 3 (padEnd 3 "0" (default EmptyString (millisecond g)))
            else "000" in
  let baseTime := map (padStart 2 "0")
                    [default "00" (hour g); default "00" (minute g);
                     default "00" (second g)] in
  let core := year g +:+ "-" +:+ month g +:+ "-" +:+ day g +:+ "T"
              +:+ join ":" baseTime +:+ "."
              +:+ (if isEmptyStr ms then "000" else ms) in
  if truthy (zone g) then
    let z := default EmptyString (zone g) in
    let isoString := core +:+ (if bool_decide (z = "Z") then "Z" else z) in
    let offsetDate := newDateOfString isoString in
    if isValidDate offsetDate then Some offsetDate else None
  else
    let localDate :=
      newDateLocal (numberOfDigits (year g)) (numberOfDigits (month g) - 1)
                   (numberOfDigits (day g)) (numberOr0 (hour g))
                   (numberOr0 (minute g)) (numberOr0 (second g))
                   (numberOfDigits ms) in
    if isValidDate localDate then Some localDate else None.

(** [parseFlexibleDate(value)]: a [Date], or [None] for [null]. *)
Definition parseFlexibleDate (value : string) : option jsDate :=
  match isoMatch value ≫= dateOfGroups with
  | Some d => Some d
  | None =>
      match dateParse value with
      | Some fallbackTimestamp => Some (newDateOfNumber fallbackTimestamp)
      | None => None
      end
  end.

Definition formatUtcIso (date : jsDate) : completion string :=
  letC iso := toISOString date in
  Returns (replaceMillisZ iso).

Definition normalizeDate (value : option string) : completion string :=
  let normalizedText := normalizeText value in
  if isEmptyStr normalizedText then Returns EmptyString
  else
    match parseFlexibleDate normalizedText with
    | None => Returns EmptyString
    | Some parsedDate => formatUtcIso parsedDate
    end.

End DateNormalizer.

(** A runtime for evaluating the definitions on examples: UTC as the local
    zone, no free-form date heuristics, NFC as the identity (every string of
    code units below 256 is already in NFC), and, standing in for SHA-256, a
    digest without collisions: the one that returns its input. *)
Definition exampleRuntime : Runtime :=
  {| nfc := fun s => s;
     utcOfLocal := fun t => t;
     implParse := fun _ => None;
     digest := fun bytes => bytes |}.

(** ** Field configuration and header binding *)

Record fieldConfig := FieldConfig {
  label : string;
  canonical : string
}.

Definition FIELD_CONFIG : list fieldConfig :=
  [ FieldConfig "Title" "title";
    FieldConfig "Username" "username";
    FieldConfig "Password" "password";
    FieldConfig "Last Modified" "last modified" ].

Definition HASH_FIELDS : list string := map canonical FIELD_CONFIG.

(** An element of [state.activeFields]: a configured field with the header
    bound to it, [None] when the file has no such column. *)
Record activeField := ActiveField {
  config : fieldConfig;
  headerName : option string
}.

Definition fieldCanonical (f : activeField) : string := canonical (config f).

(** [toLowerCase] on code units below 256: A-Z and the Latin-1 capitals. *)
Definition toLowerChar (c : ascii) : ascii :=
  let n := N_of_ascii c in
  if ((65 <=? n) && (n <=? 90) || (192 <=? n) && (n <=? 222) && negb (n =? 215))%N
  then ascii_of_N (n + 32) else c.

Fixpoint toLowerCase (s : string) : string :=
  match s with
  | EmptyString => EmptyString
  | String c rest => String (toLowerChar c) (toLowerCase rest)
  end.

Definition toCanonical (value : string) : string := toLowerCase (trim value).

Definition buildActiveFields (headers : list string) : list activeField :=
  map (fun field =>
         ActiveField field
           (find (fun header => bool_decide (toCanonical header = canonical field))
                 headers))
      FIELD_CONFIG.

(** [getSelectedFields]: [checked] is the state of the check boxes of the
    column list, by canonical field name. *)
Definition getSelectedFields (activeFields : list activeField)
    (checked : string -> bool) : list activeField :=
  filter (fun field => truthy (headerName field) && checked (fieldCanonical field) = true)
         activeFields.

(** ** Sorting

    [Array.prototype.sort] is stable; [comparator a b] is negative, zero or
    positive. *)

Fixpoint insertSorted {A} (comparator : A -> A -> Z) (x : A) (l : list A) : list A :=
  match l with
  | [] => [x]
  | y :: l' =>
      if comparator x y <=? 0 then x :: l
      else y :: insertSorted comparator x l'
  end.

Fixpoint sortBy {A} (comparator : A -> A -> Z) (l : list A) : list A :=
  match l with
  | [] => []
  | x :: l' => insertSorted comparator x (sortBy comparator l')
  end.

(** [a.localeCompare(b)], as the comparison of code units.  The source
    compares lower-case hexadecimal digests and the four canonical field
    names, on which collation and code-unit order agree. *)
Definition localeCompare (a b : string) : Z :=
  match String.compare a b with
  | Eq => 0
  | Lt => -1
  | Gt => 1
  end.

(** The comparator [(a, b) => key(a).localeCompare(key(b))]. *)
Definition compareKey {A} (key : A -> string) (a b : A) : Z :=
  localeCompare (key a) (key b).

(** [x] may stand before [y] in an array sorted with [comparator]. *)
Definition notAfter {A} (comparator : A -> A -> Z) : relation A :=
  fun x y => comparator x y <= 0.

(** ** JSON.stringify of an object whose values are strings *)

Definition hexDigit (n : N) : ascii :=
  if (n <? 10)%N then ascii_of_N (48 + n) else ascii_of_N (87 + n).

(** The value of a hexadecimal digit written by [hexDigit]. *)
Definition unhex (c : ascii) : N :=
  let n := N_of_ascii c in
  if (n <? 58)%N then (n - 48)%N else (n - 87)%N.

Definition jsonEscapeChar (c : ascii) : string :=
  let n := N_of_ascii c in
  if (n =? 8)%N then "\b"
  else if (n =? 9)%N then "\t"
  else if (n =? 10)%N then "\n"
  else if (n =? 12)%N then "\f"
  else if (n =? 13)%N then "\r"
  else if (n =? 34)%N then String BACKSLASH (str1 DQUOTE)
  else if (n =? 92)%N then String BACKSLASH (str1 BACKSLASH)
  else if (n <? 32)%N then
    "\u00" +:+ String (hexDigit (n / 16)) (str1 (hexDigit (n mod 16)))
  else str1 c.

Fixpoint jsonEscape (s : string) : string :=
  match s with
  | EmptyString => EmptyString
  | String c rest => jsonEscapeChar c +:+ jsonEscape rest
  end.

Definition jsonQuote (s : string) : string :=
  String DQUOTE (jsonEscape s +:+ str1 DQUOTE).

(** Reading back the first character written by [jsonEscapeChar]; it shows
    that [JSON.stringify] loses nothing (lemma [unescapeHead_escape]). *)
Definition unescapeHead (s : string) : option (ascii * string) :=
  match s with
  | EmptyString => None
  | String c rest =>
      if charEq c BACKSLASH then
        match rest with
        | String e rest' =>
            if charEq e "b" then Some ("008"%char, rest')
            else if charEq e "t" then Some ("009"%char, rest')
            else if charEq e "n" then Some ("010"%char, rest')
            else if charEq e "f" then Some ("012"%char, rest')
            else if charEq e "r" then Some ("013"%char, rest')
            else if charEq e DQUOTE then Some (DQUOTE, rest')
            else if charEq e BACKSLASH then Some (BACKSLASH, rest')
            else
              match rest' with
              | String _ (String _ (String h (String l rest''))) =>
                  Some (ascii_of_N (16 * unhex h + unhex l), rest'')
              | _ => None
              end
        | EmptyString => None
        end
      else Some (c, rest)
  end.

Definition jsonMember (kv : string * string) : string :=
  jsonQuote kv.1 +:+ ":" +:+ jsonQuote kv.2.

(** The own properties of the object, in insertion order. *)
Definition jsonStringify (object : list (string * string)) : string :=
  "{" +:+ join "," (map jsonMember object) +:+ "}".

(** [object[key] = value] on an object kept in insertion order: a present
    key keeps its place. *)
Fixpoint setProperty (key value : string) (object : list (string * string))
  : list (string * string) :=
  match object with
  | [] => [(key, value)]
  | (k, v) :: object' =>
      if bool_decide (k = key) then (k, value) :: object'
      else (k, v) :: setProperty key value object'
  end.

(** ** Bytes and hexadecimal *)

(** [TextEncoder.encode] on code units below 256. *)
Definition encodeChar (c : ascii) : list N :=
  let n := N_of_ascii c in
  if (n <? 128)%N then [n] else [192 + n / 64; 128 + n mod 64]%N.

Fixpoint encodeUtf8 (s : string) : list N :=
  match s with
  | EmptyString => []
  | String c rest => encodeChar c ++ encodeUtf8 rest
  end.

(** [byte.toString(16).padStart(2, "0")]. *)
Definition byteToHex (byte : N) : string :=
  String (hexDigit (byte / 16)) (str1 (hexDigit (byte mod 16))).

Fixpoint bytesToHex (bytes : list N) : string :=
  match bytes with
  | [] => EmptyString
  | b :: bytes' => byteToHex b +:+ bytesToHex bytes'
  end.

Definition hexValue (c : ascii) : option Z :=
  let n := Z.of_N (N_of_ascii c) in
  if inRange 48 57 n then Some (n - 48)
  else if inRange 97 102 n then Some (n - 87)
  else if inRange 65 70 n then Some (n - 55)
  else None.

(** The digits [parseInt] reads: the longest prefix of hexadecimal digits. *)
Fixpoint hexPrefix (s : string) (acc : option Z) : option Z :=
  match s with
  | EmptyString => acc
  | String c rest =>
      match hexValue c with
      | Some v => hexPrefix rest (Some (default 0 acc * 16 + v))
      | None => acc
      end
  end.

(** [parseInt(s, 16)]: leading white space, a sign and a [0x] prefix are
    skipped; [None] is [NaN]. *)
Definition parseInt16 (s : string) : option Z :=
  let s1 := trimStart s in
  let '(sign, s2) :=
    match s1 with
    | String c r =>
        if charEq c "-" then (-1, r)
        else if charEq c "+" then (1, r)
        else (1, s1)
    | EmptyString => (1, s1)
    end in
  let s3 :=
    match s2 with
    | String c0 (String cx r) =>
        if charEq c0 "0" && (charEq cx "x" || charEq cx "X") then r else s2
    | _ => s2
    end in
  (fun v => sign * v) <$> hexPrefix s3 None.

(** Storing a number into a [Uint8Array]: [NaN] becomes 0, other values are
    taken modulo 256. *)
Definition toUint8 (v : option Z) : N :=
  match v with
  | Some z => Z.to_N (z mod 256)
  | None => 0%N
  end.

(** The loop of [hexToBytes] over [normalized], two characters at a time;
    [slice(i, i + 2)] at the last character of a string of odd length is
    that character alone. *)
Fixpoint hexPairs (normalized : string) : list N :=
  match normalized with
  | EmptyString => []
  | String a EmptyString => [toUint8 (parseInt16 (str1 a))]
  | String a (String b rest) =>
      toUint8 (parseInt16 (String a (str1 b))) :: hexPairs rest
  end.

Definition hexToBytes (hex : string) : list N :=
  if isEmptyStr hex then []
  else
    let normalized :=
      if Nat.even (String.length hex) then hex else String "0" hex in
    hexPairs normalized.

(** ** Row hasher *)

(** [entry[field.headerName]]; the property key of [null] is ["null"]. *)
Definition rawValueOf (entry : gmap string string) (field : activeField)
  : option string :=
  entry !! default "null" (headerName field).

(** [new Set(selectedCanonical)]. *)
Definition setOfList (l : list string) : gset string := list_to_set l.

(** [buildHashInput(normalizedEntry, selectedCanonical)]. *)
Definition buildHashInput (normalizedEntry : gmap string string)
    (selectedCanonical : list string) : string :=
  let selectedSet := setOfList selectedCanonical in
  let parts :=
    omap (fun field =>
            if bool_decide (field ∈ selectedSet)
            then Some (default EmptyString (normalizedEntry !! field))
            else None)
         HASH_FIELDS in
  join "|" parts.

Section Hasher.
Context {rt : Runtime}.

(** The right-hand side of [normalized[canonical] = ...] in [normalizeEntry]
    and [canonicalizeEntry]. *)
Definition normalizeField (canonicalName : string) (rawValue : option string)
  : completion string :=
  if bool_decide (canonicalName = "last modified") then normalizeDate rawValue
  else Returns (normalizeText rawValue).

(** The string [normalizeField] returns; it does return on every input
    (lemma [normalizeField_returns]). *)
Definition fieldValue (canonicalName : string) (rawValue : option string) : string :=
  match normalizeField canonicalName rawValue with
  | Returns s => s
  | Throws _ => EmptyString
  end.

Fixpoint normalizeEntryFrom (entry : gmap string string)
    (fields : list activeField) (normalized : gmap string string)
  : completion (gmap string string) :=
  match fields with
  | [] => Returns normalized
  | field :: fields' =>
      letC value := normalizeField (fieldCanonical field) (rawValueOf entry field) in
      normalizeEntryFrom entry fields' (<[fieldCanonical field := value]> normalized)
  end.

Definition normalizeEntry (entry : gmap string string)
    (selectedFields : list activeField) : completion (gmap string string) :=
  normalizeEntryFrom entry selectedFields ∅.

Fixpoint canonicalObjectFrom (entry : gmap string string)
    (sortedFields : list activeField) (canonicalObject : list (string * string))
  : completion (list (string * string)) :=
  match sortedFields with
  | [] => Returns canonicalObject
  | field :: fields' =>
      if truthy (headerName field) then
        letC value := normalizeField (fieldCanonical field) (rawValueOf entry field) in
        canonicalObjectFrom entry fields'
          (setProperty (fieldCanonical field) value canonicalObject)
      else canonicalObjectFrom entry fields' canonicalObject
  end.

Definition canonicalizeEntry (entry : gmap string string)
    (selectedFields : list activeField) : completion string :=
  let sortedFields :=
    sortBy (compareKey fieldCanonical) selectedFields in
  letC canonicalObject := canonicalObjectFrom entry sortedFields [] in
  Returns (jsonStringify canonicalObject).

(** [sha256Hex(text)], once its awaited digest has resolved. *)
Definition sha256Hex (text : string) : string :=
  bytesToHex (digest (encodeUtf8 text)).

(** [doubleSha256Hex(leftHex, rightHex)]. *)
Definition doubleSha256Hex (leftHex rightHex : string) : string :=
  let leftBytes := hexToBytes leftHex in
  let rightBytes := hexToBytes rightHex in
  let combined := leftBytes ++ rightBytes in
  let first := digest combined in
  let second := digest first in
  bytesToHex second.

End Hasher.

(** ** Merkle tree builder ([buildMerkleTree]) *)

Record leaf := Leaf {
  leafHash : string;
  leafTitle : option string
}.

Record node := Node {
  hash : string;
  title : option string;
  isDuplicate : bool
}.

Record merkleData := MerkleData {
  levels : list (list node);
  root : string
}.

(** [workingLevel]: a copy of the level, with a duplicate of its last node
    pushed when the length is odd and greater than 1. *)
Definition padLevel (currentLevel : list node) : list node :=
  if bool_decide (1 < length currentLevel)%nat && Nat.odd (length currentLevel) then
    match last currentLevel with
    | Some lastNode =>
        currentLevel ++ [Node (hash lastNode) (title lastNode) true]
    | None => currentLevel
    end
  else currentLevel.

(** Nodes that stand for data, and nodes made by combining two children. *)
Definition isReal (n : node) : Prop := isDuplicate n = false.
Definition isParent (n : node) : Prop := isDuplicate n = false /\ title n = None.

Section Merkle.
Context {rt : Runtime}.

(** [for (let i = 0; i < workingLevel.length; i += 2)]: a missing right
    sibling is [undefined], and reading its [hash] throws. *)
Fixpoint combinePairs (workingLevel : list node) : completion (list node) :=
  match workingLevel with
  | [] => Returns []
  | [_] => Throws "TypeError"
  | leftNode :: rightNode :: rest =>
      let parentHash := doubleSha256Hex (hash leftNode) (hash rightNode) in
      letC nextLevel := combinePairs rest in
      Returns (Node parentHash None false :: nextLevel)
  end.

(** The [while (true)] loop.  The source puts no bound on it; [fuel] bounds
    the number of iterations of the model, and running out of fuel is
    reported as a throw of its own. *)
Fixpoint buildLevels (fuel : nat) (currentLevel : list node)
    (levels : list (list node)) : completion merkleData :=
  match fuel with
  | O => Throws "out of fuel"
  | S fuel' =>
      let workingLevel := padLevel currentLevel in
      let levels' := levels ++ [workingLevel] in
      match workingLevel with
      | [only] => Returns (MerkleData levels' (hash only))
      | _ =>
          letC nextLevel := combinePairs workingLevel in
          buildLevels fuel' nextLevel levels'
      end
  end.

(** [buildMerkleTree(leaves)]; [Returns None] is [null].  The fuel is the
    number of leaves, which the loop never exhausts. *)
Definition buildMerkleTree (leaves : list leaf) : completion (option merkleData) :=
  match leaves with
  | [] => Returns None
  | _ :: _ =>
      let currentLevel := map (fun l => Node (leafHash l) (leafTitle l) false) leaves in
      letC data := buildLevels (length leaves) currentLevel [] in
      Returns (Some data)
  end.

End Merkle.



(** ** The computation of [updateResults], run without interruption *)

(** An element of the local array [hashes]. *)
Record hashRecord := HashRecord {
  merkleHash : string;
  canonicalHash : string;
  recordTitle : string
}.

Definition compareCanonicalHash : hashRecord -> hashRecord -> Z :=
  compareKey canonicalHash.

Definition leafOfRecord (r : hashRecord) : leaf :=
  Leaf (merkleHash r) (Some (recordTitle r)).

Section Pipeline.
Context {rt : Runtime}.

(** [activeFields.find(f => f.canonical === "title" && f.headerName)]. *)
Definition findTitleField (activeFields : list activeField) : option activeField :=
  find (fun field => bool_decide (fieldCanonical field = "title")
                       && truthy (headerName field))
       activeFields.

Definition titleOf (titleField : option activeField) (entry : gmap string string)
  : string :=
  match titleField with
  | Some field => normalizeText (rawValueOf entry field)
  | None => EmptyString
  end.

(** One iteration of the loop over [parsedEntries]. *)
Definition hashEntry (selectedFields : list activeField)
    (titleField : option activeField) (entry : gmap string string)
  : completion hashRecord :=
  letC normalized := normalizeEntry entry selectedFields in
  let hashInput := buildHashInput normalized (map fieldCanonical selectedFields) in
  let merkleHash := sha256Hex hashInput in
  letC canonicalJson := canonicalizeEntry entry selectedFields in
  let canonicalHash := sha256Hex canonicalJson in
  Returns (HashRecord merkleHash canonicalHash (titleOf titleField entry)).

(** The normalised row and the canonical object of an entry, as values:
    what [normalizeEntry] and [canonicalizeEntry] build, given that
    [normalizeField] returns. *)
Definition normalizedOf (entry : gmap string string) (fields : list activeField)
    (normalized : gmap string string) : gmap string string :=
  foldl (fun m field =>
           <[fieldCanonical field :=
               fieldValue (fieldCanonical field) (rawValueOf entry field)]> m)
        normalized fields.

Definition canonicalObjectOf (entry : gmap string string) (fields : list activeField)
    (canonicalObject : list (string * string)) : list (string * string) :=
  foldl (fun object field =>
           if truthy (headerName field) then
             setProperty (fieldCanonical field)
               (fieldValue (fieldCanonical field) (rawValueOf entry field)) object
           else object)
        canonicalObject fields.

Definition canonicalJsonOf (entry : gmap string string)
    (selectedFields : list activeField) : string :=
  jsonStringify
    (canonicalObjectOf entry (sortBy (compareKey fieldCanonical) selectedFields) []).

Definition recordOf (selectedFields : list activeField)
    (titleField : option activeField) (entry : gmap string string) : hashRecord :=
  HashRecord
    (sha256Hex (buildHashInput (normalizedOf entry selectedFields ∅)
                               (map fieldCanonical selectedFields)))
    (sha256Hex (canonicalJsonOf entry selectedFields))
    (titleOf titleField entry).

(** The leaves handed to [buildMerkleTree]: the sorted [hashes], mapped to
    [leafNodes]. *)
Definition sortedLeaves (hashes : list hashRecord) : list leaf :=
  map leafOfRecord (sortBy compareCanonicalHash hashes).

(** What a run of [updateResults] that nothing supersedes publishes, as
    [(latestHashes, tree)], from the panel's [activeFields], check boxes and
    [parsedEntries]. *)
Definition computeTree (activeFields : list activeField) (checked : string -> bool)
    (parsedEntries : list (gmap string string))
  : completion (list leaf * option merkleData) :=
  match parsedEntries with
  | [] => Returns ([], None)
  | _ :: _ =>
      let selectedFields := getSelectedFields activeFields checked in
      match selectedFields with
      | [] => Returns ([], None)
      | _ :: _ =>
          let titleField := findTitleField activeFields in
          letC hashes := forEachC (hashEntry selectedFields titleField) parsedEntries in
          let leafNodes := sortedLeaves hashes in
          letC merkleData := buildMerkleTree leafNodes in
          Returns (leafNodes, merkleData)
      end
  end.

End Pipeline.

(** ** The panel ([CsvPanel]) and its runs

    [panel] holds [this.state] and the part of the DOM the computation
    reads: the check boxes of the column list.  [changeNotifications] counts
    the calls of [notifyChange], the side effect by which a panel reaches
    the comparison.  Status text and the rendered nodes are presentation and
    are left out. *)

Record panel := Panel {
  parsedHeaders : list string;
  parsedEntries : list (gmap string string);
  activeFields : list activeField;
  computationVersion : Z;
  currentRootPrefix : string;
  currentRootHash : string;
  latestHashes : list leaf;
  lastMerkleData : option merkleData;
  highlightedHashes : gset string;
  checkedBoxes : gset string;
  changeNotifications : nat
}.

Definition newPanel : panel :=
  Panel [] [] [] 0 EmptyString EmptyString [] None ∅ ∅ 0.

Definition isChecked (p : panel) : string -> bool :=
  fun name => bool_decide (name ∈ checkedBoxes p).

(** [renderMerkleTree(treeData)], as far as it writes [this.state]. *)
Definition renderMerkleTree (treeData : option merkleData) (p : panel) : panel :=
  match treeData with
  | None =>
      Panel (parsedHeaders p) (parsedEntries p) (activeFields p)
            (computationVersion p) EmptyString EmptyString (latestHashes p)
            None ∅ (checkedBoxes p) (changeNotifications p)
  | Some data =>
      Panel (parsedHeaders p) (parsedEntries p) (activeFields p)
            (computationVersion p) (sliceTo 7 (root data)) (root data)
            (latestHashes p) (Some data) (highlightedHashes p)
            (checkedBoxes p) (changeNotifications p)
  end.

Definition setLatestHashes (hashes : list leaf) (p : panel) : panel :=
  Panel (parsedHeaders p) (parsedEntries p) (activeFields p)
        (computationVersion p) (currentRootPrefix p) (currentRootHash p)
        hashes (lastMerkleData p) (highlightedHashes p) (checkedBoxes p)
        (changeNotifications p).

Definition notifyChange (p : panel) : panel :=
  Panel (parsedHeaders p) (parsedEntries p) (activeFields p)
        (computationVersion p) (currentRootPrefix p) (currentRootHash p)
        (latestHashes p) (lastMerkleData p) (highlightedHashes p)
        (checkedBoxes p) (S (changeNotifications p)).

(** [++this.state.computationVersion]. *)
Definition bumpVersion (p : panel) : panel :=
  Panel (parsedHeaders p) (parsedEntries p) (activeFields p)
        (computationVersion p + 1) (currentRootPrefix p) (currentRootHash p)
        (latestHashes p) (lastMerkleData p) (highlightedHashes p)
        (checkedBoxes p) (changeNotifications p).

(** The three statements that publish a result: [state.latestHashes = ...;
    renderMerkleTree(...); notifyChange()]. *)
Definition publish (hashes : list leaf) (treeData : option merkleData)
    (p : panel) : panel :=
  notifyChange (renderMerkleTree treeData (setLatestHashes hashes p)).

Definition resetData (p : panel) : panel :=
  let p1 := bumpVersion p in
  let p2 := Panel [] [] [] (computationVersion p1) (currentRootPrefix p1)
                  (currentRootHash p1) (latestHashes p1) (lastMerkleData p1)
                  (highlightedHashes p1) ∅ (changeNotifications p1) in
  notifyChange (setLatestHashes [] (renderMerkleTree None p2)).

(** [renderColumns]: a box per active field, checked when the field has a
    header (every configured field is in [DEFAULT_COLUMNS]). *)
Definition renderColumns (p : panel) : panel :=
  let boxes :=
    setOfList (map fieldCanonical
                 (filter (fun field => truthy (headerName field) = true)
                         (activeFields p))) in
  Panel (parsedHeaders p) (parsedEntries p) (activeFields p)
        (computationVersion p) (currentRootPrefix p) (currentRootHash p)
        (latestHashes p) (lastMerkleData p) (highlightedHashes p) boxes
        (changeNotifications p).

(** What a run captured when it started. *)
Record runContext := RunContext {
  runId : Z;
  selectedFields : list activeField;
  titleField : option activeField
}.

(** A run of [updateResults] suspended at an [await], with its locals. *)
Inductive run : Type :=
  (** at [await sha256Hex(hashInput)] for [entry] *)
  | AwaitMerkleHash (ctx : runContext) (hashes : list hashRecord)
      (entry : gmap string string) (rest : list (gmap string string))
      (hashInput : string)
  (** at [await sha256Hex(canonicalJson)] for [entry] *)
  | AwaitCanonicalHash (ctx : runContext) (hashes : list hashRecord)
      (entry : gmap string string) (rest : list (gmap string string))
      (merkleHash : string) (canonicalJson : string)
  (** at [await buildMerkleTree(leafNodes)] *)
  | AwaitTree (ctx : runContext) (leafNodes : list leaf).

Definition contextOf (r : run) : runContext :=
  match r with
  | AwaitMerkleHash ctx _ _ _ _ => ctx
  | AwaitCanonicalHash ctx _ _ _ _ _ => ctx
  | AwaitTree ctx _ => ctx
  end.

(** [runId !== this.state.computationVersion]. *)
Definition isStale (ctx : runContext) (p : panel) : bool :=
  negb (runId ctx =? computationVersion p).

Section Runs.
Context {rt : Runtime}.

(** From the head of the loop over the entries still to hash (or, when none
    is left, from the statement after the loop) up to the next [await].
    [None]: the run has ended, by [return] or by a throw. *)
Definition continueLoop (ctx : runContext) (hashes : list hashRecord)
    (entries : list (gmap string string)) (p : panel) : option run :=
  if isStale ctx p then None
  else
    match entries with
    | entry :: rest =>
        match normalizeEntry entry (selectedFields ctx) with
        | Returns normalized =>
            let hashInput :=
              buildHashInput normalized (map fieldCanonical (selectedFields ctx)) in
            Some (AwaitMerkleHash ctx hashes entry rest hashInput)
        | Throws _ => None
        end
    | [] => Some (AwaitTree ctx (sortedLeaves hashes))
    end.

(** The run resumes with the value of the promise it awaited and executes up
    to its next [await] or to its end. *)
Definition resume (r : run) (p : panel) : panel * option run :=
  match r with
  | AwaitMerkleHash ctx hashes entry rest hashInput =>
      let merkleHash := sha256Hex hashInput in
      if isStale ctx p then (p, None)
      else
        match canonicalizeEntry entry (selectedFields ctx) with
        | Returns canonicalJson =>
            (p, Some (AwaitCanonicalHash ctx hashes entry rest merkleHash canonicalJson))
        | Throws _ => (p, None)
        end
  | AwaitCanonicalHash ctx hashes entry rest merkleHash canonicalJson =>
      let canonicalHash := sha256Hex canonicalJson in
      if isStale ctx p then (p, None)
      else
        let titleValue := titleOf (titleField ctx) entry in
        let hashes' := hashes ++ [HashRecord merkleHash canonicalHash titleValue] in
        (p, continueLoop ctx hashes' rest p)
  | AwaitTree ctx leafNodes =>
      match buildMerkleTree leafNodes with
      | Returns merkleData =>
          if isStale ctx p then (p, None)
          else (publish leafNodes merkleData p, None)
      | Throws _ => (p, None)
      end
  end.

(** [updateResults()], up to its first [await]. *)
Definition updateResults (p : panel) : panel * option run :=
  match parsedEntries p with
  | [] => (publish [] None p, None)
  | _ :: _ =>
      let selected := getSelectedFields (activeFields p) (isChecked p) in
      let p1 := bumpVersion p in
      let ctx := RunContext (computationVersion p1) selected
                            (findTitleField (activeFields p1)) in
      match selected with
      | [] => (publish [] None p1, None)
      | _ :: _ => (p1, continueLoop ctx [] (parsedEntries p1) p1)
      end
  end.

(** [handleFileInput], from the point where the text of the file has
    arrived. *)
Definition fileLoaded (text : string) (p : panel) : panel * option run :=
  let parsed := Csv.parseCsv text in
  match Csv.headers parsed with
  | [] => (resetData p, None)
  | _ :: _ =>
      let p1 := Panel (Csv.headers parsed) (Csv.dataRows parsed)
                      (buildActiveFields (Csv.headers parsed))
                      (computationVersion p) (currentRootPrefix p)
                      (currentRootHash p) (latestHashes p) (lastMerkleData p)
                      (highlightedHashes p) (checkedBoxes p)
                      (changeNotifications p) in
      match parsedEntries p1 with
      | [] => (resetData p1, None)
      | _ :: _ => updateResults (renderColumns p1)
      end
  end.

(** The user toggles a check box; its [change] handler calls
    [updateResults]. *)
Definition checkboxChanged (name : string) (p : panel) : panel * option run :=
  let boxes := if isChecked p name then checkedBoxes p ∖ {[name]}
               else checkedBoxes p ∪ {[name]} in
  updateResults
    (Panel (parsedHeaders p) (parsedEntries p) (activeFields p)
           (computationVersion p) (currentRootPrefix p) (currentRootHash p)
           (latestHashes p) (lastMerkleData p) (highlightedHashes p) boxes
           (changeNotifications p)).

(** *** A panel with its suspended runs, and what can happen to it *)

Record system := System {
  thePanel : panel;
  inFlight : list run
}.

Inductive event : Type :=
  | FileLoaded (text : string)
  | CheckboxChanged (name : string)
  | ClearClicked
  (** the promise awaited by the [i]-th suspended run resolves *)
  | PromiseResolved (i : nat).

Definition spawn (runs : list run) (started : panel * option run) : system :=
  System started.1 (runs ++ option_list started.2).

Definition step (s : system) (e : event) : system :=
  match e with
  | FileLoaded text => spawn (inFlight s) (fileLoaded text (thePanel s))
  | CheckboxChanged name => spawn (inFlight s) (checkboxChanged name (thePanel s))
  | ClearClicked => System (resetData (thePanel s)) (inFlight s)
  | PromiseResolved i =>
      match inFlight s !! i with
      | Some r => spawn (delete i (inFlight s)) (resume r (thePanel s))
      | None => s
      end
  end.

Definition runEvents (s : system) (events : list event) : system :=
  fold_left step events s.

Definition initialSystem : system := System newPanel [].

(** A started computation resumed again and again while nothing else
    happens to the panel, at most [fuel] times: the panel it leaves. *)
Fixpoint runAlone (fuel : nat) (started : panel * option run) : panel :=
  match started.2, fuel with
  | Some r, S fuel' => runAlone fuel' (resume r started.1)
  | _, _ => started.1
  end.

End Runs.

(** *** Numbering of the runs *)

(** The identifier a run captured. *)
Definition idOf (r : run) : Z := runId (contextOf r).

(** What starting a computation does to the counter: it never decreases, and
    a run is started with the incremented counter as its identifier. *)
Definition startsRun (p : panel) (started : panel * option run) : Prop :=
  computationVersion p <= computationVersion started.1
  /\ forall r, started.2 = Some r ->
       computationVersion started.1 = computationVersion p + 1
       /\ idOf r = computationVersion started.1.

(** The invariant of a panel with its suspended runs: no run has an
    identifier above the counter, and no two runs share one. *)
Definition wellNumbered (s : system) : Prop :=
  Forall (fun r => idOf r <= computationVersion (thePanel s)) (inFlight s)
  /\ NoDup (map idOf (inFlight s)).


(** ** Diff ([handleComparison]) *)

(** [getHashes().map(entry => entry.hash).filter(hash => Boolean(hash))]
    collected into a [Set]. *)
Definition hashSetOf (leaves : list leaf) : gset string :=
  setOfList (filter (fun h => isEmptyStr h = false) (map leafHash leaves)).

(** The loop [rightHashes.forEach(...)] filling [diffSet]. *)
Fixpoint collectDiff (leftHashes : gset string) (rightHashes : list leaf)
    (diffSet : gset string) : gset string :=
  match rightHashes with
  | [] => diffSet
  | entry :: rest =>
      if negb (isEmptyStr (leafHash entry))
         && negb (bool_decide (leafHash entry ∈ leftHashes))
      then collectDiff leftHashes rest (diffSet ∪ {[leafHash entry]})
      else collectDiff leftHashes rest diffSet
  end.

(** The body of [handleComparison] once dual mode and both panels are
    established: the set computed from the left panel's hashes (the
    reference) and the right panel's (the candidate). *)
Definition diffLeaves (referenceLeaves candidateLeaves : list leaf) : gset string :=
  let leftHashes := hashSetOf referenceLeaves in
  let rightHashes := candidateLeaves in
  if bool_decide (size leftHashes = 0%nat) || bool_decide (length rightHashes = 0%nat)
  then ∅
  else collectDiff leftHashes rightHashes ∅.

(** The set [handleComparison] passes to [rightController.setDifferences],
    from the two panels' published [latestHashes]; [None] when there is no
    right panel to receive it. *)
Definition handleComparison (isDual : bool) (leftController rightController : option panel)
  : option (gset string) :=
  match isDual, leftController, rightController with
  | true, Some leftPanel, Some rightPanel =>
      Some (diffLeaves (latestHashes leftPanel) (latestHashes rightPanel))
  | _, _, Some _ => Some ∅
  | _, _, None => None
  end.

(** ** Further notions used in the statements below *)

(** Every character of [s] satisfies [p]. *)
Fixpoint allChars (p : ascii -> bool) (s : string) : bool :=
  match s with
  | EmptyString => true
  | String c rest => p c && allChars p rest
  end.

(** A digit of lower-case hexadecimal: [0-9a-f]. *)
Definition isLowerHex (c : ascii) : bool :=
  let n := N_of_ascii c in
  ((48 <=? n) && (n <=? 57) || (97 <=? n) && (n <=? 102))%N.

(** The elements a [Uint8Array] can hold. *)
Definition isByte (b : N) : Prop := (b < 256)%N.

(** A second runtime for examples, whose digest has the shape of SHA-256's
    output: always 32 bytes (the first 32 elements of its input, reduced
    modulo 256 and padded with zeros). *)
Definition truncatingDigest (bytes : list N) : list N :=
  take 32 (map (fun b => b mod 256)%N bytes ++ replicate 32 0%N).

Definition shapedRuntime : Runtime :=
  {| nfc := fun s => s;
     utcOfLocal := fun t => t;
     implParse := fun _ => None;
     digest := truncatingDigest |}.

Section LevelChain.
Context {rt : Runtime}.

(** [levels] is what the loop of [buildMerkleTree] records from
    [currentLevel] on: each level is the padded current level, the next
    current level is made of its pairs, and the last level has one node. *)
Fixpoint levelsFrom (currentLevel : list node) (levels : list (list node)) : Prop :=
  match levels with
  | [] => False
  | workingLevel :: rest =>
      workingLevel = padLevel currentLevel
      /\ match rest with
         | [] => length workingLevel = 1%nat
         | _ :: _ =>
             exists nextLevel,
               combinePairs workingLevel = Returns nextLevel
               /\ levelsFrom nextLevel rest
         end
  end.

End LevelChain.

(** The words of a text: its maximal runs of characters that are not white
    space, in order.  [current] is the word being read, if any. *)
Fixpoint splitWords (current : option string) (s : string) : list string :=
  match s with
  | EmptyString => option_list current
  | String c rest =>
      if isSpace c then option_list current ++ splitWords None rest
      else splitWords (Some (default EmptyString current +:+ str1 c)) rest
  end.

Definition wordsOf (s : string) : list string := splitWords None s.


(** A word: not empty and free of white space. *)
Definition isWord (w : string) : Prop :=
  w <> EmptyString /\ allChars (fun c => negb (isSpace c)) w = true.



Section Shown.
Context {rt : Runtime}.

(** What a panel shows agrees with what it published: the tree it keeps is
    the tree of the leaves it keeps, and the root and its prefix are those
    of that tree. *)
Definition showsItsTree (p : panel) : Prop :=
  buildMerkleTree (latestHashes p) = Returns (lastMerkleData p)
  /\ currentRootHash p = default EmptyString (root <$> lastMerkleData p)
  /\ currentRootPrefix p = sliceTo 7 (currentRootHash p).

End Shown.

(** ** The page: two panels and the comparison

    [setDifferences(hashSet)]: the callers pass a [Set]. *)
Definition setDifferences (hashSet : gset string) (p : panel) : panel :=
  let p1 := Panel (parsedHeaders p) (parsedEntries p) (activeFields p)
                  (computationVersion p) (currentRootPrefix p) (currentRootHash p)
                  (latestHashes p) (lastMerkleData p) hashSet (checkedBoxes p)
                  (changeNotifications p) in
  match lastMerkleData p1 with
  | Some data => renderMerkleTree (Some data) p1
  | None => p1
  end.

(** The state the [DOMContentLoaded] handler closes over: the dual-mode
    toggle and the two controllers, each with its suspended runs. *)
Record page := Page {
  toggleChecked : bool;
  controllersLeft : system;
  controllersRight : system
}.

(** [handleComparison()] with both controllers present: the set it computes
    goes to the right panel. *)
Definition compare (g : page) : page :=
  match handleComparison (toggleChecked g)
          (Some (thePanel (controllersLeft g)))
          (Some (thePanel (controllersRight g))) with
  | Some hashSet =>
      Page (toggleChecked g) (controllersLeft g)
           (System (setDifferences hashSet (thePanel (controllersRight g)))
                   (inFlight (controllersRight g)))
  | None => g
  end.

(** Whether a step of a panel called [notifyChange]. *)
Definition notified (before after : panel) : bool :=
  negb (changeNotifications before =? changeNotifications after)%nat.

Inductive pageEvent : Type :=
  | OnLeft (e : event)
  | OnRight (e : event)
  (** the [change] event of the toggle, with its new state *)
  | ToggleChanged (checked : bool).

Section Page.
Context {rt : Runtime}.

(** [updateMode(isDual)], called with [toggle.checked]: leaving dual mode
    clears the right panel, whose [notifyChange] runs the comparison. *)
Definition updateMode (isDual : bool) (g : page) : page :=
  let g1 :=
    if isDual then g
    else compare (Page (toggleChecked g) (controllersLeft g)
                       (step (controllersRight g) ClearClicked)) in
  compare g1.

(** An event of the page.  Both controllers have [handleComparison] as
    their change handler, and [notifyChange] is the last statement of
    [publish] and [resetData] that touches the state: the comparison runs
    at the end of a step that notified. *)
Definition pageStep (g : page) (e : pageEvent) : page :=
  match e with
  | OnLeft e =>
      let s' := step (controllersLeft g) e in
      let g' := Page (toggleChecked g) s' (controllersRight g) in
      if notified (thePanel (controllersLeft g)) (thePanel s') then compare g' else g'
  | OnRight e =>
      let s' := step (controllersRight g) e in
      let g' := Page (toggleChecked g) (controllersLeft g) s' in
      if notified (thePanel (controllersRight g)) (thePanel s') then compare g' else g'
  | ToggleChanged checked =>
      updateMode checked (Page checked (controllersLeft g) (controllersRight g))
  end.

Definition runPage (g : page) (events : list pageEvent) : page :=
  fold_left pageStep events g.

(** The page once [DOMContentLoaded] has run, the toggle being in the state
    [checked]. *)
Definition startPage (checked : bool) : page :=
  updateMode checked (Page checked initialSystem initialSystem).

End Page.

(** The highlighted hashes are the differences of what the two panels
    published, and the left panel highlights nothing. *)
Definition highlightsAgree (g : page) : Prop :=
  highlightedHashes (thePanel (controllersRight g))
  = (if toggleChecked g
     then diffLeaves (latestHashes (thePanel (controllersLeft g)))
                     (latestHashes (thePanel (controllersRight g)))
     else ∅)
  /\ highlightedHashes (thePanel (controllersLeft g)) = ∅.

(** A step of a panel either notifies, or leaves what the panel published
    and highlights as it was; and it never highlights anything by itself. *)
Definition quietOrNotified (p p' : panel) : Prop :=
  (changeNotifications p' = S (changeNotifications p)
   \/ (changeNotifications p' = changeNotifications p
       /\ latestHashes p' = latestHashes p
       /\ highlightedHashes p' = highlightedHashes p))
  /\ (highlightedHashes p = ∅ -> highlightedHashes p' = ∅).

(** ** Time stamps in UTC

    The text [YYYY-MM-DDTHH:mm:ssZ] with the given elements. *)
Definition utcStamp (y m d h mi s : string) : string :=
  y +:+ "-" +:+ m +:+ "-" +:+ d +:+ "T" +:+ h +:+ ":" +:+ mi +:+ ":" +:+ s +:+ "Z".

Definition digits2 (a b : ascii) : string := String a (String b EmptyString).

Definition digits4 (a b c d : ascii) : string :=
  String a (String b (String c (String d EmptyString))).

(** ** What the rendered tree marks

    [isDiff] of [renderMerkleTree] for a node of the level [realLevelIndex];
    the hash of a node is a string, which [node.hash || empty] leaves as it
    is. *)
Definition isDiff (realLevelIndex : nat) (n : node) (highlightSet : gset string)
  : bool :=
  (realLevelIndex =? 0)%nat && negb (isDuplicate n)
  && bool_decide (hash n ∈ highlightSet).

(** Whether the tree of a panel, rendered with the panel's highlighted
    hashes, marks the node [i] of the level [k] as a difference.  Every
    assignment to [lastMerkleData] and to [highlightedHashes] of a panel
    with a tree is followed by a rendering, so this is what the panel
    shows. *)
Definition marksNode (p : panel) (k i : nat) : bool :=
  match lastMerkleData p with
  | Some data =>
      match levels data !! k ≫= (fun level => level !! i) with
      | Some n => isDiff k n (highlightedHashes p)
      | None => false
      end
  | None => false
  end.
(** * Properties *)

(** ** CSV tokenizer *)

Module CsvFacts.
Import Csv.

(** A quote followed by a quote is taken as an escaped quote whatever the
    value of [isInQuotes]: the first test of the loop does not read the
    flag. *)
Lemma scanStep_quote_quote (st : scan) :
  scanStep DQUOTE (Some DQUOTE) st = (emit DQUOTE st, true).
Proof. reflexivity. Qed.

Lemma scanStep_single_quote (next : option ascii) (st : scan) :
  next <> Some DQUOTE -> scanStep DQUOTE next st = (toggle st, false).
Proof.
  intros Hnext. unfold scanStep. simpl.
  rewrite bool_decide_eq_false_2 by exact Hnext. reflexivity.
Qed.

Lemma scanStep_comma_outside (next : option ascii) (st : scan) :
  isInQuotes st = false -> scanStep COMMA next st = (pushValue st, false).
Proof. intros Hq. unfold scanStep. simpl. rewrite Hq. reflexivity. Qed.

Lemma scanStep_comma_inside (next : option ascii) (st : scan) :
  isInQuotes st = true -> scanStep COMMA next st = (emit COMMA st, false).
Proof. intros Hq. unfold scanStep. simpl. rewrite Hq. reflexivity. Qed.

Lemma scanStep_crlf_outside (st : scan) :
  isInQuotes st = false ->
  scanStep CR (Some LF) st = (pushRowIfNeeded (pushValue st), true).
Proof. intros Hq. unfold scanStep. simpl. rewrite Hq. reflexivity. Qed.

Lemma scanStep_lf_outside (next : option ascii) (st : scan) :
  isInQuotes st = false ->
  scanStep LF next st = (pushRowIfNeeded (pushValue st), false).
Proof. intros Hq. unfold scanStep. simpl. rewrite Hq. reflexivity. Qed.

(** The sample of the specification: [Smith, "Bob"] written as a quoted
    field with escaped quotes. *)
Example tokenize_embedded_comma_and_quotes :
  tokenize (String DQUOTE ("Smith, " +:+ String DQUOTE (String DQUOTE
             ("Bob" +:+ String DQUOTE (String DQUOTE (str1 DQUOTE))))))
  = [["Smith, " +:+ String DQUOTE ("Bob" +:+ str1 DQUOTE)]].
Proof. reflexivity. Qed.

(** C4.  The scan does not obey the quoting state machine on an empty quoted
    field: in the line [a,QQ,b], where Q is the quote character, the two
    quotes open and close an empty field, yet the scan emits one literal
    quote for them, outside any quoted field, and the second field of the
    row is the one-character string Q instead of the empty string. *)
Theorem tokenize_empty_quoted_field :
  tokenize ("a," +:+ String DQUOTE (String DQUOTE ",b"))
  = [["a"; str1 DQUOTE; "b"]].
Proof. reflexivity. Qed.

End CsvFacts.

(** ** Row hasher *)

(** The loop over [HASH_FIELDS] keeps the selected fields, in the order of
    [HASH_FIELDS]. *)
Lemma buildHashInput_unfold (normalizedEntry : gmap string string)
    (selectedCanonical : list string) :
  buildHashInput normalizedEntry selectedCanonical
  = join "|"
      (map (fun field => default EmptyString (normalizedEntry !! field))
           (filter (fun field => field ∈ selectedCanonical) HASH_FIELDS)).
Proof.
  unfold buildHashInput, setOfList. f_equal.
  induction HASH_FIELDS as [|f fs IH]; [reflexivity|].
  cbn [omap list_omap]. rewrite filter_cons.
  destruct (decide (f ∈ selectedCanonical)) as [Hin|Hout].
  - rewrite bool_decide_eq_true_2 by (by apply elem_of_list_to_set).
    cbn. by rewrite IH.
  - rewrite bool_decide_eq_false_2 by (by rewrite elem_of_list_to_set).
    exact IH.
Qed.

(** C5.  The input of the identity hash is the selected normalised values
    joined with [|] in the order title, username, password, last modified,
    and two selections with the same members give the same input, in
    whatever order each lists them. *)
Theorem buildHashInput_selection_order (normalizedEntry : gmap string string)
    (selection1 selection2 : list string) :
  (forall field, field ∈ selection1 <-> field ∈ selection2) ->
  buildHashInput normalizedEntry selection1
  = join "|"
      (map (fun field => default EmptyString (normalizedEntry !! field))
           (filter (fun field => field ∈ selection1)
                   ["title"; "username"; "password"; "last modified"]))
  /\ buildHashInput normalizedEntry selection1
     = buildHashInput normalizedEntry selection2.
Proof.
  intros Hsame. split.
  - apply buildHashInput_unfold.
  - unfold buildHashInput.
    assert (setOfList selection1 = setOfList selection2) as ->; [|reflexivity].
    unfold setOfList. apply set_eq. intros field.
    rewrite !elem_of_list_to_set. apply Hsame.
Qed.

Lemma buildHashInput_selection_order_witness :
  (forall field, field ∈ ["password"; "title"] <-> field ∈ ["title"; "password"])
  /\ buildHashInput {[ "title" := "GitHub"; "password" := "hunter2" ]}
       ["password"; "title"]
     = buildHashInput {[ "title" := "GitHub"; "password" := "hunter2" ]}
         ["title"; "password"].
Proof.
  assert (forall field : string,
            field ∈ ["password"; "title"] <-> field ∈ ["title"; "password"]) as H.
  { intros field. rewrite !elem_of_cons. tauto. }
  split; [exact H|].
  exact (proj2 (buildHashInput_selection_order _ _ _ H)).
Defined.

(** C10.  The input of the identity hash is not injective: with title and
    username selected, the rows (title [a|b], username [c]) and (title [a],
    username [b|c]) are different, both are what [normalizeEntry] makes of
    a raw row, and both are encoded as [a|b|c]; so they receive the same
    identity hash, whatever the digest. *)
Theorem buildHashInput_not_injective :
  let fields := [ActiveField (FieldConfig "Title" "title") (Some "Title");
                 ActiveField (FieldConfig "Username" "username") (Some "User")] in
  let selection := map fieldCanonical fields in
  let row1 : gmap string string := {[ "title" := "a|b"; "username" := "c" ]} in
  let row2 : gmap string string := {[ "title" := "a"; "username" := "b|c" ]} in
  selection = ["title"; "username"]
  /\ row1 <> row2
  /\ @normalizeEntry exampleRuntime {[ "Title" := "a|b"; "User" := "c" ]} fields
     = Returns row1
  /\ @normalizeEntry exampleRuntime {[ "Title" := "a"; "User" := "b|c" ]} fields
     = Returns row2
  /\ buildHashInput row1 selection = "a|b|c"
  /\ buildHashInput row2 selection = "a|b|c"
  /\ forall rt : Runtime,
       @sha256Hex rt (buildHashInput row1 selection)
       = @sha256Hex rt (buildHashInput row2 selection).
Proof.
  cbv zeta. repeat split; try reflexivity.
  intros Heq.
  assert (({[ "title" := "a|b"; "username" := "c" ]} : gmap string string) !! "title"
          = ({[ "title" := "a"; "username" := "b|c" ]} : gmap string string) !! "title")
    as Hlook by (by rewrite Heq).
  vm_compute in Hlook. discriminate Hlook.
Qed.

(** ** Diff *)

Lemma elem_of_hashSetOf (leaves : list leaf) (h : string) :
  h ∈ hashSetOf leaves <-> h <> EmptyString /\ h ∈ map leafHash leaves.
Proof.
  unfold hashSetOf, setOfList. rewrite elem_of_list_to_set, list_elem_of_filter.
  destruct h; simpl; intuition congruence.
Qed.

Lemma elem_of_collectDiff (leftHashes : gset string) (rightHashes : list leaf)
    (diffSet : gset string) (h : string) :
  h ∈ collectDiff leftHashes rightHashes diffSet
  <-> h ∈ diffSet
      \/ (h <> EmptyString /\ h ∈ map leafHash rightHashes /\ h ∉ leftHashes).
Proof.
  revert diffSet. induction rightHashes as [|entry rest IH]; intros diffSet; simpl.
  - rewrite elem_of_nil. tauto.
  - rewrite elem_of_cons.
    destruct (isEmptyStr (leafHash entry)) eqn:Hempty; simpl.
    + rewrite IH. destruct (leafHash entry); [|discriminate].
      intuition congruence.
    + assert (leafHash entry <> EmptyString) as Hne
        by (destruct (leafHash entry); [discriminate|congruence]).
      case_bool_decide as Hin; simpl; rewrite IH.
      * intuition congruence.
      * rewrite elem_of_union, elem_of_singleton. intuition congruence.
Qed.

Lemma diffLeaves_empty (referenceLeaves candidateLeaves : list leaf) :
  hashSetOf referenceLeaves = ∅ \/ candidateLeaves = [] ->
  diffLeaves referenceLeaves candidateLeaves = ∅.
Proof.
  intros [Href | Hcand]; unfold diffLeaves.
  - rewrite Href. reflexivity.
  - rewrite Hcand. simpl. by rewrite orb_true_r.
Qed.

Lemma elem_of_diffLeaves (referenceLeaves candidateLeaves : list leaf) (h : string) :
  hashSetOf referenceLeaves <> ∅ ->
  h ∈ diffLeaves referenceLeaves candidateLeaves
  <-> h <> EmptyString /\ h ∈ map leafHash candidateLeaves
      /\ h ∉ map leafHash referenceLeaves.
Proof.
  intros Href. unfold diffLeaves.
  rewrite bool_decide_eq_false_2
    by (intros Hsize%size_empty_iff%leibniz_equiv; contradiction).
  destruct candidateLeaves as [|c cs]; simpl bool_decide.
  - simpl. rewrite elem_of_empty, elem_of_nil. tauto.
  - simpl orb. cbv iota.
    rewrite elem_of_collectDiff, elem_of_empty, elem_of_hashSetOf. tauto.
Qed.

(** C7.  In dual mode [handleComparison] hands the right panel the diff of
    the two published leaf lists, and that diff
    - contains exactly the hashes of the candidate that do not occur in the
      reference, as soon as neither side is empty;
    - is directional: for distinct hashes [a], [b], [c], the reference
      [{a, b}] and the candidate [[a, c]] give [{c}], and with the sides
      swapped they give [{b}];
    - is the empty set when the reference set or the candidate sequence is
      empty. *)
Theorem diffLeaves_spec (referenceLeaves candidateLeaves : list leaf)
    (leftPanel rightPanel : panel) (a b c : string) (ta tb tc : option string) :
  a <> EmptyString -> b <> EmptyString -> c <> EmptyString ->
  a <> b -> a <> c -> b <> c ->
  handleComparison true (Some leftPanel) (Some rightPanel)
    = Some (diffLeaves (latestHashes leftPanel) (latestHashes rightPanel))
  /\ (hashSetOf referenceLeaves <> ∅ -> candidateLeaves <> [] ->
      forall h, h <> EmptyString ->
        (h ∈ diffLeaves referenceLeaves candidateLeaves
         <-> h ∈ map leafHash candidateLeaves /\ h ∉ map leafHash referenceLeaves))
  /\ diffLeaves [Leaf a ta; Leaf b tb] [Leaf a ta; Leaf c tc] = {[ c ]}
  /\ diffLeaves [Leaf a ta; Leaf c tc] [Leaf a ta; Leaf b tb] = {[ b ]}
  /\ (hashSetOf referenceLeaves = ∅ \/ candidateLeaves = [] ->
      diffLeaves referenceLeaves candidateLeaves = ∅).
Proof.
  intros Ha Hb Hc Hab Hac Hbc.
  assert (forall x y tx ty, x <> EmptyString -> hashSetOf [Leaf a tx; Leaf y ty] <> ∅)
    as Hnonempty.
  { intros x y tx ty _ Hempty.
    assert (a ∈ hashSetOf [Leaf a tx; Leaf y ty]) as Hin
      by (apply elem_of_hashSetOf; split; [done|simpl; left]).
    rewrite Hempty in Hin. by apply elem_of_empty in Hin. }
  split; [reflexivity|]. split; [|split; [|split]].
  - intros Href _ h Hh. rewrite elem_of_diffLeaves by done. tauto.
  - apply set_eq. intros h.
    rewrite elem_of_diffLeaves by (by apply (Hnonempty a)).
    rewrite elem_of_singleton. simpl. rewrite !elem_of_cons, !elem_of_nil.
    split; [intuition congruence|].
    intros ->. intuition congruence.
  - apply set_eq. intros h.
    rewrite elem_of_diffLeaves by (by apply (Hnonempty a)).
    rewrite elem_of_singleton. simpl. rewrite !elem_of_cons, !elem_of_nil.
    split; [intuition congruence|].
    intros ->. intuition congruence.
  - apply diffLeaves_empty.
Qed.

Lemma diffLeaves_spec_witness :
  diffLeaves [Leaf "aa" None; Leaf "bb" None] [Leaf "aa" None; Leaf "cc" None]
    = {[ "cc" ]}
  /\ diffLeaves [Leaf "aa" None; Leaf "cc" None] [Leaf "aa" None; Leaf "bb" None]
    = {[ "bb" ]}
  /\ diffLeaves [] [Leaf "aa" None] = ∅.
Proof.
  pose proof (diffLeaves_spec [] [Leaf "aa" None] newPanel newPanel
                "aa" "bb" "cc" None None None
                ltac:(discriminate) ltac:(discriminate) ltac:(discriminate)
                ltac:(discriminate) ltac:(discriminate) ltac:(discriminate))
    as (_ & _ & Hc & Hb & Hempty).
  split; [exact Hc|]. split; [exact Hb|].
  apply Hempty. left. reflexivity.
Defined.
(** ** Sorting *)

Section SortFacts.
Context {A : Type} (comparator : A -> A -> Z).

Lemma insertSorted_Permutation (x : A) (l : list A) :
  insertSorted comparator x l ≡ₚ x :: l.
Proof.
  induction l as [|y l IH]; simpl; [reflexivity|].
  destruct (comparator x y <=? 0); [reflexivity|].
  rewrite IH. apply Permutation_swap.
Qed.

Lemma sortBy_Permutation (l : list A) : sortBy comparator l ≡ₚ l.
Proof.
  induction l as [|x l IH]; simpl; [reflexivity|].
  rewrite insertSorted_Permutation. by rewrite IH.
Qed.

Context `{!Total (notAfter comparator)}.

Lemma insertSorted_Sorted (x : A) (l : list A) :
  Sorted (notAfter comparator) l -> Sorted (notAfter comparator) (insertSorted comparator x l).
Proof.
  induction 1 as [|y l Hl IH Hhd]; simpl.
  - repeat constructor.
  - destruct (Z.leb_spec (comparator x y) 0) as [Hle|Hgt].
    + constructor; [by constructor|]. by constructor.
    + constructor; [exact IH|].
      assert ((notAfter comparator) y x) as Hyx.
      { destruct (total (notAfter comparator) x y) as [Hxy|Hyx]; [|exact Hyx].
        unfold notAfter in Hxy. lia. }
      destruct Hhd as [|z l' Hyz]; simpl.
      * by constructor.
      * destruct (comparator x z <=? 0); by constructor.
Qed.

Lemma sortBy_Sorted (l : list A) : Sorted (notAfter comparator) (sortBy comparator l).
Proof.
  induction l as [|x l IH]; simpl; [constructor|].
  by apply insertSorted_Sorted.
Qed.

Lemma sortBy_StronglySorted `{!Transitive (notAfter comparator)} (l : list A) :
  StronglySorted (notAfter comparator) (sortBy comparator l).
Proof. apply Sorted_StronglySorted; [done|]. apply sortBy_Sorted. Qed.

End SortFacts.

(** [localeCompare] is the order [String.le] of code units. *)
Lemma localeCompare_le (a b : string) : localeCompare a b <= 0 <-> String.le a b.
Proof.
  unfold localeCompare, String.le, String.leb.
  destruct (String.compare a b); simpl; split; (lia || done).
Qed.



Lemma localeCompare_lt_gt (a b : string) :
  localeCompare a b < 0 -> 0 < localeCompare b a.
Proof.
  unfold localeCompare. rewrite (String.compare_antisym a b).
  destruct (String.compare b a); simpl; lia.
Qed.

Section SortByKey.
Context {A : Type} (key : A -> string).

#[global] Instance compareKey_total : Total (notAfter (compareKey key)).
Proof.
  intros x y. unfold notAfter, compareKey. rewrite !localeCompare_le.
  apply (total String.le).
Qed.

#[global] Instance compareKey_trans : Transitive (notAfter (compareKey key)).
Proof.
  intros x y z. unfold notAfter, compareKey. rewrite !localeCompare_le.
  apply (transitivity (R := String.le)).
Qed.


End SortByKey.

(** ** Merkle tree builder *)

Section MerkleFacts.
Context {rt : Runtime}.

(** The two shapes of a padded level. *)
Lemma padLevel_cases (currentLevel : list node) :
  (padLevel currentLevel = currentLevel
   /\ (length currentLevel <= 1 \/ Nat.even (length currentLevel) = true)%nat)
  \/ (exists front lastNode,
        currentLevel = front ++ [lastNode]
        /\ front <> []
        /\ Nat.even (length front) = true
        /\ padLevel currentLevel
           = front ++ [lastNode; Node (hash lastNode) (title lastNode) true]).
Proof.
  unfold padLevel.
  case_bool_decide as Hlen; simpl.
  - destruct (Nat.odd (length currentLevel)) eqn:Hodd.
    + right.
      destruct (exists_last (l := currentLevel)) as (front & lastNode & ->).
      { intros ->. simpl in Hlen. lia. }
      exists front, lastNode. rewrite last_snoc.
      rewrite length_app in Hlen, Hodd. simpl in Hlen, Hodd.
      split; [done|]. split; [intros ->; simpl in Hlen; lia|]. split.
      * rewrite Nat.add_1_r, Nat.odd_succ in Hodd. exact Hodd.
      * by rewrite <- app_assoc.
    + left. split; [done|]. right.
      rewrite <- Nat.negb_odd. by rewrite Hodd.
  - left. split; [done|]. left. lia.
Qed.

Lemma combinePairs_even (workingLevel : list node) :
  Nat.even (length workingLevel) = true ->
  exists nextLevel,
    combinePairs workingLevel = Returns nextLevel
    /\ (2 * length nextLevel = length workingLevel)%nat
    /\ Forall isParent nextLevel.
Proof.
  induction workingLevel as [workingLevel IH] using (induction_ltof1 _ (@length _)).
  unfold ltof in IH.
  destruct workingLevel as [|l [|r rest]]; intros Heven.
  - exists []. by repeat split.
  - discriminate.
  - destruct (IH rest) as (next & Hnext & Hlen & Hall); [simpl; lia|exact Heven|].
    eexists. simpl. rewrite Hnext. simpl. split; [reflexivity|].
    split; [simpl; lia|]. constructor; [by split|done].
Qed.

Lemma padLevel_length (currentLevel : list node) :
  currentLevel <> [] ->
  (length (padLevel currentLevel) = 1 /\ length currentLevel = 1
   \/ Nat.even (length (padLevel currentLevel)) = true
      /\ 2 <= length currentLevel
      /\ length currentLevel <= length (padLevel currentLevel)
         <= length currentLevel + 1)%nat.
Proof.
  intros Hne.
  destruct (padLevel_cases currentLevel) as [[-> Hlen]|(front & lastNode & -> & Hfront & Heven & ->)].
  - destruct currentLevel as [|a [|b rest]]; [done|left; done|right].
    destruct Hlen as [Hlen|Hlen]; [simpl in Hlen; lia|].
    split; [done|]. simpl. lia.
  - right. rewrite !length_app. simpl.
    destruct front as [|f front]; [done|]. split; [|simpl; lia].
    replace (length (f :: front) + 2)%nat with (S (S (length (f :: front)))) by lia.
    exact Heven.
Qed.

(** With at least as much fuel as nodes, the loop returns, and it records
    the padded level followed by levels of parents. *)
Lemma buildLevels_returns (fuel : nat) (currentLevel : list node)
    (recorded : list (list node)) :
  currentLevel <> [] -> (length currentLevel <= fuel)%nat ->
  exists upper lastLevel rootNode,
    buildLevels fuel currentLevel recorded
      = Returns (MerkleData (recorded ++ padLevel currentLevel :: upper) (hash rootNode))
    /\ last (padLevel currentLevel :: upper) = Some lastLevel
    /\ lastLevel = [rootNode]
    /\ Forall (fun level => exists parents,
                 level = padLevel parents /\ Forall isParent parents) upper.
Proof.
  revert currentLevel recorded.
  induction fuel as [|fuel IH]; intros currentLevel recorded Hne Hfuel.
  { destruct currentLevel; [done|simpl in Hfuel; lia]. }
  simpl.
  destruct (padLevel_length currentLevel Hne) as [[Hone _]|(Heven & Htwo & Hpad)].
  - destruct (padLevel currentLevel) as [|only [|? ?]] eqn:Hpadded; try discriminate.
    exists [], [only], only. by repeat split.
  - destruct (combinePairs_even _ Heven) as (next & Hnext & Hlen & Hparents).
    assert (next <> []) as Hnextne.
    { intros ->. simpl in Hlen. lia. }
    destruct (IH next (recorded ++ [padLevel currentLevel]) Hnextne)
      as (upper & lastLevel & rootNode & Hbuild & Hlast & Hroot & Hupper); [lia|].
    destruct (padLevel currentLevel) as [|a [|b rest]] eqn:Hpadded;
      [simpl in Hpad; lia|discriminate|].
    rewrite Hnext. simpl. rewrite Hbuild.
    exists (padLevel next :: upper), lastLevel, rootNode.
    rewrite <- app_assoc. simpl. split; [done|]. split; [|split; [done|]].
    + simpl in Hlast. destruct upper; simpl in *; done.
    + constructor; [|done]. by exists next.
Qed.

(** [buildMerkleTree] returns on every input: [null] exactly for no leaves,
    and otherwise a tree whose last level is the single root node. *)
Lemma buildMerkleTree_returns (leaves : list leaf) :
  (leaves = [] /\ buildMerkleTree leaves = Returns None)
  \/ (exists upper lastLevel rootNode,
        let leafLevel := map (fun l => Node (leafHash l) (leafTitle l) false) leaves in
        buildMerkleTree leaves
          = Returns (Some (MerkleData (padLevel leafLevel :: upper) (hash rootNode)))
        /\ last (padLevel leafLevel :: upper) = Some lastLevel
        /\ lastLevel = [rootNode]
        /\ Forall isReal leafLevel
        /\ Forall (fun level => exists parents,
                     level = padLevel parents /\ Forall isParent parents) upper).
Proof.
  destruct leaves as [|l leaves]; [by left|right].
  set (leafLevel := map (fun l => Node (leafHash l) (leafTitle l) false) (l :: leaves)).
  destruct (buildLevels_returns (length (l :: leaves)) leafLevel [])
    as (upper & lastLevel & rootNode & Hbuild & Hlast & Hroot & Hupper).
  { done. }
  { unfold leafLevel. by rewrite length_map. }
  exists upper, lastLevel, rootNode. cbv zeta. fold leafLevel.
  unfold buildMerkleTree. fold leafLevel. rewrite Hbuild. simpl.
  split; [done|]. split; [done|]. split; [done|]. split; [|done].
  unfold leafLevel. apply Forall_forall. intros n Hn.
  apply list_elem_of_fmap in Hn as (? & -> & _). reflexivity.
Qed.

End MerkleFacts.

Section MerkleClaims.
Context {rt : Runtime}.

(** A duplicate in a padded level of real nodes is the node pushed by the
    padding: the copy of the last node. *)
Lemma padLevel_duplicate (currentLevel : list node) (j : nat) (n : node) :
  Forall isReal currentLevel ->
  padLevel currentLevel !! j = Some n -> isDuplicate n = true ->
  exists front lastNode,
    currentLevel = front ++ [lastNode]
    /\ j = length currentLevel
    /\ n = Node (hash lastNode) (title lastNode) true
    /\ padLevel currentLevel = currentLevel ++ [n].
Proof.
  intros Hreal Hlook Hdup.
  assert (forall k, currentLevel !! k = Some n -> False) as Hnotin.
  { intros k Hk. rewrite Forall_forall in Hreal.
    assert (isReal n) as Hn by (apply Hreal; eapply list_elem_of_lookup_2; exact Hk).
    unfold isReal in Hn. congruence. }
  destruct (padLevel_cases currentLevel)
    as [[Heq _]|(front & lastNode & Hcur & _ & _ & Hpad)].
  - rewrite Heq in Hlook. by apply Hnotin in Hlook.
  - exists front, lastNode. rewrite Hpad in Hlook |- *.
    change (front ++ [lastNode; Node (hash lastNode) (title lastNode) true])
      with (front ++ [lastNode] ++ [Node (hash lastNode) (title lastNode) true])
      in Hlook |- *.
    rewrite app_assoc, <- Hcur in Hlook |- *.
    destruct (decide (j < length currentLevel)%nat) as [Hlt|Hge].
    + rewrite lookup_app_l in Hlook by done. by apply Hnotin in Hlook.
    + rewrite lookup_app_r in Hlook by lia.
      destruct (j - length currentLevel)%nat as [|k] eqn:Hk; simpl in Hlook; [|done].
      injection Hlook as <-. split; [done|]. split; [lia|]. by split.
Qed.

(** C3 (as amended).  In every tree the builder returns, a node whose
    [isDuplicate] flag is set is the last node of its level and carries the
    hash and the title of its left sibling, which is a real node: on the
    leaf level the title of the last leaf, on the levels above no title. *)
Theorem duplicate_copies_left_sibling (leaves : list leaf) (data : merkleData)
    (i j : nat) (level : list node) (n : node) :
  buildMerkleTree leaves = Returns (Some data) ->
  levels data !! i = Some level ->
  level !! j = Some n ->
  isDuplicate n = true ->
  exists j' sibling,
    j = S j' /\ length level = S j
    /\ level !! j' = Some sibling
    /\ isDuplicate sibling = false
    /\ hash n = hash sibling
    /\ title n = title sibling
    /\ (i = 0%nat ->
        exists lastLeaf, last leaves = Some lastLeaf /\ title n = leafTitle lastLeaf)
    /\ (i <> 0%nat -> title n = None).
Proof.
  intros Hbuild Hlevel Hnode Hdup.
  destruct (buildMerkleTree_returns leaves)
    as [[_ Hnull]|(upper & lastLevel & rootNode & Htree & _ & _ & Hleaves & Hupper)].
  { rewrite Hnull in Hbuild. discriminate. }
  cbv zeta in Htree. rewrite Htree in Hbuild. injection Hbuild as <-.
  simpl in Hlevel.
  assert (exists currentLevel,
            level = padLevel currentLevel /\ Forall isReal currentLevel
            /\ (i = 0%nat ->
                currentLevel = map (fun l => Node (leafHash l) (leafTitle l) false) leaves)
            /\ (i <> 0%nat -> Forall isParent currentLevel))
    as (currentLevel & -> & Hreal & Hzero & Hpos).
  { destruct i as [|i]; simpl in Hlevel.
    - injection Hlevel as <-. eexists. by repeat split.
    - rewrite Forall_forall in Hupper.
      destruct (Hupper level) as (parents & -> & Hparents).
      { eapply list_elem_of_lookup_2. exact Hlevel. }
      exists parents. repeat split; [|done|done].
      eapply Forall_impl; [exact Hparents|]. by intros ? [? _]. }
  destruct (padLevel_duplicate _ _ _ Hreal Hnode Hdup)
    as (front & lastNode & Hcur & -> & -> & Hpad).
  assert (currentLevel !! length front = Some lastNode) as Hsibling.
  { rewrite Hcur. rewrite lookup_app_r by lia. by rewrite Nat.sub_diag. }
  exists (length front), lastNode.
  assert (length currentLevel = S (length front)) as Hlen
    by (rewrite Hcur, length_app; simpl; lia).
  split; [done|]. split; [rewrite Hpad, length_app; simpl; lia|].
  split; [rewrite Hpad, lookup_app_l by lia; done|].
  split. { rewrite Forall_forall in Hreal. apply Hreal.
           eapply list_elem_of_lookup_2. exact Hsibling. }
  split; [done|]. split; [done|]. split.
  - intros Hi. specialize (Hzero Hi). simpl.
    rewrite Hzero in Hcur.
    destruct (exists_last (l := leaves)) as (leaves' & lastLeaf & ->).
    { intros ->. by destruct front. }
    exists lastLeaf. rewrite last_snoc. split; [done|].
    rewrite map_app in Hcur. simpl in Hcur.
    apply app_inj_tail in Hcur as [_ <-]. reflexivity.
  - intros Hi. specialize (Hpos Hi). simpl.
    rewrite Forall_forall in Hpos.
    destruct (Hpos lastNode) as [_ Htitle]; [|done].
    eapply list_elem_of_lookup_2. exact Hsibling.
Qed.

End MerkleClaims.

Lemma duplicate_copies_left_sibling_witness :
  exists j' sibling,
    3%nat = S j'
    /\ [Node "aa" (Some "A") false; Node "bb" (Some "B") false;
        Node "cc" (Some "C") false; Node "cc" (Some "C") true] !! j' = Some sibling
    /\ title (Node "cc" (Some "C") true) = title sibling.
Proof.
  destruct (@duplicate_copies_left_sibling exampleRuntime
              [Leaf "aa" (Some "A"); Leaf "bb" (Some "B"); Leaf "cc" (Some "C")]
              _ 0%nat 3%nat _ (Node "cc" (Some "C") true)
              eq_refl eq_refl eq_refl eq_refl)
    as (j' & sibling & Hj & _ & Hlook & _ & _ & Htitle & _).
  exists j', sibling. auto.
Defined.

(** C3 (as stated) fails: the duplicate that pads three titled leaves
    carries the title of the third leaf. *)
Lemma duplicate_title_counterexample :
  ~ (forall (rt : Runtime) (leaves : list leaf) (data : merkleData)
            (level : list node) (n : node),
       @buildMerkleTree rt leaves = Returns (Some data) ->
       level ∈ levels data -> n ∈ level ->
       isDuplicate n = true -> title n = None).
Proof.
  intros Hclaim.
  specialize (Hclaim exampleRuntime
                [Leaf "aa" (Some "A"); Leaf "bb" (Some "B"); Leaf "cc" (Some "C")]
                _ _ (Node "cc" (Some "C") true) eq_refl
                ltac:(left) ltac:(do 3 right; left) eq_refl).
  discriminate Hclaim.
Qed.

(** ** Three leaves *)


Section ThreeLeaves.
Context {rt : Runtime}.

(** The hash [doubleSha256Hex] gives a parent: the digest of the digest of
    the decoded bytes of the two child hashes, in hexadecimal. *)
Lemma doubleSha256Hex_bytes (leftHex rightHex : string) :
  doubleSha256Hex leftHex rightHex
  = bytesToHex (digest (digest (hexToBytes leftHex ++ hexToBytes rightHex))).
Proof. reflexivity. Qed.



End ThreeLeaves.


(** ** Date normalisation *)

Lemma digitChar_cases (n : Z) :
  exists k, (k < 10)%N /\ digitChar n = ascii_of_N (48 + k).
Proof.
  unfold digitChar. exists (Z.to_N (n mod 10)).
  pose proof (Z.mod_pos_bound n 10 ltac:(lia)) as Hbound.
  split; [lia|]. f_equal. lia.
Qed.

Lemma digitChar_props (n : Z) :
  isDigit (digitChar n) = true /\ charEq (digitChar n) "." = false.
Proof.
  destruct (digitChar_cases n) as (k & Hk & ->).
  assert (k = 0 \/ k = 1 \/ k = 2 \/ k = 3 \/ k = 4 \/ k = 5 \/ k = 6 \/ k = 7
          \/ k = 8 \/ k = 9)%N as Hcases by lia.
  repeat (destruct Hcases as [->|Hcases]; [by split|]). subst. by split.
Qed.

Lemma dotFree_app (s1 s2 : string) :
  dotFree (s1 +:+ s2) = dotFree s1 && dotFree s2.
Proof.
  induction s1 as [|c s1 IH]; simpl; [reflexivity|].
  rewrite IH. by rewrite andb_assoc.
Qed.

Lemma dotFree_decimal (width : nat) (n : Z) (acc : string) :
  dotFree (decimal width n acc) = dotFree acc.
Proof.
  revert n acc. induction width as [|w IH]; intros n acc; simpl; [reflexivity|].
  rewrite IH. simpl. by rewrite (proj2 (digitChar_props n)).
Qed.

Lemma dotFree_isoYear (y : Z) : dotFree (isoYear y) = true.
Proof.
  unfold isoYear. destruct (_ && _).
  - by rewrite dotFree_decimal.
  - destruct (y <? 0); cbn [dotFree]; by rewrite dotFree_decimal.
Qed.

Lemma dotFree_isoSeconds (t : Z) : dotFree (isoSeconds t) = true.
Proof.
  unfold isoSeconds. destruct (civilFromDays _) as [[y m] d].
  rewrite !dotFree_app, !dotFree_decimal, dotFree_isoYear. reflexivity.
Qed.

Lemma replaceMillisZ_dotFree (s1 s2 : string) :
  dotFree s1 = true -> replaceMillisZ (s1 +:+ s2) = s1 +:+ replaceMillisZ s2.
Proof.
  induction s1 as [|c s1 IH]; simpl; [reflexivity|].
  intros [Hc Hs1]%andb_true_iff. apply negb_true_iff in Hc.
  rewrite Hc. simpl. by rewrite IH.
Qed.

(** The replacement removes the millisecond digits, whatever they are. *)
Lemma replaceMillisZ_iso (t : Z) :
  replaceMillisZ (isoOfTimeValue t) = isoSeconds t +:+ "Z".
Proof.
  unfold isoOfTimeValue.
  rewrite replaceMillisZ_dotFree by apply dotFree_isoSeconds.
  f_equal. unfold isoMillis. cbn [decimal].
  assert (forall a b c, isDigit a = true -> isDigit b = true -> isDigit c = true ->
            replaceMillisZ ("." +:+ String a (String b (String c EmptyString)) +:+ "Z")
            = "Z") as Hdigits.
  { intros a b c Ha Hb Hc. simpl. rewrite Ha, Hb, Hc. reflexivity. }
  apply Hdigits; apply digitChar_props.
Qed.

Section DateFacts.
Context {rt : Runtime}.

Lemma formatUtcIso_valid (t : Z) :
  formatUtcIso (ValidDate t) = Returns (isoSeconds t +:+ "Z").
Proof. unfold formatUtcIso. simpl. by rewrite replaceMillisZ_iso. Qed.

Lemma timeClip_valid (t : Z) :
  Z.abs t <= 8640000000000000 -> timeClip t = ValidDate t.
Proof. intros Ht. unfold timeClip. by rewrite (proj2 (Z.leb_le _ _) Ht). Qed.

Lemma dateParse_range (s : string) (t : Z) :
  dateParse s = Some t -> Z.abs t <= 8640000000000000.
Proof.
  unfold dateParse.
  destruct (match isoDateTime s with Some _ => _ | None => _ end) as [t'|]; [|done].
  destruct (Z.leb_spec (Z.abs t') 8640000000000000); [|done].
  by intros [= <-].
Qed.

(** Every return site of [parseFlexibleDate] hands out a valid date. *)
Lemma parseFlexibleDate_valid (value : string) (d : jsDate) :
  parseFlexibleDate value = Some d -> exists t, d = ValidDate t.
Proof.
  unfold parseFlexibleDate.
  destruct (isoMatch value ≫= dateOfGroups) as [d'|] eqn:Hpattern.
  - intros [= <-]. destruct (isoMatch value) as [g|]; [|done]. simpl in Hpattern.
    unfold dateOfGroups in Hpattern. cbv zeta in Hpattern.
    destruct (truthy (zone g));
      match type of Hpattern with
      | (if isValidDate ?x then _ else _) = _ => destruct x as [t|]
      end; simpl in Hpattern; try discriminate;
      injection Hpattern as <-; by eexists.
  - destruct (dateParse value) as [ts|] eqn:Hparse; [|done].
    intros [= <-]. exists ts. unfold newDateOfNumber.
    apply timeClip_valid. by eapply dateParse_range.
Qed.

(** [normalizeDate] always returns: the invalid date never reaches
    [toISOString]. *)
Lemma normalizeDate_cases (value : option string) :
  (normalizeDate value = Returns EmptyString
   /\ (normalizeText value = EmptyString
       \/ parseFlexibleDate (normalizeText value) = None))
  \/ (exists t,
        normalizeText value <> EmptyString
        /\ parseFlexibleDate (normalizeText value) = Some (ValidDate t)
        /\ normalizeDate value = Returns (isoSeconds t +:+ "Z")).
Proof.
  unfold normalizeDate.
  destruct (normalizeText value) as [|c text] eqn:Htext; simpl.
  { left. split; [done|by left]. }
  destruct (parseFlexibleDate (String c text)) as [d|] eqn:Hparse.
  - right. destruct (parseFlexibleDate_valid _ _ Hparse) as (t & ->).
    exists t. split; [done|]. split; [done|]. apply formatUtcIso_valid.
  - left. split; [done|by right].
Qed.

(** C2 (as amended).  When the raw value parses, to the time value [t], the
    normalised date is [t] in UTC as [YYYY-MM-DDTHH:mm:ssZ]: the string
    [toISOString] gives for [t] with its millisecond component removed,
    whether the milliseconds are zero or not. *)
Theorem normalizeDate_second_precision (value : option string) (t : Z) :
  normalizeText value <> EmptyString ->
  parseFlexibleDate (normalizeText value) = Some (ValidDate t) ->
  toISOString (ValidDate t)
    = Returns (isoSeconds t +:+ "." +:+ isoMillis t +:+ "Z")
  /\ normalizeDate value = Returns (isoSeconds t +:+ "Z").
Proof.
  intros Htext Hparse. split; [reflexivity|].
  destruct (normalizeDate_cases value) as [[_ [Hempty|Hnone]]|(t' & _ & Hparse' & ->)];
    [done|congruence|].
  rewrite Hparse in Hparse'. by injection Hparse' as <-.
Qed.

End DateFacts.

Lemma normalizeDate_second_precision_witness :
  @normalizeDate exampleRuntime (Some "2024-01-02 03:04:05.678+05:30")
  = Returns "2024-01-01T21:34:05Z".
Proof.
  refine (proj2 (@normalizeDate_second_precision exampleRuntime
                   (Some "2024-01-02 03:04:05.678+05:30") 1704144845678 _ _)).
  - discriminate.
  - reflexivity.
Defined.

(** C2 (as stated) fails: a value carrying [.123] parses, to a time value
    with 123 milliseconds, and the normalised date has no millisecond
    component. *)
Lemma normalizeDate_drops_milliseconds :
  @parseFlexibleDate exampleRuntime "2024-01-02T03:04:05.123Z"
    = Some (ValidDate 1704164645123)
  /\ toISOString (ValidDate 1704164645123) = Returns "2024-01-02T03:04:05.123Z"
  /\ @normalizeDate exampleRuntime (Some "2024-01-02T03:04:05.123Z")
     = Returns "2024-01-02T03:04:05Z".
Proof. repeat split; reflexivity. Qed.

(** ** Per-row hashing always returns *)

Section HasherFacts.
Context {rt : Runtime}.

Lemma normalizeDate_returns (value : option string) :
  exists s, normalizeDate value = Returns s.
Proof.
  destruct (normalizeDate_cases value) as [[-> _]|(t & _ & _ & ->)]; by eexists.
Qed.

Lemma normalizeField_returns (canonicalName : string) (rawValue : option string) :
  normalizeField canonicalName rawValue
  = Returns (fieldValue canonicalName rawValue).
Proof.
  unfold fieldValue, normalizeField. case_bool_decide; [|reflexivity].
  destruct (normalizeDate_returns rawValue) as (s & ->). reflexivity.
Qed.

Lemma normalizeEntryFrom_returns (entry : gmap string string)
    (fields : list activeField) (normalized : gmap string string) :
  normalizeEntryFrom entry fields normalized
  = Returns (normalizedOf entry fields normalized).
Proof.
  revert normalized. induction fields as [|f fields IH]; intros normalized; simpl.
  - reflexivity.
  - rewrite normalizeField_returns. simpl. apply IH.
Qed.

Lemma normalizeEntry_returns (entry : gmap string string)
    (selectedFields : list activeField) :
  normalizeEntry entry selectedFields
  = Returns (normalizedOf entry selectedFields ∅).
Proof. apply normalizeEntryFrom_returns. Qed.

Lemma canonicalObjectFrom_returns (entry : gmap string string)
    (fields : list activeField) (object : list (string * string)) :
  canonicalObjectFrom entry fields object
  = Returns (canonicalObjectOf entry fields object).
Proof.
  revert object. induction fields as [|f fields IH]; intros object; simpl.
  - reflexivity.
  - destruct (truthy (headerName f)); [|apply IH].
    rewrite normalizeField_returns. simpl. apply IH.
Qed.

Lemma canonicalizeEntry_returns (entry : gmap string string)
    (selectedFields : list activeField) :
  canonicalizeEntry entry selectedFields
  = Returns (canonicalJsonOf entry selectedFields).
Proof.
  unfold canonicalizeEntry. by rewrite canonicalObjectFrom_returns.
Qed.

Lemma hashEntry_returns (selectedFields : list activeField)
    (titleField : option activeField) (entry : gmap string string) :
  hashEntry selectedFields titleField entry
  = Returns (recordOf selectedFields titleField entry).
Proof.
  unfold hashEntry. rewrite normalizeEntry_returns. simpl.
  by rewrite canonicalizeEntry_returns.
Qed.

Lemma forEachC_returns {A B} (f : A -> completion B) (g : A -> B) (xs : list A) :
  (forall x, f x = Returns (g x)) -> forEachC f xs = Returns (map g xs).
Proof.
  intros Hf. induction xs as [|x xs IH]; simpl; [reflexivity|].
  by rewrite Hf, IH.
Qed.

(** The value a normalised row holds for a canonical name that every
    selected field of that name agrees on. *)
Lemma normalizedOf_lookup (entry : gmap string string) (fields : list activeField)
    (normalized : gmap string string) (name value : string) :
  (forall f, f ∈ fields -> fieldCanonical f = name ->
             fieldValue name (rawValueOf entry f) = value) ->
  normalized !! name = Some value
  \/ (exists f, f ∈ fields /\ fieldCanonical f = name) ->
  normalizedOf entry fields normalized !! name = Some value.
Proof.
  revert normalized. induction fields as [|f fields IH]; intros normalized Hall Hsome.
  - destruct Hsome as [Hsome|(f & Hf & _)]; [done|]. by apply elem_of_nil in Hf.
  - simpl. apply IH.
    + intros g Hg. apply Hall. by right.
    + destruct (decide (fieldCanonical f = name)) as [Hname|Hname].
      * left. rewrite Hname, lookup_insert_eq. f_equal. apply Hall; [left|done].
      * rewrite lookup_insert_ne by done.
        destruct Hsome as [Hsome|(g & Hg & Hgname)]; [by left|right].
        apply elem_of_cons in Hg as [->|Hg]; [done|]. by exists g.
Qed.

(** C8.  The date normaliser returns on every raw value, and returns the
    empty string on an absent value, on a value that normalises to the empty
    text and on a text that does not parse; hashing a row returns for every
    row; and where the last-modified field is selected and its date is of
    that kind, the normalised row holds the empty string for it, which is
    one of the parts joined into the input of the identity hash. *)
Theorem bad_date_never_aborts (value : option string)
    (selectedFields : list activeField) (titleField : option activeField)
    (entry : gmap string string) :
  (exists s, normalizeDate value = Returns s)
  /\ (value = None \/ normalizeText value = EmptyString
      \/ parseFlexibleDate (normalizeText value) = None ->
      normalizeDate value = Returns EmptyString)
  /\ (exists record, hashEntry selectedFields titleField entry = Returns record)
  /\ ((exists f, f ∈ selectedFields /\ fieldCanonical f = "last modified") ->
      (forall f, f ∈ selectedFields -> fieldCanonical f = "last modified" ->
                 rawValueOf entry f = value) ->
      (value = None \/ normalizeText value = EmptyString
       \/ parseFlexibleDate (normalizeText value) = None) ->
      exists normalized,
        normalizeEntry entry selectedFields = Returns normalized
        /\ normalized !! "last modified" = Some EmptyString
        /\ "last modified"
             ∈ filter (fun field => field ∈ map fieldCanonical selectedFields) HASH_FIELDS
        /\ buildHashInput normalized (map fieldCanonical selectedFields)
           = join "|"
               (map (fun field => default EmptyString (normalized !! field))
                    (filter (fun field => field ∈ map fieldCanonical selectedFields)
                            HASH_FIELDS))).
Proof.
  assert (value = None \/ normalizeText value = EmptyString
          \/ parseFlexibleDate (normalizeText value) = None ->
          normalizeDate value = Returns EmptyString) as Hbad.
  { intros Hcase.
    assert (normalizeText value = EmptyString
            \/ parseFlexibleDate (normalizeText value) = None) as [Hempty|Hnone].
    { destruct Hcase as [->|[?|?]]; [by left|by left|by right]. }
    - unfold normalizeDate. by rewrite Hempty.
    - destruct (normalizeDate_cases value) as [[-> _]|(t & _ & Hsome & _)];
        [done|congruence]. }
  split; [apply normalizeDate_returns|]. split; [exact Hbad|].
  split; [eexists; apply hashEntry_returns|].
  intros (f & Hf & Hname) Hraw Hcase.
  exists (normalizedOf entry selectedFields ∅).
  split; [apply normalizeEntry_returns|]. split; [|split].
  - apply normalizedOf_lookup; [|right; by exists f].
    intros g Hg Hgname. rewrite (Hraw g Hg Hgname).
    unfold fieldValue, normalizeField. rewrite bool_decide_eq_true_2 by done.
    by rewrite (Hbad Hcase).
  - apply list_elem_of_filter. split.
    + rewrite <- Hname. apply list_elem_of_fmap. by exists f.
    + unfold HASH_FIELDS. simpl. do 3 right. left.
  - apply buildHashInput_unfold.
Qed.

End HasherFacts.

Lemma bad_date_never_aborts_witness :
  exists normalized,
    @normalizeEntry exampleRuntime
      {[ "Title" := "Mail"; "Last Modified" := "not a date" ]}
      [ActiveField (FieldConfig "Title" "title") (Some "Title");
       ActiveField (FieldConfig "Last Modified" "last modified") (Some "Last Modified")]
    = Returns normalized
    /\ normalized !! "last modified" = Some EmptyString
    /\ buildHashInput normalized ["title"; "last modified"] = "Mail|".
Proof.
  destruct (@bad_date_never_aborts exampleRuntime (Some "not a date")
              [ActiveField (FieldConfig "Title" "title") (Some "Title");
               ActiveField (FieldConfig "Last Modified" "last modified")
                           (Some "Last Modified")]
              None {[ "Title" := "Mail"; "Last Modified" := "not a date" ]})
    as (_ & _ & _ & Hrow).
  destruct Hrow as (normalized & Hnorm & Hlookup & _ & _).
  - eexists. split; [do 1 right; left|reflexivity].
  - intros f Hf Hname.
    apply elem_of_cons in Hf as [->|Hf]; [discriminate Hname|].
    apply elem_of_cons in Hf as [->|Hf]; [reflexivity|].
    by apply elem_of_nil in Hf.
  - right. right. reflexivity.
  - exists normalized. split; [exact Hnorm|]. split; [exact Hlookup|].
    vm_compute in Hnorm. injection Hnorm as <-. reflexivity.
Defined.

(** ** JSON.stringify is injective *)

#[local] Arguments String.append !_ _ / : simpl nomatch.

Lemma string_app_assoc (a b c : string) : (a +:+ b) +:+ c = a +:+ (b +:+ c).
Proof. induction a as [|x a IH]; simpl; [reflexivity|]. by rewrite IH. Qed.

Lemma unescapeHead_escape (c : ascii) (rest : string) :
  unescapeHead (jsonEscapeChar c +:+ rest) = Some (c, rest).
Proof. destruct c as [[] [] [] [] [] [] [] []]; reflexivity. Qed.

Lemma jsonEscapeChar_inj (c1 c2 : ascii) (r1 r2 : string) :
  jsonEscapeChar c1 +:+ r1 = jsonEscapeChar c2 +:+ r2 -> c1 = c2 /\ r1 = r2.
Proof.
  intros Heq. apply (f_equal unescapeHead) in Heq.
  rewrite !unescapeHead_escape in Heq. by injection Heq.
Qed.

Lemma jsonEscapeChar_not_quote (c : ascii) (r1 r2 : string) :
  jsonEscapeChar c +:+ r1 <> String DQUOTE r2.
Proof.
  intros Heq. pose proof (f_equal unescapeHead Heq) as Hhead.
  rewrite unescapeHead_escape in Hhead. simpl in Hhead.
  injection Hhead as -> ->. discriminate Heq.
Qed.

Lemma jsonEscape_inj (v1 v2 r1 r2 : string) :
  jsonEscape v1 +:+ String DQUOTE r1 = jsonEscape v2 +:+ String DQUOTE r2 ->
  v1 = v2 /\ r1 = r2.
Proof.
  revert v2. induction v1 as [|c1 v1 IH]; intros [|c2 v2] Heq.
  - simpl in Heq. by injection Heq.
  - simpl in Heq. rewrite string_app_assoc in Heq.
    symmetry in Heq. by apply jsonEscapeChar_not_quote in Heq.
  - simpl in Heq. rewrite string_app_assoc in Heq.
    by apply jsonEscapeChar_not_quote in Heq.
  - simpl in Heq. rewrite !string_app_assoc in Heq.
    apply jsonEscapeChar_inj in Heq as [-> Heq].
    apply IH in Heq as [-> ->]. done.
Qed.

Lemma jsonQuote_inj (v1 v2 r1 r2 : string) :
  jsonQuote v1 +:+ r1 = jsonQuote v2 +:+ r2 -> v1 = v2 /\ r1 = r2.
Proof.
  unfold jsonQuote. simpl. rewrite !string_app_assoc. simpl.
  intros [= Heq]. by apply jsonEscape_inj.
Qed.

Lemma jsonMember_inj (k v1 v2 r1 r2 : string) :
  jsonMember (k, v1) +:+ r1 = jsonMember (k, v2) +:+ r2 -> v1 = v2 /\ r1 = r2.
Proof.
  unfold jsonMember. simpl fst. simpl snd. rewrite !string_app_assoc.
  intros Heq%(inj (String.append _)).
  simpl in Heq. inversion Heq as [Heq'].
  rewrite !string_app_assoc in Heq'. simpl in Heq'.
  by apply jsonEscape_inj.
Qed.

Lemma join_cons2 (sep p q : string) (rest : list string) :
  join sep (p :: q :: rest) = p +:+ sep +:+ join sep (q :: rest).
Proof. reflexivity. Qed.

(** Two objects with the same keys in the same order and the same JSON text
    have the same values. *)
Lemma join_members_inj {F : Type} (key value1 value2 : F -> string) (fs : list F)
    (r1 r2 : string) :
  join "," (map (fun f => jsonMember (key f, value1 f)) fs) +:+ String "}" r1
  = join "," (map (fun f => jsonMember (key f, value2 f)) fs) +:+ String "}" r2 ->
  forall f, f ∈ fs -> value1 f = value2 f.
Proof.
  revert r1 r2. induction fs as [|f fs IH]; intros r1 r2 Heq f' Hf'.
  { by apply elem_of_nil in Hf'. }
  destruct fs as [|g fs].
  - apply list_elem_of_singleton in Hf' as ->.
    simpl in Heq. by apply jsonMember_inj in Heq as [-> _].
  - rewrite !map_cons, !join_cons2 in Heq.
    rewrite !string_app_assoc in Heq.
    apply jsonMember_inj in Heq as [Hf Heq].
    apply elem_of_cons in Hf' as [->|Hf']; [done|].
    simpl in Heq. inversion Heq as [Heq'].
    by apply (IH _ _ Heq').
Qed.

Lemma jsonStringify_inj {F : Type} (key value1 value2 : F -> string) (fs : list F) :
  jsonStringify (map (fun f => (key f, value1 f)) fs)
  = jsonStringify (map (fun f => (key f, value2 f)) fs) ->
  forall f, f ∈ fs -> value1 f = value2 f.
Proof.
  unfold jsonStringify. rewrite !map_map. simpl. intros Heq.
  inversion Heq as [Heq'].
  by apply (join_members_inj key value1 value2 fs EmptyString EmptyString).
Qed.

(** ** The sort hash determines the identity hash *)

Section CanonicalFacts.
Context {rt : Runtime}.

Lemma setProperty_fresh (key value : string) (object : list (string * string)) :
  key ∉ map fst object -> setProperty key value object = object ++ [(key, value)].
Proof.
  induction object as [|[k v] object IH]; simpl; intros Hfresh; [reflexivity|].
  rewrite not_elem_of_cons in Hfresh. destruct Hfresh as [Hne Hfresh].
  rewrite bool_decide_eq_false_2 by congruence. by rewrite IH.
Qed.

(** With distinct canonical names, all bound to a header, the canonical
    object lists each field once, in the order of the fields. *)
Lemma canonicalObjectOf_distinct (entry : gmap string string)
    (fields : list activeField) (object : list (string * string)) :
  NoDup (map fst object ++ map fieldCanonical fields) ->
  Forall (fun f => truthy (headerName f) = true) fields ->
  canonicalObjectOf entry fields object
  = object ++ map (fun f => (fieldCanonical f,
                             fieldValue (fieldCanonical f) (rawValueOf entry f)))
                  fields.
Proof.
  revert object. induction fields as [|f fields IH]; intros object Hnodup Htruthy.
  { simpl. by rewrite app_nil_r. }
  apply Forall_cons in Htruthy as [Hf Htruthy].
  change (canonicalObjectOf entry (f :: fields) object)
    with (canonicalObjectOf entry fields
            (if truthy (headerName f) then
               setProperty (fieldCanonical f)
                 (fieldValue (fieldCanonical f) (rawValueOf entry f)) object
             else object)).
  rewrite Hf. simpl in Hnodup.
  rewrite setProperty_fresh.
  - rewrite IH; [by rewrite <- app_assoc| |done].
    rewrite map_app. simpl. by rewrite <- app_assoc.
  - apply NoDup_app in Hnodup as (_ & Hdisjoint & _).
    intros Hin. apply (Hdisjoint _ Hin). left.
Qed.

Lemma normalizedOf_ext (entry1 entry2 : gmap string string)
    (fields : list activeField) (normalized : gmap string string) :
  (forall f, f ∈ fields ->
             fieldValue (fieldCanonical f) (rawValueOf entry1 f)
             = fieldValue (fieldCanonical f) (rawValueOf entry2 f)) ->
  normalizedOf entry1 fields normalized = normalizedOf entry2 fields normalized.
Proof.
  revert normalized. induction fields as [|f fields IH]; intros normalized Hsame.
  { reflexivity. }
  simpl. rewrite (Hsame f) by left. apply IH. intros g Hg. apply Hsame. by right.
Qed.

(** Rows with the same canonical JSON have the same input of the identity
    hash. *)
Lemma canonicalJson_determines_hashInput (entry1 entry2 : gmap string string)
    (selectedFields : list activeField) :
  NoDup (map fieldCanonical selectedFields) ->
  Forall (fun f => truthy (headerName f) = true) selectedFields ->
  canonicalJsonOf entry1 selectedFields = canonicalJsonOf entry2 selectedFields ->
  normalizedOf entry1 selectedFields ∅ = normalizedOf entry2 selectedFields ∅.
Proof.
  intros Hnodup Htruthy Hjson. apply normalizedOf_ext.
  unfold canonicalJsonOf in Hjson.
  set (sorted := sortBy (compareKey fieldCanonical) selectedFields) in *.
  assert (sorted ≡ₚ selectedFields) as Hperm by apply sortBy_Permutation.
  rewrite !canonicalObjectOf_distinct in Hjson.
  - simpl in Hjson. intros f Hf. rewrite <- Hperm in Hf. revert f Hf.
    by apply (jsonStringify_inj fieldCanonical).
  - simpl. by rewrite Hperm.
  - by rewrite Hperm.
  - simpl. by rewrite Hperm.
  - by rewrite Hperm.
Qed.

(** The selection the panel computes has distinct canonical names, each
    bound to a header. *)
Lemma getSelectedFields_wellformed (headers : list string) (checked : string -> bool) :
  let selectedFields := getSelectedFields (buildActiveFields headers) checked in
  NoDup (map fieldCanonical selectedFields)
  /\ Forall (fun f => truthy (headerName f) = true) selectedFields.
Proof.
  cbv zeta. split.
  - apply (sublist_NoDup _ (map fieldCanonical (buildActiveFields headers))).
    + unfold buildActiveFields. rewrite map_map. simpl.
      apply (bool_decide_unpack _). by vm_compute.
    + apply (fmap_sublist fieldCanonical), sublist_filter.
  - apply Forall_forall. intros f Hf. unfold getSelectedFields in Hf.
    apply list_elem_of_filter in Hf as [Hf _].
    by apply andb_true_iff in Hf as [Hf _].
Qed.

End CanonicalFacts.

(** ** The root depends on the sequence of leaf hashes only *)

Section RootFacts.
Context {rt : Runtime}.





End RootFacts.

(** ** Order of the rows *)

Section RowOrder.
Context {rt : Runtime}.


End RowOrder.


(** ** Runs and the generation counter *)

Section RunFacts.
Context {rt : Runtime}.

Lemma isStale_spec (ctx : runContext) (p : panel) :
  isStale ctx p = true <-> runId ctx <> computationVersion p.
Proof.
  unfold isStale. destruct (Z.eqb_spec (runId ctx) (computationVersion p)); simpl;
    split; congruence.
Qed.

Lemma publish_version (hashes : list leaf) (treeData : option merkleData) (p : panel) :
  computationVersion (publish hashes treeData p) = computationVersion p.
Proof. by destruct treeData. Qed.

Lemma resetData_version (p : panel) :
  computationVersion (resetData p) = computationVersion p + 1.
Proof. reflexivity. Qed.

Lemma continueLoop_context (ctx : runContext) (hashes : list hashRecord)
    (entries : list (gmap string string)) (p : panel) (r : run) :
  continueLoop ctx hashes entries p = Some r -> contextOf r = ctx.
Proof.
  unfold continueLoop. destruct (isStale ctx p); [done|].
  destruct entries as [|entry rest].
  - by intros [= <-].
  - destruct (normalizeEntry _ _); [|done]. by intros [= <-].
Qed.

(** A resumed run that finds the counter changed returns at once: it leaves
    the panel as it is and does not continue. *)
Lemma resume_stale (r : run) (p : panel) :
  idOf r <> computationVersion p -> resume r p = (p, None).
Proof.
  intros Hstale%isStale_spec. unfold idOf in Hstale.
  destruct r as [ctx ? ? ? ?|ctx ? ? ? ? ?|ctx leafNodes]; simpl in Hstale |- *;
    rewrite ?Hstale; try reflexivity.
  by destruct (buildMerkleTree leafNodes).
Qed.

(** The only resumption that writes to the panel is the last one of a run
    that is still current: it publishes the leaves and the tree. *)
Lemma resume_cases (r : run) (p : panel) :
  (resume r p).1 = p
  \/ (idOf r = computationVersion p
      /\ exists leafNodes merkleData,
           r = AwaitTree (contextOf r) leafNodes
           /\ buildMerkleTree leafNodes = Returns merkleData
           /\ resume r p = (publish leafNodes merkleData p, None)).
Proof.
  destruct (decide (idOf r = computationVersion p)) as [Hcurrent|Hstale].
  2: { left. by rewrite resume_stale. }
  assert (isStale (contextOf r) p = false) as Hfresh.
  { apply not_true_is_false. by intros ?%isStale_spec. }
  destruct r as [ctx ? ? ? ?|ctx ? ? ? ? ?|ctx leafNodes]; simpl in Hfresh |- *;
    rewrite Hfresh.
  - left. by destruct (canonicalizeEntry _ _).
  - by left.
  - destruct (buildMerkleTree leafNodes) as [merkleData|] eqn:Htree; [|by left].
    right. split; [done|]. by exists leafNodes, merkleData.
Qed.

Lemma resume_version (r : run) (p : panel) :
  computationVersion (resume r p).1 = computationVersion p.
Proof.
  destruct (resume_cases r p) as [->|(_ & ? & ? & _ & _ & ->)]; [done|].
  apply publish_version.
Qed.

Lemma resume_context (r r' : run) (p : panel) :
  (resume r p).2 = Some r' -> contextOf r' = contextOf r.
Proof.
  destruct r as [ctx ? ? ? ?|ctx ? ? ? ? ?|ctx leafNodes]; simpl.
  - destruct (isStale ctx p); [done|].
    destruct (canonicalizeEntry _ _); [|done]. by intros [= <-].
  - destruct (isStale ctx p); [done|]. apply continueLoop_context.
  - destruct (buildMerkleTree leafNodes); [|done]. by destruct (isStale ctx p).
Qed.

Lemma updateResults_starts (p : panel) : startsRun p (updateResults p).
Proof.
  unfold updateResults, startsRun.
  destruct (parsedEntries p) as [|entry rest] eqn:Hentries.
  { simpl. split; [lia|done]. }
  destruct (getSelectedFields _ _) as [|f fs].
  { simpl. split; [lia|done]. }
  simpl. split; [lia|]. intros r Hr. split; [done|].
  unfold idOf. by rewrite (continueLoop_context _ _ _ _ _ Hr).
Qed.

Lemma startsRun_same_version (p q : panel) (started : panel * option run) :
  computationVersion p = computationVersion q ->
  startsRun q started -> startsRun p started.
Proof. unfold startsRun. by intros ->. Qed.

Lemma fileLoaded_starts (text : string) (p : panel) : startsRun p (fileLoaded text p).
Proof.
  unfold fileLoaded. destruct (Csv.headers _) as [|h hs].
  { split; [simpl; lia|done]. }
  destruct (parsedEntries _) as [|e es] eqn:Hentries.
  { split; [simpl; lia|done]. }
  eapply startsRun_same_version; [|apply updateResults_starts]. reflexivity.
Qed.

Lemma checkboxChanged_starts (name : string) (p : panel) :
  startsRun p (checkboxChanged name p).
Proof.
  unfold checkboxChanged.
  eapply startsRun_same_version; [|apply updateResults_starts]. reflexivity.
Qed.

Lemma spawn_wellNumbered (s : system) (started : panel * option run) :
  wellNumbered s -> startsRun (thePanel s) started ->
  wellNumbered (spawn (inFlight s) started).
Proof.
  intros [Hbound Hdistinct] [Hmono Hrun]. unfold wellNumbered, spawn. simpl.
  destruct started as [p' [r|]]; simpl in *.
  - destruct (Hrun r eq_refl) as [Hversion Hid]. split.
    + apply Forall_app. split.
      * eapply Forall_impl; [exact Hbound|]. simpl. intros; lia.
      * constructor; [lia|constructor].
    + rewrite map_app. simpl. apply NoDup_app. split; [done|]. split.
      * intros id Hin Hid'%list_elem_of_singleton. subst id.
        apply list_elem_of_fmap in Hin as (r0 & Hr0 & Hin).
        rewrite Forall_forall in Hbound. specialize (Hbound r0 Hin). lia.
      * apply NoDup_singleton.
  - rewrite app_nil_r. split; [|done].
    eapply Forall_impl; [exact Hbound|]. simpl. intros; lia.
Qed.

Lemma delete_lookup_distinct (ids : list Z) (i : nat) (id : Z) :
  NoDup ids -> ids !! i = Some id -> (id ∉ delete i ids) /\ NoDup (delete i ids).
Proof.
  intros Hnodup Hlook.
  rewrite <- (take_drop_middle ids i id Hlook) in Hnodup.
  rewrite delete_take_drop.
  apply NoDup_app in Hnodup as (Htake & Hdisjoint & Hcons).
  apply NoDup_cons in Hcons as [Hnotin Hdrop].
  split.
  - rewrite elem_of_app. intros [Hin|Hin]; [|done].
    apply (Hdisjoint _ Hin). left.
  - apply NoDup_app. split; [done|]. split; [|done].
    intros x Hx Hx'. apply (Hdisjoint _ Hx). by right.
Qed.

Lemma step_wellNumbered (s : system) (e : event) :
  wellNumbered s -> wellNumbered (step s e).
Proof.
  intros Hinv. destruct e as [text|name| |i]; simpl.
  - apply spawn_wellNumbered; [done|apply fileLoaded_starts].
  - apply spawn_wellNumbered; [done|apply checkboxChanged_starts].
  - destruct Hinv as [Hbound Hdistinct]. split; [|done]. simpl.
    eapply Forall_impl; [exact Hbound|]. simpl. intros; lia.
  - destruct (inFlight s !! i) as [r|] eqn:Hlook; [|done].
    destruct Hinv as [Hbound Hdistinct].
    pose proof (resume_version r (thePanel s)) as Hversion.
    pose proof (fun r' => resume_context r r' (thePanel s)) as Hcontext.
    destruct (resume r (thePanel s)) as [p' o]. simpl in Hversion.
    unfold wellNumbered, spawn. simpl. rewrite Hversion.
    assert (map idOf (inFlight s) !! i = Some (idOf r)) as Hid
      by (by rewrite list_lookup_fmap, Hlook).
    destruct (delete_lookup_distinct _ _ _ Hdistinct Hid) as [Hnotin Hrest].
    split.
    + apply Forall_app. split.
      * by apply Forall_delete.
      * destruct o as [r'|]; simpl; [|constructor].
        constructor; [|constructor]. unfold idOf.
        rewrite (Hcontext _ eq_refl).
        rewrite Forall_forall in Hbound. apply Hbound.
        eapply list_elem_of_lookup_2. exact Hlook.
    + rewrite map_app.
      change (map idOf (delete i (inFlight s))) with (idOf <$> delete i (inFlight s)).
      rewrite list_fmap_delete.
      destruct o as [r'|]; simpl; [|by rewrite app_nil_r].
      apply NoDup_app. split; [done|]. split; [|apply NoDup_singleton].
      intros id Hin Hid'%list_elem_of_singleton. subst id.
      unfold idOf in Hin at 1. rewrite (Hcontext _ eq_refl) in Hin. done.
Qed.

Lemma runEvents_wellNumbered (events : list event) :
  wellNumbered (runEvents initialSystem events).
Proof.
  induction events as [|e events IH] using rev_ind.
  - split; constructor.
  - unfold runEvents. rewrite fold_left_app. simpl. by apply step_wellNumbered.
Qed.

Lemma step_version (s : system) (e : event) :
  computationVersion (thePanel s) <= computationVersion (thePanel (step s e)).
Proof.
  destruct e as [text|name| |i]; simpl.
  - apply fileLoaded_starts.
  - apply checkboxChanged_starts.
  - lia.
  - destruct (inFlight s !! i) as [r|]; [|lia]. simpl.
    rewrite resume_version. lia.
Qed.

(** The counter only increments. *)
Lemma runEvents_version (s : system) (events : list event) :
  computationVersion (thePanel s)
  <= computationVersion (thePanel (runEvents s events)).
Proof.
  revert s. induction events as [|e events IH]; intros s; simpl; [lia|].
  etrans; [apply (step_version s e)|apply IH].
Qed.

(** C9.  In every state a panel can reach, with runs starting, being
    superseded and resuming in any order:
    - starting a run increments the counter and gives the run the new value
      as its identifier, so suspended runs have distinct identifiers, none
      above the counter;
    - a run that resumes and finds the counter different from its identifier
      ends without changing the panel;
    - a resumption changes the panel only by publishing the leaves and the
      tree, and only for the run whose identifier equals the counter, at its
      last suspension point;
    - the counter never decreases, so a superseded run stays superseded. *)
Theorem stale_run_never_publishes (events : list event) (i : nat) (r : run) :
  let s := runEvents initialSystem events in
  inFlight s !! i = Some r ->
  let s' := step s (PromiseResolved i) in
  (forall p, startsRun p (updateResults p))
  /\ idOf r <= computationVersion (thePanel s)
  /\ (forall j r', inFlight s !! j = Some r' -> idOf r' = idOf r -> j = i)
  /\ (idOf r <> computationVersion (thePanel s) ->
      thePanel s' = thePanel s /\ inFlight s' = delete i (inFlight s))
  /\ (thePanel s' <> thePanel s ->
      idOf r = computationVersion (thePanel s)
      /\ exists leafNodes merkleData,
           r = AwaitTree (contextOf r) leafNodes
           /\ buildMerkleTree leafNodes = Returns merkleData
           /\ thePanel s' = publish leafNodes merkleData (thePanel s)
           /\ inFlight s' = delete i (inFlight s))
  /\ (forall later,
        computationVersion (thePanel s)
        <= computationVersion (thePanel (runEvents s later))).
Proof.
  intros s Hlook s'.
  destruct (runEvents_wellNumbered events) as [Hbound Hdistinct]. fold s in Hbound, Hdistinct.
  split; [apply updateResults_starts|]. split; [|split; [|split; [|split]]].
  - rewrite Forall_forall in Hbound. apply Hbound.
    eapply list_elem_of_lookup_2. exact Hlook.
  - intros j r' Hlook' Hid.
    apply (NoDup_lookup (map idOf (inFlight s)) j i (idOf r)); [done| |].
    + change (map idOf (inFlight s)) with (idOf <$> inFlight s).
      rewrite list_lookup_fmap, Hlook'. simpl. by rewrite Hid.
    + change (map idOf (inFlight s)) with (idOf <$> inFlight s).
      by rewrite list_lookup_fmap, Hlook.
  - intros Hstale. unfold s'. simpl. rewrite Hlook.
    rewrite (resume_stale _ _ Hstale). unfold spawn. simpl.
    by rewrite app_nil_r.
  - unfold s'. simpl. rewrite Hlook. unfold spawn. simpl. intros Hchanged.
    destruct (resume_cases r (thePanel s))
      as [Hsame|(Hcurrent & leafNodes & merkleData & Hr & Htree & Hresume)]; [done|].
    split; [done|]. exists leafNodes, merkleData.
    rewrite Hresume. simpl. by rewrite app_nil_r.
  - apply runEvents_version.
Qed.

End RunFacts.

Lemma stale_run_never_publishes_witness :
  let text := "title,password" +:+ String LF ("A,x" +:+ str1 LF) in
  let s := @runEvents exampleRuntime initialSystem
             [FileLoaded text; CheckboxChanged "password"] in
  length (inFlight s) = 2%nat
  /\ thePanel (@step exampleRuntime s (PromiseResolved 0)) = thePanel s.
Proof.
  intros text s. split; [reflexivity|].
  refine (proj1 (proj1 (proj2 (proj2 (proj2
            (@stale_run_never_publishes exampleRuntime
               [FileLoaded text; CheckboxChanged "password"] 0%nat _ eq_refl)))) _)).
  vm_compute. discriminate.
Defined.

(** ** A run that nothing supersedes publishes [computeTree] *)

Section AloneFacts.
Context {rt : Runtime}.

Lemma continueLoop_alone (ctx : runContext) (p : panel)
    (hashes : list hashRecord) (entries : list (gmap string string)) :
  runId ctx = computationVersion p ->
  let leafNodes :=
    sortedLeaves (hashes ++ map (recordOf (selectedFields ctx) (titleField ctx)) entries) in
  runAlone (2 * length entries + 1) (p, continueLoop ctx hashes entries p)
  = match buildMerkleTree leafNodes with
    | Returns merkleData => publish leafNodes merkleData p
    | Throws _ => p
    end.
Proof.
  intros Hcurrent.
  assert (isStale ctx p = false) as Hfresh.
  { apply not_true_is_false. by intros ?%isStale_spec. }
  revert hashes. induction entries as [|entry rest IH]; intros hashes; cbv zeta.
  - rewrite app_nil_r. unfold continueLoop. rewrite Hfresh. simpl.
    destruct (buildMerkleTree (sortedLeaves hashes)) as [merkleData|]; [|done].
    by rewrite Hfresh.
  - unfold continueLoop. rewrite Hfresh, normalizeEntry_returns.
    replace (2 * length (entry :: rest) + 1)%nat
      with (S (S (2 * length rest + 1))) by (simpl; lia).
    cbn [runAlone snd fst resume]. rewrite Hfresh, canonicalizeEntry_returns.
    cbn [runAlone snd fst resume]. rewrite Hfresh.
    rewrite IH. cbv zeta. rewrite <- app_assoc. reflexivity.
Qed.

(** Resumed until it ends, with nothing else happening to the panel, the
    computation started by [updateResults] leaves the panel with what
    [computeTree] returns published in it. *)
Lemma updateResults_alone (p : panel) (leafNodes : list leaf)
    (merkleData : option merkleData) :
  computeTree (activeFields p) (isChecked p) (parsedEntries p)
    = Returns (leafNodes, merkleData) ->
  runAlone (2 * length (parsedEntries p) + 1) (updateResults p)
  = publish leafNodes merkleData
      (match parsedEntries p with [] => p | _ :: _ => bumpVersion p end).
Proof.
  unfold computeTree, updateResults.
  destruct (parsedEntries p) as [|entry rest] eqn:Hentries.
  { by intros [= <- <-]. }
  destruct (getSelectedFields _ _) as [|f fs] eqn:Hselected.
  { by intros [= <- <-]. }
  rewrite (forEachC_returns _ (recordOf (f :: fs) (findTitleField (activeFields p))))
    by apply hashEntry_returns.
  cbn [bindC]. intros Htree.
  change (parsedEntries (bumpVersion p)) with (parsedEntries p). rewrite Hentries.
  rewrite continueLoop_alone by reflexivity. cbv zeta. simpl app.
  change (activeFields (bumpVersion p)) with (activeFields p).
  cbn [selectedFields titleField].
  destruct (buildMerkleTree _) as [tree|]; [|done].
  simpl in Htree. by injection Htree as <- <-.
Qed.

End AloneFacts.

(** ** Further checks of the specification's samples *)

(** One leaf: a single level holding that leaf, which is the root; no hash
    is combined. *)
Lemma single_leaf_tree {rt : Runtime} (l : leaf) :
  buildMerkleTree [l]
  = Returns (Some (MerkleData [[Node (leafHash l) (leafTitle l) false]] (leafHash l))).
Proof. reflexivity. Qed.

(** The assumption of [root_independent_of_row_order] cannot be dropped from
    a proof that takes the digest as a parameter.  Under a digest that sends
    every byte sequence starting with an opening brace, so every canonical
    JSON text, to one value and leaves the others as they are, all rows tie
    in the sort, the stable sort keeps the order of the input, and two
    orders of the same rows give different roots. *)
Lemma colliding_digest_order_matters :
  let collidingRuntime :=
    {| nfc := fun s => s; utcOfLocal := fun t => t; implParse := fun _ => None;
       digest := fun bytes => match bytes with
                              | 123%N :: _ => [0%N]
                              | _ => bytes
                              end |} in
  let activeFields := buildActiveFields ["Title"; "Password"] in
  let row1 : gmap string string := {[ "Title" := "Mail"; "Password" := "pw1" ]} in
  let row2 : gmap string string := {[ "Title" := "Bank"; "Password" := "pw2" ]} in
  match @computeTree collidingRuntime activeFields (fun _ => true) [row1; row2],
        @computeTree collidingRuntime activeFields (fun _ => true) [row2; row1] with
  | Returns (_, Some tree1), Returns (_, Some tree2) => root tree1 <> root tree2
  | _, _ => False
  end.
Proof. vm_compute. intros Hroot. discriminate Hroot. Qed.

(** * Further properties of the code *)

(** ** Bytes and hexadecimal *)

#[local] Arguments String.append !_ _ / : simpl nomatch.

Lemma truncatingDigest_shape (bytes : list N) :
  length (truncatingDigest bytes) = 32%nat /\ Forall isByte (truncatingDigest bytes).
Proof.
  unfold truncatingDigest. split.
  - rewrite length_take, length_app, length_replicate. lia.
  - apply Forall_take, Forall_app. split.
    + apply Forall_forall. intros b (b0 & -> & _)%list_elem_of_fmap.
      apply N.mod_lt. discriminate.
    + apply Forall_replicate. reflexivity.
Qed.

Lemma byteToHex_parse (c : ascii) :
  toUint8 (parseInt16 (byteToHex (N_of_ascii c))) = N_of_ascii c
  /\ allChars isLowerHex (byteToHex (N_of_ascii c)) = true.
Proof. destruct c as [[] [] [] [] [] [] [] []]; split; reflexivity. Qed.

Lemma byte_is_ascii (b : N) : isByte b -> exists c, b = N_of_ascii c.
Proof. intros Hb. exists (ascii_of_N b). symmetry. by apply N_ascii_embedding. Qed.

Lemma bytesToHex_length (bytes : list N) :
  String.length (bytesToHex bytes) = (2 * length bytes)%nat.
Proof.
  induction bytes as [|b bytes IH]; [reflexivity|].
  simpl. rewrite IH. lia.
Qed.

Lemma even_double (n : nat) : Nat.even (2 * n) = true.
Proof. rewrite Nat.even_mul. reflexivity. Qed.

Lemma hexPairs_bytesToHex (bytes : list N) :
  Forall isByte bytes -> hexPairs (bytesToHex bytes) = bytes.
Proof.
  induction 1 as [|b bytes Hb _ IH]; [reflexivity|].
  destruct (byte_is_ascii b Hb) as (c & ->).
  change (bytesToHex (N_of_ascii c :: bytes))
    with (String (hexDigit (N_of_ascii c / 16))
            (String (hexDigit (N_of_ascii c mod 16)) (bytesToHex bytes))).
  cbn [hexPairs]. rewrite IH. f_equal. apply byteToHex_parse.
Qed.

Lemma hexToBytes_bytesToHex_aux (bytes : list N) :
  Forall isByte bytes -> hexToBytes (bytesToHex bytes) = bytes.
Proof.
  intros Hbytes. unfold hexToBytes.
  destruct bytes as [|b bytes]; [reflexivity|].
  rewrite bytesToHex_length, even_double.
  change (isEmptyStr (bytesToHex (b :: bytes))) with false. cbv iota.
  by apply hexPairs_bytesToHex.
Qed.

(** X1.  Decoding the hexadecimal text of a byte sequence gives the bytes
    back. *)
Theorem hexToBytes_bytesToHex (bytes : list N) :
  Forall isByte bytes -> hexToBytes (bytesToHex bytes) = bytes.
Proof. apply hexToBytes_bytesToHex_aux. Qed.

Lemma hexToBytes_bytesToHex_witness :
  hexToBytes (bytesToHex [0; 10; 171; 255]%N) = [0; 10; 171; 255]%N.
Proof.
  apply hexToBytes_bytesToHex.
  repeat constructor.
Defined.

Lemma allChars_app (p : ascii -> bool) (s1 s2 : string) :
  allChars p (s1 +:+ s2) = allChars p s1 && allChars p s2.
Proof.
  induction s1 as [|c s1 IH]; [reflexivity|].
  simpl. rewrite IH. by rewrite andb_assoc.
Qed.

Lemma bytesToHex_lowerHex (bytes : list N) :
  Forall isByte bytes -> allChars isLowerHex (bytesToHex bytes) = true.
Proof.
  induction 1 as [|b bytes Hb _ IH]; [reflexivity|].
  destruct (byte_is_ascii b Hb) as (c & ->).
  change (bytesToHex (N_of_ascii c :: bytes))
    with (byteToHex (N_of_ascii c) +:+ bytesToHex bytes).
  rewrite allChars_app, IH, (proj2 (byteToHex_parse c)). reflexivity.
Qed.

Section HexFacts.
Context {rt : Runtime}.

(** X2.  When the digest gives 32 bytes, as SHA-256 does, [sha256Hex] gives
    64 characters, each a digit of lower-case hexadecimal; in particular a
    hash is never the empty string that the diff skips. *)
Theorem sha256Hex_shape (text : string) :
  (forall bytes, length (digest bytes) = 32%nat /\ Forall isByte (digest bytes)) ->
  String.length (sha256Hex text) = 64%nat
  /\ allChars isLowerHex (sha256Hex text) = true
  /\ sha256Hex text <> EmptyString.
Proof.
  intros Hdigest. destruct (Hdigest (encodeUtf8 text)) as [Hlen Hbytes].
  unfold sha256Hex.
  assert (String.length (bytesToHex (digest (encodeUtf8 text))) = 64%nat) as Hlength
    by (by rewrite bytesToHex_length, Hlen).
  split; [done|]. split; [by apply bytesToHex_lowerHex|].
  intros Hempty. by rewrite Hempty in Hlength.
Qed.

(** X3.  The hash of a parent is the hexadecimal text of the digest of the
    digest of its children's digests, one after the other: the hexadecimal
    texts of the children are decoded, not hashed as text. *)
Theorem doubleSha256Hex_of_digests (leftText rightText : string) :
  (forall bytes, Forall isByte (digest bytes)) ->
  doubleSha256Hex (sha256Hex leftText) (sha256Hex rightText)
  = bytesToHex (digest (digest (digest (encodeUtf8 leftText)
                                ++ digest (encodeUtf8 rightText)))).
Proof.
  intros Hdigest. unfold doubleSha256Hex, sha256Hex.
  by rewrite !hexToBytes_bytesToHex_aux.
Qed.

End HexFacts.

Lemma sha256Hex_shape_witness :
  String.length (@sha256Hex shapedRuntime "Mail|pw") = 64%nat.
Proof.
  refine (proj1 (@sha256Hex_shape shapedRuntime "Mail|pw" _)).
  apply truncatingDigest_shape.
Defined.

Lemma doubleSha256Hex_of_digests_witness :
  @doubleSha256Hex shapedRuntime (@sha256Hex shapedRuntime "a")
                   (@sha256Hex shapedRuntime "b")
  = bytesToHex (truncatingDigest (truncatingDigest
                  (truncatingDigest [97%N] ++ truncatingDigest [98%N]))).
Proof.
  apply (@doubleSha256Hex_of_digests shapedRuntime "a" "b").
  intros bytes. apply truncatingDigest_shape.
Defined.

#[local] Arguments String.append !_ _ / : simpl nomatch.

Lemma toUint8_byte (v : option Z) : isByte (toUint8 v).
Proof.
  unfold isByte, toUint8. destruct v as [z|]; [|reflexivity].
  pose proof (Z.mod_pos_bound z 256 ltac:(lia)). lia.
Qed.

Lemma hexPairs_bounds (s : string) :
  (length (hexPairs s) = Nat.div2 (S (String.length s)) /\ Forall isByte (hexPairs s))
  /\ forall a,
       length (hexPairs (String a s)) = Nat.div2 (S (String.length (String a s)))
       /\ Forall isByte (hexPairs (String a s)).
Proof.
  induction s as [|b s [[IHlen IHbytes] IHcons]].
  - split; [by split|]. intros a. split; [reflexivity|].
    repeat constructor. apply toUint8_byte.
  - split; [apply IHcons|]. intros a. cbn [hexPairs String.length]. split.
    + simpl. by rewrite IHlen.
    + constructor; [apply toUint8_byte|done].
Qed.

(** X4.  [hexToBytes] accepts every string: it gives one byte for each pair
    of characters, a string of odd length counting as completed by a leading
    zero, and every element it gives is a byte, also where a pair of
    characters is no hexadecimal number. *)
Theorem hexToBytes_bounds (hex : string) :
  length (hexToBytes hex) = Nat.div2 (S (String.length hex))
  /\ Forall isByte (hexToBytes hex).
Proof.
  unfold hexToBytes. destruct hex as [|c hex]; [by split|].
  cbn [isEmptyStr]. destruct (Nat.even (String.length (String c hex))) eqn:Heven.
  - apply hexPairs_bounds.
  - destruct (proj1 (hexPairs_bounds (String "0" (String c hex)))) as [Hlen Hbytes].
    split; [|done]. rewrite Hlen.
    assert (Nat.odd (String.length (String c hex)) = true) as Hodd
      by (by rewrite <- Nat.negb_even, Heven).
    apply Nat.odd_spec in Hodd as [k Hk].
    change (String.length (String "0" (String c hex)))
      with (S (String.length (String c hex))).
    rewrite Hk.
    replace (S (S (2 * k + 1))) with (2 * (S k) + 1)%nat by lia.
    replace (S (2 * k + 1)) with (2 * (S k))%nat by lia.
    rewrite Nat.add_1_r, Nat.div2_succ_double, Nat.div2_double. reflexivity.
Qed.

(** ** The shape of the tree *)

Section TreeShape.
Context {rt : Runtime}.

Lemma buildLevels_chain (fuel : nat) (currentLevel : list node)
    (recorded : list (list node)) (data : merkleData) :
  buildLevels fuel currentLevel recorded = Returns data ->
  exists built,
    levels data = recorded ++ built
    /\ levelsFrom currentLevel built
    /\ exists rootNode, last built = Some [rootNode] /\ root data = hash rootNode.
Proof.
  revert currentLevel recorded.
  induction fuel as [|fuel IH]; intros currentLevel recorded Hbuild; [done|].
  simpl in Hbuild.
  destruct (padLevel currentLevel) as [|a [|b rest]] eqn:Hpad.
  - simpl in Hbuild.
    destruct (IH _ _ Hbuild) as (built & Hlevels & Hchain & rootNode & Hlast & Hroot).
    exists ([] :: built). rewrite Hlevels, <- app_assoc. split; [done|]. split.
    + simpl. rewrite Hpad. split; [done|].
      destruct built as [|l built]; [done|]. by exists [].
    + exists rootNode. split; [|done]. by destruct built.
  - injection Hbuild as <-. exists [[a]]. simpl. rewrite Hpad.
    split; [done|]. split; [done|]. by exists a.
  - destruct (combinePairs (a :: b :: rest)) as [nextLevel|] eqn:Hpairs; [|done].
    simpl in Hbuild.
    destruct (IH _ _ Hbuild) as (built & Hlevels & Hchain & rootNode & Hlast & Hroot).
    exists ((a :: b :: rest) :: built). rewrite Hlevels, <- app_assoc.
    split; [done|]. split.
    + simpl. rewrite Hpad. split; [done|].
      destruct built as [|l built]; [done|]. by exists nextLevel.
    + exists rootNode. split; [|done]. by destruct built.
Qed.

Lemma buildMerkleTree_chain (leaves : list leaf) (data : merkleData) :
  buildMerkleTree leaves = Returns (Some data) ->
  levelsFrom (map (fun l => Node (leafHash l) (leafTitle l) false) leaves) (levels data)
  /\ exists rootNode, last (levels data) = Some [rootNode] /\ root data = hash rootNode.
Proof.
  unfold buildMerkleTree. destruct leaves as [|l leaves]; [done|].
  destruct (buildLevels _ _ _) as [data'|] eqn:Hbuild; [|done].
  intros [= <-].
  by destruct (buildLevels_chain _ _ _ _ Hbuild) as (built & -> & Hchain & Hroot).
Qed.

Lemma combinePairs_Returns (workingLevel nextLevel : list node) :
  combinePairs workingLevel = Returns nextLevel ->
  length workingLevel = (2 * length nextLevel)%nat
  /\ forall j parent, nextLevel !! j = Some parent ->
       exists leftNode rightNode,
         workingLevel !! (2 * j)%nat = Some leftNode
         /\ workingLevel !! (2 * j + 1)%nat = Some rightNode
         /\ parent = Node (doubleSha256Hex (hash leftNode) (hash rightNode)) None false.
Proof.
  revert nextLevel.
  induction workingLevel as [workingLevel IH] using (induction_ltof1 _ (@length _)).
  unfold ltof in IH. intros nextLevel Hpairs.
  destruct workingLevel as [|l [|r rest]]; simpl in Hpairs.
  - injection Hpairs as <-. split; [done|]. intros j parent Hj. done.
  - done.
  - destruct (combinePairs rest) as [next|] eqn:Hrest; [|done].
    injection Hpairs as <-.
    destruct (IH rest ltac:(simpl; lia) next Hrest) as [Hlen Hparents].
    split; [simpl; lia|]. intros [|j] parent Hj.
    + injection Hj as <-. by exists l, r.
    + destruct (Hparents j parent Hj) as (ln & rn & Hl & Hr & ->).
      exists ln, rn.
      replace (2 * S j)%nat with (S (S (2 * j))) by lia.
      replace (S (S (2 * j)) + 1)%nat with (S (S (2 * j + 1))) by lia.
      by split.
Qed.

Lemma levelsFrom_lookup (currentLevel : list node) (built : list (list node))
    (k : nat) (lower upper : list node) :
  levelsFrom currentLevel built ->
  built !! k = Some lower -> built !! S k = Some upper ->
  exists nextLevel,
    combinePairs lower = Returns nextLevel /\ upper = padLevel nextLevel
    /\ levelsFrom nextLevel (drop (S k) built).
Proof.
  revert currentLevel k. induction built as [|wl rest IH]; intros cur k Hchain Hlow Hup.
  { done. }
  destruct Hchain as [Hwl Hrest]. destruct rest as [|wl' rest']; [by destruct k|].
  destruct Hrest as (nextLevel & Hpairs & Hchain').
  destruct k as [|k].
  - injection Hlow as <-. injection Hup as <-.
    exists nextLevel. split; [done|]. split; [by destruct Hchain'|done].
  - by apply (IH nextLevel k).
Qed.

Lemma levelsFrom_nonempty (currentLevel : list node) (built : list (list node)) :
  levelsFrom currentLevel built -> currentLevel <> [].
Proof.
  revert currentLevel. induction built as [|wl rest IH]; intros cur Hchain; [done|].
  intros ->. destruct Hchain as [-> Hrest].
  destruct rest as [|wl' rest']; [done|].
  destruct Hrest as (nextLevel & [= <-] & Hchain'). by apply IH in Hchain'.
Qed.

(** The length of the level made of the pairs of a padded level. *)
Lemma padded_pairs_length (currentLevel nextLevel : list node) :
  currentLevel <> [] ->
  combinePairs (padLevel currentLevel) = Returns nextLevel ->
  (2 <= length currentLevel
   /\ (length currentLevel = 2 * length nextLevel
       \/ S (length currentLevel) = 2 * length nextLevel))%nat.
Proof.
  intros Hne Hpairs.
  apply combinePairs_Returns in Hpairs as [Hlen _].
  destruct (padLevel_cases currentLevel)
    as [[Heq _]|(front & lastNode & -> & Hfront & _ & Hpad)].
  - rewrite Heq in Hlen. destruct currentLevel as [|a [|b rest]]; [done| |].
    + simpl in Hlen. lia.
    + split; [simpl; lia|by left].
  - rewrite Hpad in Hlen. rewrite !length_app in *. simpl in *.
    destruct front; [done|]. simpl in *. split; [lia|]. right. lia.
Qed.

Lemma levelsFrom_height (currentLevel : list node) (built : list (list node)) :
  levelsFrom currentLevel built ->
  (length currentLevel <= 2 ^ (length built - 1)
   /\ (2 <= length built -> 2 ^ (length built - 2) < length currentLevel))%nat.
Proof.
  revert currentLevel. induction built as [|wl rest IH]; intros cur Hchain; [done|].
  pose proof (levelsFrom_nonempty _ _ Hchain) as Hne.
  destruct Hchain as [-> Hrest]. destruct rest as [|wl' rest'].
  - simpl. split; [|lia].
    destruct (padLevel_cases cur) as [[Heq _]|(front & lastNode & _ & _ & _ & Hpad)].
    + rewrite Heq in Hrest. lia.
    + rewrite Hpad, length_app in Hrest. simpl in Hrest. lia.
  - destruct Hrest as (nextLevel & Hpairs & Hchain').
    destruct (padded_pairs_length _ _ Hne Hpairs) as [Htwo Hhalf].
    destruct (IH _ Hchain') as [Hupper Hlower].
    change (length (padLevel cur :: wl' :: rest')) with (S (S (length rest'))).
    change (length (wl' :: rest')) with (S (length rest')) in Hupper, Hlower.
    replace (S (S (length rest')) - 1)%nat with (S (length rest')) by lia.
    replace (S (S (length rest')) - 2)%nat with (length rest') by lia.
    replace (S (length rest') - 1)%nat with (length rest') in Hupper by lia.
    rewrite Nat.pow_succ_r'. split; [lia|]. intros _.
    destruct (length rest') as [|h] eqn:Hh.
    + simpl. lia.
    + replace (S (S h) - 2)%nat with h in Hlower by lia.
      rewrite Nat.pow_succ_r'. specialize (Hlower ltac:(lia)). lia.
Qed.


(** X5.  In every tree the builder returns, a node of a level above the
    leaves that is no duplicate stands over two adjacent nodes of the level
    below, at twice its index, and its hash is [doubleSha256Hex] of their
    hashes, left before right; it has no title. *)
Theorem parent_combines_children (leaves : list leaf) (data : merkleData)
    (k j : nat) (lower upper : list node) (parent : node) :
  buildMerkleTree leaves = Returns (Some data) ->
  levels data !! k = Some lower ->
  levels data !! S k = Some upper ->
  upper !! j = Some parent ->
  isDuplicate parent = false ->
  exists leftNode rightNode,
    lower !! (2 * j)%nat = Some leftNode
    /\ lower !! (2 * j + 1)%nat = Some rightNode
    /\ hash parent = doubleSha256Hex (hash leftNode) (hash rightNode)
    /\ title parent = None.
Proof.
  intros Hbuild Hlower Hupper Hparent Hreal.
  destruct (buildMerkleTree_chain _ _ Hbuild) as [Hchain _].
  destruct (levelsFrom_lookup _ _ _ _ _ Hchain Hlower Hupper)
    as (nextLevel & Hpairs & -> & _).
  destruct (combinePairs_Returns _ _ Hpairs) as [_ Hparents].
  assert (nextLevel !! j = Some parent) as Hj.
  { destruct (padLevel_cases nextLevel)
      as [[Heq _]|(front & lastNode & Hnext & _ & _ & Hpad)].
    - by rewrite Heq in Hparent.
    - rewrite Hpad in Hparent. rewrite Hnext.
      destruct (decide (j < length front)%nat) as [Hlt|Hge].
      + rewrite lookup_app_l in Hparent |- * by done. done.
      + rewrite lookup_app_r in Hparent |- * by lia.
        destruct (j - length front)%nat as [|[|?]]; simpl in *; [done| |done].
        injection Hparent as <-. discriminate Hreal. }
  destruct (Hparents j parent Hj) as (l & r & Hl & Hr & ->).
  by exists l, r.
Qed.

(** X6.  The levels of a returned tree: the first is the leaves, in their
    order and each marked as real, padded; the last is the single root node,
    whose hash is the tree's [root]; every level before the last has an even
    number of nodes, at least two. *)
Theorem tree_levels_shape (leaves : list leaf) (data : merkleData) :
  buildMerkleTree leaves = Returns (Some data) ->
  levels data !! 0%nat
    = Some (padLevel (map (fun l => Node (leafHash l) (leafTitle l) false) leaves))
  /\ (exists rootNode, last (levels data) = Some [rootNode] /\ root data = hash rootNode)
  /\ forall k level,
       levels data !! k = Some level -> (S k < length (levels data))%nat ->
       Nat.even (length level) = true /\ (2 <= length level)%nat.
Proof.
  intros Hbuild. destruct (buildMerkleTree_chain _ _ Hbuild) as [Hchain Hroot].
  split; [|split; [done|]].
  - destruct (levels data) as [|wl rest]; [done|]. by destruct Hchain as [-> _].
  - intros k level Hlevel Hk.
    destruct (lookup_lt_is_Some_2 (levels data) (S k) Hk) as [upper Hupper].
    destruct (levelsFrom_lookup _ _ _ _ _ Hchain Hlevel Hupper)
      as (nextLevel & Hpairs & _ & Hrest).
    apply levelsFrom_nonempty in Hrest.
    apply combinePairs_Returns in Hpairs as [Hlen _].
    rewrite Hlen. split; [apply even_double|].
    destruct nextLevel; [done|simpl; lia].
Qed.

(** X7.  The height of a returned tree is logarithmic in the number of
    leaves: with [h] levels there are at most [2^(h-1)] leaves, and more
    than [2^(h-2)] when [h] is at least 2. *)
Theorem tree_height (leaves : list leaf) (data : merkleData) :
  buildMerkleTree leaves = Returns (Some data) ->
  (length leaves <= 2 ^ (length (levels data) - 1)
   /\ (2 <= length (levels data) ->
       2 ^ (length (levels data) - 2) < length leaves))%nat.
Proof.
  intros Hbuild. destruct (buildMerkleTree_chain _ _ Hbuild) as [Hchain _].
  apply levelsFrom_height in Hchain. by rewrite length_map in Hchain.
Qed.

(** X8.  [buildMerkleTree] returns on every list of leaves: the loop ends
    and never reads a missing right sibling; the result is [null] exactly
    for the empty list. *)
Theorem buildMerkleTree_total (leaves : list leaf) :
  exists result,
    buildMerkleTree leaves = Returns result
    /\ (result = None <-> leaves = []).
Proof.
  destruct (buildMerkleTree_returns leaves)
    as [[-> Hnull]|(upper & lastLevel & rootNode & Htree & _)].
  - by exists None.
  - cbv zeta in Htree. eexists. split; [exact Htree|].
    split; [done|]. intros ->. discriminate Htree.
Qed.

End TreeShape.

Lemma parent_combines_children_witness :
  exists leftNode rightNode,
    [Node "aa" (Some "A") false; Node "bb" (Some "B") false] !! 0%nat = Some leftNode
    /\ [Node "aa" (Some "A") false; Node "bb" (Some "B") false] !! 1%nat = Some rightNode
    /\ hash (Node "aabb" None false)
       = @doubleSha256Hex exampleRuntime (hash leftNode) (hash rightNode).
Proof.
  destruct (@parent_combines_children exampleRuntime
              [Leaf "aa" (Some "A"); Leaf "bb" (Some "B")] _ 0%nat 0%nat _ _
              (Node "aabb" None false) eq_refl eq_refl eq_refl eq_refl eq_refl)
    as (l & r & Hl & Hr & Hhash & _).
  by exists l, r.
Defined.

Lemma tree_levels_shape_witness :
  exists rootNode,
    last [[Node "aa" (Some "A") false; Node "bb" (Some "B") false];
          [Node "aabb" None false]] = Some [rootNode]
    /\ "aabb" = hash rootNode.
Proof.
  exact (proj1 (proj2 (@tree_levels_shape exampleRuntime
                         [Leaf "aa" (Some "A"); Leaf "bb" (Some "B")] _ eq_refl))).
Defined.

Lemma tree_height_witness :
  (3 <= 2 ^ (3 - 1) /\ (2 <= 3 -> 2 ^ (3 - 2) < 3))%nat.
Proof.
  exact (@tree_height exampleRuntime
           [Leaf "aa" None; Leaf "bb" None; Leaf "cc" None] _ eq_refl).
Defined.

(** ** Row hasher, continued *)

Lemma NoDup_fmap_elem {A B} (f : A -> B) (l : list A) (x y : A) :
  NoDup (map f l) -> x ∈ l -> y ∈ l -> f x = f y -> x = y.
Proof.
  induction l as [|a l IH]; simpl; intros Hnodup Hx Hy Hf.
  { by apply elem_of_nil in Hx. }
  apply NoDup_cons in Hnodup as [Hnotin Hnodup].
  apply elem_of_cons in Hx as [->|Hx]; apply elem_of_cons in Hy as [->|Hy].
  - done.
  - exfalso. apply Hnotin. rewrite Hf. apply list_elem_of_fmap. by exists y.
  - exfalso. apply Hnotin. rewrite <- Hf. apply list_elem_of_fmap. by exists x.
  - by apply IH.
Qed.

Lemma filter_ext_elem {A} (P Q : A -> Prop) `{!forall x, Decision (P x)}
    `{!forall x, Decision (Q x)} (l : list A) :
  (forall x, x ∈ l -> P x <-> Q x) -> filter P l = filter Q l.
Proof.
  induction l as [|a l IH]; intros Hext; [reflexivity|].
  rewrite !filter_cons.
  rewrite IH by (intros x Hx; apply Hext; by right).
  destruct (decide (P a)) as [Hp|Hp], (decide (Q a)) as [Hq|Hq]; try done;
    exfalso; apply (Hext a ltac:(left)) in Hp || apply (Hext a ltac:(left)) in Hq; done.
Qed.

Lemma filter_elem_of_sublist (l1 l2 : list string) :
  l1 `sublist_of` l2 -> NoDup l2 -> filter (fun x => x ∈ l1) l2 = l1.
Proof.
  induction 1 as [|x l1 l2 Hsub IH|x l1 l2 Hsub IH]; intros Hnodup.
  - reflexivity.
  - apply NoDup_cons in Hnodup as [Hnotin Hnodup].
    rewrite filter_cons_True by left. f_equal.
    transitivity (filter (fun y => y ∈ l1) l2); [|by apply IH].
    apply filter_ext_elem. intros y Hy.
    rewrite elem_of_cons. split; [|by right].
    intros [->|Hin]; [done|done].
  - apply NoDup_cons in Hnodup as [Hnotin Hnodup].
    rewrite filter_cons_False; [by apply IH|].
    intros Hin. apply Hnotin. by eapply sublist_subseteq.
Qed.

Section HashInputFacts.
Context {rt : Runtime}.

Lemma selected_names_sublist (headers : list string) (checked : string -> bool) :
  map fieldCanonical (getSelectedFields (buildActiveFields headers) checked)
  `sublist_of` HASH_FIELDS.
Proof.
  assert (HASH_FIELDS = map fieldCanonical (buildActiveFields headers)) as ->.
  { unfold buildActiveFields. by rewrite map_map. }
  apply (fmap_sublist fieldCanonical), sublist_filter.
Qed.

Lemma HASH_FIELDS_NoDup : NoDup HASH_FIELDS.
Proof. apply (bool_decide_unpack _). by vm_compute. Qed.

Lemma normalizedOf_selected (entry : gmap string string) (fields : list activeField)
    (f : activeField) :
  NoDup (map fieldCanonical fields) -> f ∈ fields ->
  normalizedOf entry fields ∅ !! fieldCanonical f
  = Some (fieldValue (fieldCanonical f) (rawValueOf entry f)).
Proof.
  intros Hnodup Hf. apply normalizedOf_lookup; [|right; by exists f].
  intros g Hg Hname.
  by rewrite (NoDup_fmap_elem fieldCanonical fields g f Hnodup Hg Hf Hname).
Qed.

(** X9.  For the selection the panel computes, the input of the identity
    hash of a row is the normalised values of the selected fields, joined
    with [|], one part for each selected field in the order of the
    configuration. *)
Theorem hashInput_of_selection (headers : list string) (checked : string -> bool)
    (entry : gmap string string) :
  let selected := getSelectedFields (buildActiveFields headers) checked in
  exists normalized,
    normalizeEntry entry selected = Returns normalized
    /\ buildHashInput normalized (map fieldCanonical selected)
       = join "|" (map (fun f => fieldValue (fieldCanonical f) (rawValueOf entry f))
                       selected).
Proof.
  intros selected. exists (normalizedOf entry selected ∅).
  split; [apply normalizeEntry_returns|].
  destruct (getSelectedFields_wellformed headers checked) as [Hnodup _].
  fold selected in Hnodup.
  rewrite buildHashInput_unfold.
  rewrite filter_elem_of_sublist
    by (apply selected_names_sublist || apply HASH_FIELDS_NoDup).
  fold selected. rewrite map_map. f_equal. apply map_ext_in.
  intros f Hf%list_elem_of_In. by rewrite normalizedOf_selected.
Qed.

Lemma canonicalObjectOf_ext (entry1 entry2 : gmap string string)
    (fields : list activeField) (object : list (string * string)) :
  (forall f, f ∈ fields ->
             fieldValue (fieldCanonical f) (rawValueOf entry1 f)
             = fieldValue (fieldCanonical f) (rawValueOf entry2 f)) ->
  canonicalObjectOf entry1 fields object = canonicalObjectOf entry2 fields object.
Proof.
  revert object. induction fields as [|f fields IH]; intros object Hsame.
  { reflexivity. }
  simpl. rewrite (Hsame f) by left. apply IH. intros g Hg. apply Hsame. by right.
Qed.

(** X10.  For the selection the panel computes, two rows have the same
    canonical JSON text, the input of the sort hash, exactly when they have
    the same normalised row, the source of the identity hash: rows tie in
    the sort only if they are the same to the hasher. *)
Theorem canonicalJson_iff_normalized (headers : list string)
    (checked : string -> bool) (entry1 entry2 : gmap string string) :
  let selected := getSelectedFields (buildActiveFields headers) checked in
  canonicalizeEntry entry1 selected = canonicalizeEntry entry2 selected
  <-> normalizeEntry entry1 selected = normalizeEntry entry2 selected.
Proof.
  intros selected.
  destruct (getSelectedFields_wellformed headers checked) as [Hnodup Htruthy].
  fold selected in Hnodup, Htruthy.
  rewrite !canonicalizeEntry_returns, !normalizeEntry_returns. split.
  - intros Hjson. f_equal.
    apply canonicalJson_determines_hashInput; [done..|]. congruence.
  - intros Hrow.
    assert (normalizedOf entry1 selected ∅ = normalizedOf entry2 selected ∅) as Hrow'
      by congruence.
    clear Hrow. rename Hrow' into Hrow.
    f_equal. unfold canonicalJsonOf. f_equal.
    apply canonicalObjectOf_ext. intros f Hf.
    rewrite (sortBy_Permutation (compareKey fieldCanonical)) in Hf.
    pose proof (normalizedOf_selected entry1 selected f Hnodup Hf) as H1.
    pose proof (normalizedOf_selected entry2 selected f Hnodup Hf) as H2.
    rewrite Hrow in H1. congruence.
Qed.

Lemma normalizedOf_Permutation (entry : gmap string string)
    (fields1 fields2 : list activeField) (normalized : gmap string string) :
  fields1 ≡ₚ fields2 -> NoDup (map fieldCanonical fields1) ->
  normalizedOf entry fields1 normalized = normalizedOf entry fields2 normalized.
Proof.
  intros Hperm. revert normalized.
  induction Hperm as [|f l1 l2 Hperm IH|f g l|l1 l2 l3 Hperm12 IH12 Hperm23 IH23];
    intros normalized Hnodup.
  - reflexivity.
  - simpl. apply IH. by apply NoDup_cons in Hnodup as [_ ?].
  - simpl. rewrite insert_insert_ne; [done|].
    simpl in Hnodup. apply NoDup_cons in Hnodup as [Hnotin _].
    intros Heq. apply Hnotin. rewrite Heq. left.
  - rewrite IH12 by done. apply IH23.
    by rewrite <- (Permutation_map fieldCanonical Hperm12).
Qed.

Lemma sortBy_key_Permutation (fields1 fields2 : list activeField) :
  fields1 ≡ₚ fields2 -> NoDup (map fieldCanonical fields1) ->
  sortBy (compareKey fieldCanonical) fields1 = sortBy (compareKey fieldCanonical) fields2.
Proof.
  intros Hperm Hnodup.
  apply (StronglySorted_unique_strong (notAfter (compareKey fieldCanonical))).
  - intros x y Hx Hy Hxy Hyx.
    rewrite (sortBy_Permutation (compareKey fieldCanonical)) in Hx, Hy.
    rewrite <- Hperm in Hy.
    unfold notAfter, compareKey in Hxy, Hyx. rewrite localeCompare_le in Hxy, Hyx.
    apply (NoDup_fmap_elem fieldCanonical fields1); [done..|].
    by apply (anti_symm String.le).
  - apply sortBy_StronglySorted; apply _.
  - apply sortBy_StronglySorted; apply _.
  - by rewrite !(sortBy_Permutation (compareKey fieldCanonical)).
Qed.

(** X11.  Both hashes of a row are independent of the order in which the
    selected fields are listed: for two orders of the same fields, with
    distinct canonical names, [hashEntry] gives the same record. *)
Theorem hashEntry_field_order (fields1 fields2 : list activeField)
    (title : option activeField) (entry : gmap string string) :
  fields1 ≡ₚ fields2 -> NoDup (map fieldCanonical fields1) ->
  hashEntry fields1 title entry = hashEntry fields2 title entry.
Proof.
  intros Hperm Hnodup. rewrite !hashEntry_returns. f_equal. unfold recordOf.
  f_equal.
  - f_equal. rewrite (normalizedOf_Permutation entry fields1 fields2) by done.
    unfold buildHashInput, setOfList.
    assert ((list_to_set (map fieldCanonical fields1) : gset string)
            = list_to_set (map fieldCanonical fields2)) as ->; [|done].
    apply list_to_set_perm_L. by apply Permutation_map.
  - f_equal. unfold canonicalJsonOf. by rewrite (sortBy_key_Permutation fields1 fields2).
Qed.

End HashInputFacts.

Lemma hashEntry_field_order_witness :
  @hashEntry exampleRuntime
    [ActiveField (FieldConfig "Password" "password") (Some "pw");
     ActiveField (FieldConfig "Title" "title") (Some "name")]
    None {[ "name" := "Mail"; "pw" := "x y" ]}
  = @hashEntry exampleRuntime
      [ActiveField (FieldConfig "Title" "title") (Some "name");
       ActiveField (FieldConfig "Password" "password") (Some "pw")]
      None {[ "name" := "Mail"; "pw" := "x y" ]}.
Proof.
  apply (@hashEntry_field_order exampleRuntime).
  - apply Permutation_swap.
  - apply (bool_decide_unpack _). by vm_compute.
Defined.

(** X12.  The input of the identity hash depends on nothing but which of the
    four configured names are selected and on the values the row holds for
    them, an absent value counting as the empty string: other names in the
    selection and other keys of the row do not enter it. *)
Theorem buildHashInput_depends (row1 row2 : gmap string string)
    (selection1 selection2 : list string) :
  (forall name, name ∈ HASH_FIELDS -> name ∈ selection1 <-> name ∈ selection2) ->
  (forall name, name ∈ HASH_FIELDS -> name ∈ selection1 ->
                default EmptyString (row1 !! name) = default EmptyString (row2 !! name)) ->
  buildHashInput row1 selection1 = buildHashInput row2 selection2.
Proof.
  intros Hnames Hvalues. rewrite !buildHashInput_unfold. f_equal.
  rewrite <- (filter_ext_elem (fun x => x ∈ selection1) (fun x => x ∈ selection2))
    by exact Hnames.
  apply map_ext_in. intros name Hname%list_elem_of_In.
  apply list_elem_of_filter in Hname as [Hsel Hconf]. by apply Hvalues.
Qed.

Lemma buildHashInput_depends_witness :
  buildHashInput {[ "title" := "Mail"; "notes" := "n" ]} ["title"; "notes"; "password"]
  = buildHashInput {[ "title" := "Mail"; "password" := EmptyString ]} ["password"; "title"].
Proof.
  apply buildHashInput_depends.
  - intros name Hname. unfold HASH_FIELDS in Hname. simpl in Hname.
    rewrite !elem_of_cons, !elem_of_nil in *.
    destruct Hname as [->|[->|[->|[->|[]]]]]; split; intros H;
      repeat (destruct H as [H|H]; try discriminate H); auto 10.
  - intros name Hname _. unfold HASH_FIELDS in Hname. simpl in Hname.
    rewrite !elem_of_cons, !elem_of_nil in Hname.
    destruct Hname as [->|[->|[->|[->|[]]]]]; reflexivity.
Defined.

(** ** Header binding *)

Lemma find_first {A} (p : A -> bool) (l : list A) (x : A) :
  find p l = Some x ->
  exists i, l !! i = Some x /\ p x = true
            /\ forall j y, (j < i)%nat -> l !! j = Some y -> p y = false.
Proof.
  induction l as [|a l IH]; simpl; [done|].
  destruct (p a) eqn:Hp.
  - intros [= <-]. exists 0%nat. split; [done|]. split; [done|]. intros j y Hj. lia.
  - intros Hfind. destruct (IH Hfind) as (i & Hi & Hx & Hfirst).
    exists (S i). split; [done|]. split; [done|].
    intros [|j] y Hj Hy; [by injection Hy as <-|]. apply (Hfirst j); [lia|done].
Qed.

Lemma find_none_iff {A} (p : A -> bool) (l : list A) :
  find p l = None <-> forall x, x ∈ l -> p x = false.
Proof.
  induction l as [|a l IH]; simpl.
  - split; [intros _ x Hx; by apply elem_of_nil in Hx|done].
  - destruct (p a) eqn:Hp.
    + split; [done|]. intros Hall. specialize (Hall a ltac:(left)). congruence.
    + rewrite IH. split.
      * intros Hall x [->|Hx]%elem_of_cons; [done|by apply Hall].
      * intros Hall x Hx. apply Hall. by right.
Qed.

(** X13.  [buildActiveFields] gives the four configured fields, in the order
    of the configuration, whatever the headers are.  A field is bound to the
    first header that equals its canonical name once trimmed and put in
    lower case, and such a header is never the empty string; it is left
    without header exactly when no header does. *)
Theorem buildActiveFields_binding (headers : list string) (field : activeField) :
  map config (buildActiveFields headers) = FIELD_CONFIG
  /\ (field ∈ buildActiveFields headers ->
      (headerName field = None
       <-> forall header, header ∈ headers -> toCanonical header <> fieldCanonical field)
      /\ forall header,
           headerName field = Some header ->
           header <> EmptyString
           /\ exists i, headers !! i = Some header
                /\ toCanonical header = fieldCanonical field
                /\ forall j other, (j < i)%nat -> headers !! j = Some other ->
                     toCanonical other <> fieldCanonical field).
Proof.
  split. { reflexivity. }
  intros Hfield. unfold buildActiveFields in Hfield.
  apply list_elem_of_fmap in Hfield as (cfg & -> & Hcfg). simpl. unfold fieldCanonical.
  simpl. split.
  - rewrite find_none_iff. split.
    + intros Hall header Hheader. specialize (Hall header Hheader).
      by apply bool_decide_eq_false in Hall.
    + intros Hall header Hheader. apply bool_decide_eq_false. by apply Hall.
  - intros header Hfind.
    destruct (find_first _ _ _ Hfind) as (i & Hi & Hmatch & Hfirst).
    apply bool_decide_eq_true in Hmatch. split.
    + intros ->. unfold FIELD_CONFIG in Hcfg.
      rewrite !elem_of_cons, elem_of_nil in Hcfg.
      destruct Hcfg as [->|[->|[->|[->|[]]]]]; discriminate Hmatch.
    + exists i. split; [done|]. split; [done|].
      intros j other Hj Hother. specialize (Hfirst j other Hj Hother).
      by apply bool_decide_eq_false in Hfirst.
Qed.

Lemma buildActiveFields_binding_witness :
  exists i, ["id"; " TITLE "; "Title"] !! i = Some " TITLE "
    /\ toCanonical " TITLE " = "title".
Proof.
  destruct (proj2 (buildActiveFields_binding ["id"; " TITLE "; "Title"]
                     (ActiveField (FieldConfig "Title" "title") (Some " TITLE ")))
              ltac:(left)) as [_ Hbound].
  destruct (Hbound " TITLE " eq_refl) as (_ & i & Hi & Hcanon & _).
  by exists i.
Defined.

(** ** Text normalisation *)

#[local] Arguments String.append !_ _ / : simpl nomatch.

Lemma string_app_nil_r (s : string) : s +:+ EmptyString = s.
Proof. induction s as [|c s IH]; simpl; [reflexivity|]. by rewrite IH. Qed.

Lemma splitWords_Some_nonempty (w s : string) : splitWords (Some w) s <> [].
Proof.
  revert w. induction s as [|c s IH]; intros w; simpl; [done|].
  destruct (isSpace c); [done|apply IH].
Qed.

Lemma splitWords_None_nil (s : string) : splitWords None s = [] -> trimEnd s = EmptyString.
Proof.
  induction s as [|c s IH]; simpl; [done|].
  destruct (isSpace c) eqn:Hc.
  - intros Hnil. rewrite (IH Hnil). reflexivity.
  - intros Hnil. by apply splitWords_Some_nonempty in Hnil.
Qed.

Lemma trimEnd_nil_words (s : string) : trimEnd s = EmptyString -> splitWords None s = [].
Proof.
  induction s as [|c s IH]; simpl; [done|].
  destruct (isSpace c) eqn:Hc; simpl; [|done].
  destruct (trimEnd s); [intros _; by apply IH|done].
Qed.

Lemma join_cons_nonempty (sep w : string) (ws : list string) :
  ws <> [] -> join sep (w :: ws) = w +:+ sep +:+ join sep ws.
Proof. by destruct ws. Qed.

(** [collapseSpaces] on a text without trailing white space, in terms of
    words: after a word being read, and at the start of a run. *)
Lemma collapse_words (s : string) :
  (forall w, join " " (splitWords (Some w) s)
             = w +:+ collapseSpaces false (trimEnd s))
  /\ join " " (splitWords None s) = collapseSpaces true (trimEnd s).
Proof.
  induction s as [|c s [IHsome IHnone]].
  - split; [|reflexivity]. intros w. simpl. by rewrite string_app_nil_r.
  - split.
    + intros w. cbn [splitWords trimEnd]. destruct (isSpace c) eqn:Hc.
      * destruct (trimEnd s) as [|d t] eqn:Htrim.
        -- rewrite (trimEnd_nil_words s Htrim). simpl. by rewrite string_app_nil_r.
        -- cbn [andb isEmptyStr].
           change (option_list (Some w) ++ splitWords None s)
             with (w :: splitWords None s).
           rewrite join_cons_nonempty.
           2: { intros Hnil%splitWords_None_nil. congruence. }
           rewrite IHnone. cbn [collapseSpaces]. rewrite Hc. reflexivity.
      * cbn [andb default]. rewrite IHsome. cbn [collapseSpaces]. rewrite Hc.
        rewrite string_app_assoc. reflexivity.
    + cbn [splitWords trimEnd]. destruct (isSpace c) eqn:Hc.
      * change (option_list None ++ splitWords None s) with (splitWords None s).
        rewrite IHnone.
        destruct (trimEnd s) as [|d t]; [reflexivity|].
        cbn [andb isEmptyStr collapseSpaces]. by rewrite Hc.
      * cbn [andb default]. rewrite IHsome. cbn [collapseSpaces]. rewrite Hc.
        reflexivity.
Qed.

Lemma trimStart_words (s : string) : splitWords None (trimStart s) = splitWords None s.
Proof.
  induction s as [|c s IH]; [reflexivity|].
  cbn [trimStart splitWords]. destruct (isSpace c) eqn:Hc; [exact IH|].
  cbn [splitWords]. by rewrite Hc.
Qed.

Section TextFacts.
Context {rt : Runtime}.

Lemma normalizeText_words_aux (v : string) :
  normalizeText (Some v)
  = match wordsOf v with
    | [] => EmptyString
    | _ :: _ => nfc (join " " (wordsOf v))
    end.
Proof.
  unfold normalizeText, wordsOf, trim. rewrite <- (trimStart_words v).
  destruct (trimStart v) as [|c s] eqn:Hstart; [reflexivity|].
  assert (isSpace c = false) as Hc.
  { clear -Hstart. induction v as [|a v IH]; [done|].
    simpl in Hstart. destruct (isSpace a) eqn:Ha; [by apply IH|].
    by injection Hstart as <- _. }
  cbn [trimEnd splitWords]. rewrite Hc. cbn [andb isEmptyStr default].
  pose proof (splitWords_Some_nonempty (EmptyString +:+ str1 c) s) as Hne.
  destruct (splitWords _ s) as [|w ws] eqn:Hwords; [done|].
  f_equal. rewrite <- Hwords, (proj1 (collapse_words s)).
  cbn [collapseSpaces]. by rewrite Hc.
Qed.

(** X14.  The normalised text is the words of the value, its maximal runs of
    characters that are not white space, joined by single spaces and put in
    NFC; a value without words, and an absent one, give the empty string. *)
Theorem normalizeText_words (value : option string) :
  normalizeText value
  = match value with
    | None => EmptyString
    | Some v =>
        match wordsOf v with
        | [] => EmptyString
        | _ :: _ => nfc (join " " (wordsOf v))
        end
    end.
Proof. destruct value as [v|]; [apply normalizeText_words_aux|reflexivity]. Qed.

End TextFacts.

Lemma app_nonempty_r (a : string) (c : ascii) : a +:+ str1 c <> EmptyString.
Proof. by destruct a. Qed.

Lemma splitWords_isWord (s : string) (current : option string) :
  (forall w, current = Some w -> isWord w) ->
  Forall isWord (splitWords current s).
Proof.
  revert current. induction s as [|c s IH]; intros current Hcur; cbn [splitWords].
  - destruct current as [w|]; simpl; [|constructor].
    constructor; [by apply Hcur|constructor].
  - destruct (isSpace c) eqn:Hc.
    + apply Forall_app. split; [|by apply IH].
      destruct current as [w|]; simpl; [|constructor].
      constructor; [by apply Hcur|constructor].
    + apply IH. intros w [= <-]. split; [apply app_nonempty_r|].
      rewrite allChars_app. simpl. rewrite Hc. simpl.
      destruct current as [w|]; simpl; [|reflexivity].
      rewrite (proj2 (Hcur w eq_refl)). reflexivity.
Qed.

Lemma splitWords_word (w rest : string) (current : option string) :
  isWord w ->
  splitWords current (w +:+ rest)
  = splitWords (Some (default EmptyString current +:+ w)) rest.
Proof.
  intros [Hne Hchars]. revert current.
  induction w as [|c w IH]; intros current; [done|].
  simpl in Hchars. apply andb_prop in Hchars as [Hc Hchars].
  apply negb_true_iff in Hc.
  cbn [String.append splitWords]. rewrite Hc.
  destruct w as [|d w].
  - reflexivity.
  - rewrite IH; [|done|done]. unfold default at 1, id.
    rewrite string_app_assoc. reflexivity.
Qed.

Lemma wordsOf_join (ws : list string) :
  Forall isWord ws -> wordsOf (join " " ws) = ws.
Proof.
  unfold wordsOf. induction 1 as [|w ws Hw Hws IH]; [reflexivity|].
  destruct ws as [|w2 ws].
  - cbn [join]. rewrite <- (string_app_nil_r w) at 1.
    rewrite splitWords_word by done. reflexivity.
  - change (join " " (w :: w2 :: ws)) with (w +:+ " " +:+ join " " (w2 :: ws)).
    rewrite splitWords_word by done.
    change (" " +:+ join " " (w2 :: ws)) with (String " " (join " " (w2 :: ws))).
    cbn [splitWords]. change (isSpace " ") with true. cbv iota.
    rewrite IH. reflexivity.
Qed.

Section TextIdempotence.
Context {rt : Runtime}.

(** X15.  Normalising is idempotent on a value whose collapsed text NFC
    leaves unchanged (as it does every ASCII text): normalising the
    normalised text gives it back. *)
Theorem normalizeText_idempotent (v : string) :
  nfc (join " " (wordsOf v)) = join " " (wordsOf v) ->
  normalizeText (Some (normalizeText (Some v))) = normalizeText (Some v).
Proof.
  intros Hnfc.
  rewrite (normalizeText_words_aux v).
  pose proof (splitWords_isWord v None) as Hwords.
  fold (wordsOf v) in Hwords.
  destruct (wordsOf v) as [|w ws] eqn:Hv; [reflexivity|].
  rewrite Hnfc, normalizeText_words_aux, wordsOf_join by (by apply Hwords).
  exact Hnfc.
Qed.

End TextIdempotence.

Lemma normalizeText_idempotent_witness :
  @nfc exampleRuntime (join " " (wordsOf "  Ada   Lovelace "))
  = join " " (wordsOf "  Ada   Lovelace ")
  /\ @normalizeText exampleRuntime
       (Some (@normalizeText exampleRuntime (Some "  Ada   Lovelace "%string)))
     = @normalizeText exampleRuntime (Some "  Ada   Lovelace "%string).
Proof.
  split; [reflexivity|].
  apply (@normalizeText_idempotent exampleRuntime); reflexivity.
Defined.
(** ** The CSV tokenizer, further *)

#[local] Arguments String.append !_ _ / : simpl nomatch.

Module CsvMore.
Import Csv.

(** A property of the scanner's state that every iteration keeps holds at
    the end of the loop. *)
Lemma scanFrom_invariant (P : scan -> Prop) :
  (forall char nextChar st, P st -> P (scanStep char nextChar st).1) ->
  forall source st, P st -> P (scanFrom source st).
Proof.
  intros Hstep source.
  assert (forall n source, (String.length source <= n)%nat ->
            forall st, P st -> P (scanFrom source st)) as Hall.
  { induction n as [|n IH]; intros s Hlen st Hst.
    - destruct s; [done|simpl in Hlen; lia].
    - destruct s as [|char rest]; [done|]. cbn [scanFrom].
      pose proof (Hstep char (strHead rest) st Hst) as Hnext.
      destruct (scanStep char (strHead rest) st) as [st' skip].
      simpl in Hlen. destruct skip.
      + destruct rest as [|c2 rest']; [done|].
        apply IH; [simpl in Hlen; lia|done].
      + apply IH; [lia|done]. }
  by apply (Hall (String.length source)).
Qed.

Lemma scanStep_rows_kept (char : ascii) (nextChar : option ascii) (st : scan) :
  Forall (fun row => keepsRow row = true) (rows st) ->
  Forall (fun row => keepsRow row = true) (rows (scanStep char nextChar st).1).
Proof.
  intros Hrows. unfold scanStep.
  repeat (match goal with |- context [if ?b then _ else _] => destruct b eqn:? end);
    try exact Hrows.
  cbn [fst]. unfold pushRowIfNeeded.
  repeat (match goal with |- context [if ?b then _ else _] => destruct b eqn:? end);
    try exact Hrows.
  cbn [rows]. apply Forall_app. split; [exact Hrows|].
  constructor; [done|constructor].
Qed.

(** X16.  No row the tokenizer returns is empty or a single empty field:
    blank lines leave no row, wherever they stand. *)
Theorem tokenize_rows_kept (source : string) :
  Forall (fun row => keepsRow row = true) (tokenize source).
Proof.
  unfold tokenize. cbv zeta.
  assert (Forall (fun row => keepsRow row = true) (rows (scanFrom source initial)))
    as Hrows.
  { apply (scanFrom_invariant
             (fun st => Forall (fun row => keepsRow row = true) (rows st))).
    - intros. by apply scanStep_rows_kept.
    - constructor. }
  cbn [pushValue currentRow rows].
  destruct (keepsRow _) eqn:Hkeep; [|exact Hrows].
  apply Forall_app. split; [exact Hrows|]. constructor; [done|constructor].
Qed.

(** *** Reading back plain lines *)









(** *** The entries of [parseCsv] *)







End CsvMore.
(** ** The panel, further *)

Section PanelFacts.
Context {rt : Runtime}.

Lemma publish_shows (hashes : list leaf) (treeData : option merkleData) (p : panel) :
  buildMerkleTree hashes = Returns treeData -> showsItsTree (publish hashes treeData p).
Proof. intros Htree. by destruct treeData. Qed.

Lemma resetData_shows (p : panel) : showsItsTree (resetData p).
Proof. by repeat split. Qed.

Lemma updateResults_shows (p : panel) :
  showsItsTree p -> showsItsTree (updateResults p).1.
Proof.
  intros Hp. unfold updateResults.
  destruct (parsedEntries p); [by apply publish_shows|].
  destruct (getSelectedFields _ _); [by apply publish_shows|]. exact Hp.
Qed.

Lemma resume_shows (r : run) (p : panel) :
  showsItsTree p -> showsItsTree (resume r p).1.
Proof.
  intros Hp.
  destruct (resume_cases r p) as [->|(_ & leafNodes & data & _ & Htree & ->)];
    [done|by apply publish_shows].
Qed.

Lemma step_shows (s : system) (e : event) :
  showsItsTree (thePanel s) -> showsItsTree (thePanel (step s e)).
Proof.
  intros Hs. destruct e as [text|name| |i]; cbn [step spawn thePanel fst].
  - unfold fileLoaded. destruct (Csv.headers _); [apply resetData_shows|].
    cbn [parsedEntries]. destruct (Csv.dataRows _); [apply resetData_shows|].
    by apply updateResults_shows.
  - by apply updateResults_shows.
  - apply resetData_shows.
  - destruct (inFlight s !! i) as [r|]; [|done]. by apply resume_shows.
Qed.

(** X20.  Whatever happens to a panel, in whatever order its runs resume,
    the tree it keeps is the tree of the leaves it keeps, and the root it
    shows is the root of that tree. *)
Theorem panel_shows_its_tree (events : list event) :
  showsItsTree (thePanel (runEvents initialSystem events)).
Proof.
  induction events as [|e events IH] using rev_ind.
  - by repeat split.
  - unfold runEvents. rewrite fold_left_app. by apply step_shows.
Qed.

Lemma resolutions_of_stale (resolutions : list nat) (s : system) :
  Forall (fun r => idOf r <> computationVersion (thePanel s)) (inFlight s) ->
  thePanel (runEvents s (map PromiseResolved resolutions)) = thePanel s.
Proof.
  revert s. induction resolutions as [|i resolutions IH]; intros s Hstale; [done|].
  cbn [map runEvents fold_left]. fold (runEvents (step s (PromiseResolved i))
                                        (map PromiseResolved resolutions)).
  cbn [step]. destruct (inFlight s !! i) as [r|] eqn:Hi; [|by apply IH].
  rewrite resume_stale by (by eapply (proj1 (Forall_lookup _ _)) in Hstale).
  rewrite IH; [done|]. cbn [spawn thePanel inFlight fst snd option_list].
  rewrite app_nil_r. by apply Forall_delete.
Qed.

(** X21.  Clearing is final for the runs in flight: after the clear button,
    however the suspended runs resume, the panel stays as [resetData] left
    it, without rows, leaves or tree. *)
Theorem clear_is_final (s : system) (resolutions : list nat) :
  wellNumbered s ->
  thePanel (runEvents (step s ClearClicked) (map PromiseResolved resolutions))
  = resetData (thePanel s).
Proof.
  intros [Hbound _]. rewrite resolutions_of_stale; [done|].
  cbn [step thePanel inFlight]. rewrite resetData_version.
  eapply Forall_impl; [exact Hbound|]. intros r Hr. simpl in Hr. lia.
Qed.

Lemma computeTree_returns_aux (fields : list activeField) (checked : string -> bool)
    (entries : list (gmap string string)) :
  exists leafNodes merkleData,
    computeTree fields checked entries = Returns (leafNodes, merkleData)
    /\ length leafNodes
       = (match getSelectedFields fields checked with
          | [] => 0%nat
          | _ :: _ => length entries
          end)
    /\ (merkleData = None <-> leafNodes = []).
Proof.
  unfold computeTree. destruct entries as [|entry rest].
  { exists [], None. by destruct (getSelectedFields _ _). }
  destruct (getSelectedFields _ _) as [|f fs] eqn:Hselected.
  { by exists [], None. }
  rewrite (forEachC_returns _ (recordOf (f :: fs) (findTitleField fields)))
    by apply hashEntry_returns.
  cbn [bindC].
  set (leafNodes := sortedLeaves _).
  assert (length leafNodes = length (entry :: rest)) as Hlen.
  { unfold leafNodes, sortedLeaves.
    by rewrite length_map, sortBy_Permutation, length_map. }
  destruct (buildMerkleTree_returns leafNodes)
    as [[Hnil _]|(upper & lastLevel & rootNode & Htree & _)].
  { rewrite Hnil in Hlen. discriminate Hlen. }
  cbv zeta in Htree. rewrite Htree. cbn [bindC].
  eexists _, _. split; [reflexivity|]. split; [exact Hlen|].
  split; [done|]. intros Hnil. rewrite Hnil in Hlen. discriminate Hlen.
Qed.

(** X22.  The computation of a panel's result never throws; with rows and
    a selection it gives one leaf per row and a tree, otherwise no leaf and
    no tree. *)
Theorem computeTree_returns (fields : list activeField) (checked : string -> bool)
    (entries : list (gmap string string)) :
  exists leafNodes merkleData,
    computeTree fields checked entries = Returns (leafNodes, merkleData)
    /\ length leafNodes
       = (match getSelectedFields fields checked with
          | [] => 0%nat
          | _ :: _ => length entries
          end)
    /\ (merkleData = None <-> leafNodes = []).
Proof. apply computeTree_returns_aux. Qed.

(** X23.  A run of [updateResults] that nothing interrupts ends after two
    resumptions per row and one for the tree, and has then published what
    [computeTree] returns, under the version it took. *)
Theorem updateResults_publishes (p : panel) :
  exists leafNodes merkleData,
    computeTree (activeFields p) (isChecked p) (parsedEntries p)
      = Returns (leafNodes, merkleData)
    /\ runAlone (2 * length (parsedEntries p) + 1) (updateResults p)
       = publish leafNodes merkleData
           (match parsedEntries p with [] => p | _ :: _ => bumpVersion p end).
Proof.
  destruct (computeTree_returns_aux (activeFields p) (isChecked p) (parsedEntries p))
    as (leafNodes & merkleData & Htree & _).
  exists leafNodes, merkleData. split; [exact Htree|].
  by apply updateResults_alone.
Qed.

End PanelFacts.

Lemma clear_is_final_witness :
  let text := "title,password" +:+ String LF ("A,x" +:+ str1 LF) in
  let s := @runEvents exampleRuntime initialSystem
             [FileLoaded text; CheckboxChanged "password"] in
  length (inFlight s) = 2%nat
  /\ thePanel (@runEvents exampleRuntime (@step exampleRuntime s ClearClicked)
                 (map PromiseResolved [1; 0; 0]%nat))
     = resetData (thePanel s).
Proof.
  split; [reflexivity|].
  apply (@clear_is_final exampleRuntime). apply (@runEvents_wellNumbered exampleRuntime).
Defined.
(** ** The page: highlighting follows the published leaves *)

Lemma setDifferences_highlighted (hashSet : gset string) (p : panel) :
  highlightedHashes (setDifferences hashSet p) = hashSet
  /\ latestHashes (setDifferences hashSet p) = latestHashes p.
Proof. unfold setDifferences. simpl. by destruct (lastMerkleData p). Qed.

Lemma compare_agrees (g : page) :
  highlightedHashes (thePanel (controllersLeft g)) = ∅ ->
  highlightsAgree (compare g).
Proof.
  intros Hleft. unfold compare, highlightsAgree, handleComparison.
  destruct (toggleChecked g) eqn:Hdual;
    cbn [toggleChecked controllersLeft controllersRight thePanel];
    rewrite ?Hdual, !(proj1 (setDifferences_highlighted _ _)),
      ?(proj2 (setDifferences_highlighted _ _)); by split.
Qed.

Section PageFacts.
Context {rt : Runtime}.

Lemma publish_notifies (hashes : list leaf) (treeData : option merkleData) (p : panel) :
  changeNotifications (publish hashes treeData p) = S (changeNotifications p)
  /\ (highlightedHashes p = ∅ -> highlightedHashes (publish hashes treeData p) = ∅).
Proof. by destruct treeData. Qed.

Lemma updateResults_quietOrNotified (p : panel) :
  quietOrNotified p (updateResults p).1.
Proof.
  unfold updateResults. destruct (parsedEntries p).
  { split; [left|]; apply publish_notifies. }
  destruct (getSelectedFields _ _).
  { split; [left|]; apply (publish_notifies _ _ (bumpVersion p)). }
  split; [by right|done].
Qed.

Lemma quietOrNotified_from (p q p' : panel) :
  changeNotifications q = changeNotifications p ->
  latestHashes q = latestHashes p ->
  highlightedHashes q = highlightedHashes p ->
  quietOrNotified q p' -> quietOrNotified p p'.
Proof. unfold quietOrNotified. by intros -> -> ->. Qed.

Lemma step_quietOrNotified (s : system) (e : event) :
  quietOrNotified (thePanel s) (thePanel (step s e)).
Proof.
  destruct e as [text|name| |i]; cbn [step spawn thePanel fst].
  - unfold fileLoaded. destruct (Csv.headers _); [by split; [left|]|].
    cbn [parsedEntries]. destruct (Csv.dataRows _); [by split; [left|]|].
    eapply quietOrNotified_from; [| | |apply updateResults_quietOrNotified];
      reflexivity.
  - unfold checkboxChanged.
    eapply quietOrNotified_from; [| | |apply updateResults_quietOrNotified];
      reflexivity.
  - by split; [left|].
  - destruct (inFlight s !! i) as [r|]; [|by split; [right|]].
    cbn [spawn thePanel fst].
    destruct (resume_cases r (thePanel s)) as [->|(_ & leafNodes & data & _ & _ & ->)].
    + by split; [right|].
    + split; [left|]; apply publish_notifies.
Qed.

Lemma notified_false (p p' : panel) :
  notified p p' = false -> changeNotifications p' <> S (changeNotifications p).
Proof.
  unfold notified. intros Heq%negb_false_iff%Nat.eqb_eq. lia.
Qed.

Lemma updateMode_agrees (isDual : bool) (g : page) :
  highlightedHashes (thePanel (controllersLeft g)) = ∅ ->
  highlightsAgree (updateMode isDual g).
Proof.
  intros Hleft. unfold updateMode. apply compare_agrees.
  destruct isDual; [done|].
  unfold compare, handleComparison.
  by destruct (toggleChecked g).
Qed.

Lemma pageStep_agrees (g : page) (e : pageEvent) :
  highlightsAgree g -> highlightsAgree (pageStep g e).
Proof.
  intros [Hright Hleft]. destruct e as [e|e|checked]; cbn [pageStep]; cbv zeta.
  - destruct (step_quietOrNotified (controllersLeft g) e) as [Hstep Hnone].
    destruct (notified _ _) eqn:Hnotified.
    + apply compare_agrees. by apply Hnone.
    + apply notified_false in Hnotified.
      destruct Hstep as [?|(_ & Hlatest & _)]; [done|].
      split; cbn [toggleChecked controllersLeft controllersRight];
        [by rewrite Hlatest|by apply Hnone].
  - destruct (step_quietOrNotified (controllersRight g) e) as [Hstep _].
    destruct (notified _ _) eqn:Hnotified.
    + by apply compare_agrees.
    + apply notified_false in Hnotified.
      destruct Hstep as [?|(_ & Hlatest & Hhighlighted)]; [done|].
      split; cbn [toggleChecked controllersLeft controllersRight];
        [by rewrite Hlatest, Hhighlighted|done].
  - by apply updateMode_agrees.
Qed.

Lemma runPage_agrees (checked : bool) (events : list pageEvent) :
  highlightsAgree (runPage (startPage checked) events).
Proof.
  induction events as [|e events IH] using rev_ind.
  - by apply updateMode_agrees.
  - unfold runPage. rewrite fold_left_app. by apply pageStep_agrees.
Qed.

(** X24.  On the page with its two panels, after every event (a file, a
    check box, a clear or a resumed run on either side, a change of the
    toggle) the hashes highlighted in the right panel are the differences
    of the leaves the two panels last published, or none in single mode;
    the left panel never highlights anything. *)
Theorem highlights_follow_published (checked : bool) (events : list pageEvent) :
  highlightsAgree (runPage (startPage checked) events).
Proof. apply runPage_agrees. Qed.

End PageFacts.
(** ** The nodes marked as differences *)

Lemma padLevel_real (currentLevel : list node) (i : nat) (n : node) :
  Forall isReal currentLevel ->
  (padLevel currentLevel !! i = Some n /\ isDuplicate n = false)
  <-> currentLevel !! i = Some n.
Proof.
  intros Hreal. split.
  - intros [Hlook Hnodup].
    destruct (padLevel_cases currentLevel)
      as [[Hsame _]|(front & lastNode & Hlevel & _ & _ & Hpad)].
    { by rewrite Hsame in Hlook. }
    rewrite Hpad in Hlook. rewrite Hlevel.
    change [lastNode; Node (hash lastNode) (title lastNode) true]
      with ([lastNode] ++ [Node (hash lastNode) (title lastNode) true]) in Hlook.
    rewrite app_assoc in Hlook.
    apply lookup_app_Some in Hlook as [Hlook|[_ Hlook]]; [done|].
    apply list_lookup_singleton_Some in Hlook as [_ <-]. done.
  - intros Hlook. split.
    + destruct (padLevel_cases currentLevel)
        as [[Hsame _]|(front & lastNode & Hlevel & _ & _ & Hpad)].
      { by rewrite Hsame. }
      rewrite Hpad.
      change [lastNode; Node (hash lastNode) (title lastNode) true]
        with ([lastNode] ++ [Node (hash lastNode) (title lastNode) true]).
      rewrite app_assoc, <- Hlevel. by apply lookup_app_l_Some.
    + rewrite Forall_forall in Hreal. apply Hreal.
      by eapply list_elem_of_lookup_2.
Qed.

Section MarkFacts.
Context {rt : Runtime}.

Lemma setDifferences_shows (hashSet : gset string) (p : panel) :
  showsItsTree p -> showsItsTree (setDifferences hashSet p).
Proof.
  intros (Htree & Hroot & Hprefix). unfold setDifferences. cbn [lastMerkleData].
  destruct (lastMerkleData p) as [data|] eqn:Hdata.
  - split; [exact Htree|]. by split.
  - by repeat split.
Qed.

Lemma compare_shows (g : page) :
  showsItsTree (thePanel (controllersLeft g)) ->
  showsItsTree (thePanel (controllersRight g)) ->
  showsItsTree (thePanel (controllersLeft (compare g)))
  /\ showsItsTree (thePanel (controllersRight (compare g))).
Proof.
  intros Hleft Hright. unfold compare, handleComparison.
  destruct (toggleChecked g); cbn [controllersLeft controllersRight thePanel];
    (split; [done|by apply setDifferences_shows]).
Qed.

Lemma pageStep_shows (g : page) (e : pageEvent) :
  showsItsTree (thePanel (controllersLeft g))
  /\ showsItsTree (thePanel (controllersRight g)) ->
  showsItsTree (thePanel (controllersLeft (pageStep g e)))
  /\ showsItsTree (thePanel (controllersRight (pageStep g e))).
Proof.
  intros [Hleft Hright]. destruct e as [e|e|checked]; cbn [pageStep]; cbv zeta.
  - pose proof (step_shows (controllersLeft g) e Hleft) as Hstep.
    destruct (notified _ _); [by apply compare_shows|done].
  - pose proof (step_shows (controllersRight g) e Hright) as Hstep.
    destruct (notified _ _); [by apply compare_shows|done].
  - unfold updateMode. destruct checked.
    + by apply compare_shows.
    + pose proof (step_shows _ ClearClicked Hright) as Hcleared.
      destruct (compare_shows
                  (Page false (controllersLeft g) (step (controllersRight g) ClearClicked))
                  Hleft Hcleared) as [Hleft' Hright'].
      by apply compare_shows.
Qed.

Lemma runPage_shows (checked : bool) (events : list pageEvent) :
  showsItsTree (thePanel (controllersLeft (runPage (startPage checked) events)))
  /\ showsItsTree (thePanel (controllersRight (runPage (startPage checked) events))).
Proof.
  induction events as [|e events IH] using rev_ind.
  - apply (pageStep_shows (Page checked initialSystem initialSystem)
             (ToggleChanged checked)).
    by repeat split.
  - unfold runPage. rewrite fold_left_app. by apply pageStep_shows.
Qed.

Lemma marksNode_spec (p : panel) (k i : nat) :
  showsItsTree p ->
  marksNode p k i = true
  <-> k = 0%nat
      /\ exists l, latestHashes p !! i = Some l /\ leafHash l ∈ highlightedHashes p.
Proof.
  intros (Htree & _). unfold marksNode.
  destruct (buildMerkleTree_returns (latestHashes p))
    as [[Hnil Hnone]|(upper & lastLevel & rootNode & Hsome & _ & _ & Hreal & _)].
  - rewrite Hnone in Htree. injection Htree as <-. rewrite Hnil.
    split; [done|]. by intros (_ & l & Hl & _).
  - cbv zeta in Hsome. rewrite Hsome in Htree. injection Htree as <-.
    cbn [levels]. unfold isDiff.
    destruct k as [|k].
    + cbn [lookup list_lookup mbind option_bind Nat.eqb andb].
      set (leafLevel := map _ (latestHashes p)) in *.
      split.
      * destruct (padLevel leafLevel !! i) as [n|] eqn:Hn; [|done].
        intros [Hdup%negb_true_iff Hin%bool_decide_eq_true]%andb_true_iff.
        split; [done|].
        pose proof (proj1 (padLevel_real leafLevel i n Hreal) (conj Hn Hdup)) as Hleaf.
        unfold leafLevel in Hleaf. rewrite list_lookup_fmap in Hleaf.
        destruct (latestHashes p !! i) as [l|]; [|done].
        injection Hleaf as <-. by exists l.
      * intros (_ & l & Hl & Hin).
        assert (leafLevel !! i = Some (Node (leafHash l) (leafTitle l) false)) as Hleaf.
        { unfold leafLevel. by rewrite list_lookup_fmap, Hl. }
        apply (padLevel_real leafLevel i _ Hreal) in Hleaf as [-> _].
        cbn [isDuplicate negb hash andb]. by apply bool_decide_eq_true.
    + split; [|by intros [? _]].
      cbn [Nat.eqb andb]. by destruct (_ ≫= _).
Qed.

(** X29.  On the page, after every event, the right panel marks exactly the
    leaves it published whose hash is among the differences with what the
    left panel published, and does so in dual mode only: no duplicate, no
    node above the leaves, and no node of the left panel is ever marked. *)
Theorem marked_nodes (checked : bool) (events : list pageEvent) (k i : nat) :
  let g := runPage (startPage checked) events in
  let reference := latestHashes (thePanel (controllersLeft g)) in
  let candidate := latestHashes (thePanel (controllersRight g)) in
  (marksNode (thePanel (controllersRight g)) k i = true
   <-> toggleChecked g = true /\ k = 0%nat
       /\ exists l, candidate !! i = Some l
            /\ leafHash l ∈ diffLeaves reference candidate)
  /\ marksNode (thePanel (controllersLeft g)) k i = false.
Proof.
  cbv zeta.
  destruct (runPage_shows checked events) as [Hleft Hright].
  destruct (runPage_agrees checked events) as [Hdiff Hnone].
  split.
  - rewrite (marksNode_spec _ k i Hright), Hdiff.
    destruct (toggleChecked _).
    + split; [by intros [? ?]|by intros (_ & ? & ?)].
    + split; [|by intros [? _]]. intros (_ & l & _ & Hin). by apply elem_of_empty in Hin.
  - apply not_true_iff_false. rewrite (marksNode_spec _ k i Hleft), Hnone.
    intros (_ & l & _ & Hin). by apply elem_of_empty in Hin.
Qed.

End MarkFacts.

Lemma marked_nodes_witness :
  let events :=
    [OnLeft (FileLoaded ("title" +:+ String LF "A"));
     OnLeft (PromiseResolved 0); OnLeft (PromiseResolved 0); OnLeft (PromiseResolved 0);
     OnRight (FileLoaded ("title" +:+ String LF ("A" +:+ String LF ("B" +:+ String LF "C"))));
     OnRight (PromiseResolved 0); OnRight (PromiseResolved 0);
     OnRight (PromiseResolved 0); OnRight (PromiseResolved 0);
     OnRight (PromiseResolved 0); OnRight (PromiseResolved 0);
     OnRight (PromiseResolved 0)] in
  let g := @runPage exampleRuntime (@startPage exampleRuntime true) events in
  marksNode (thePanel (controllersRight g)) 0 2 = true
  /\ marksNode (thePanel (controllersRight g)) 0 3 = false
  /\ exists l, latestHashes (thePanel (controllersRight g)) !! 2%nat = Some l
       /\ leafHash l ∈ diffLeaves (latestHashes (thePanel (controllersLeft g)))
                                  (latestHashes (thePanel (controllersRight g))).
Proof.
  intros events g.
  assert (marksNode (thePanel (controllersRight g)) 0 2 = true) as Hmarked
    by (vm_compute; reflexivity).
  split; [exact Hmarked|]. split; [vm_compute; reflexivity|].
  apply (proj1 (proj1 (@marked_nodes exampleRuntime true events 0 2))) in Hmarked.
  exact (proj2 (proj2 Hmarked)).
Defined.
(** ** The diff, further *)

(** X25.  When every hash of the candidate's leaves is among the hashes of
    the reference's leaves, nothing is marked: in particular when both
    panels published the same leaves, in any order. *)
Theorem diffLeaves_covered (referenceLeaves candidateLeaves : list leaf) :
  map leafHash candidateLeaves ⊆ map leafHash referenceLeaves ->
  diffLeaves referenceLeaves candidateLeaves = ∅.
Proof.
  intros Hcovered.
  destruct (decide (hashSetOf referenceLeaves = ∅)) as [Hnone|Hsome].
  { apply diffLeaves_empty. by left. }
  apply leibniz_equiv, elem_of_equiv_empty. intros h.
  rewrite elem_of_diffLeaves by done. intros (_ & Hin & Hnot).
  by apply Hnot, Hcovered.
Qed.

Lemma diffLeaves_covered_witness :
  map leafHash [Leaf "b" None; Leaf "a" (Some "t"%string)]
    ⊆ map leafHash [Leaf "a" None; Leaf "b" None; Leaf "c" None]
  /\ diffLeaves [Leaf "a" None; Leaf "b" None; Leaf "c" None]
                [Leaf "b" None; Leaf "a" (Some "t"%string)] = ∅.
Proof.
  assert (map leafHash [Leaf "b" None; Leaf "a" (Some "t"%string)]
            ⊆ map leafHash [Leaf "a" None; Leaf "b" None; Leaf "c" None]) as Hcovered.
  { intros h Hh. simpl in *. rewrite !elem_of_cons in *. tauto. }
  split; [exact Hcovered|]. exact (diffLeaves_covered _ _ Hcovered).
Defined.
(** ** The columns selected after a file is loaded *)

Section ColumnFacts.
Context {rt : Runtime}.

Lemma renderColumns_selects (p : panel) :
  getSelectedFields (activeFields (renderColumns p)) (isChecked (renderColumns p))
  = filter (fun field => truthy (headerName field) = true) (activeFields p).
Proof.
  unfold getSelectedFields. cbn [renderColumns activeFields].
  apply filter_ext_elem. intros field Hfield.
  unfold isChecked. cbn [checkedBoxes]. rewrite andb_true_iff, bool_decide_eq_true.
  split; [by intros [? _]|]. intros Hheader. split; [done|].
  unfold setOfList. apply elem_of_list_to_set, list_elem_of_fmap.
  exists field. split; [done|]. by apply list_elem_of_filter.
Qed.

(** X26.  The run that a loaded file starts hashes every column the file
    has: its selected fields are the configured fields bound to a header,
    in the order of the configuration, and it carries the panel's new
    version. *)
Theorem fileLoaded_selects_available (text : string) (p : panel) (r : run) :
  (fileLoaded text p).2 = Some r ->
  selectedFields (contextOf r)
  = filter (fun field => truthy (headerName field) = true)
           (buildActiveFields (Csv.headers (Csv.parseCsv text)))
  /\ idOf r = computationVersion (fileLoaded text p).1
  /\ parsedEntries (fileLoaded text p).1 = Csv.dataRows (Csv.parseCsv text).
Proof.
  unfold fileLoaded. destruct (Csv.headers _) as [|h hs] eqn:Hheaders; [done|].
  cbn [parsedEntries]. destruct (Csv.dataRows _) as [|entry rest] eqn:Hrows; [done|].
  set (p1 := Panel _ _ _ _ _ _ _ _ _ _ _).
  pose proof (renderColumns_selects p1) as Hselected.
  pose proof (updateResults_starts (renderColumns p1)) as [_ Hstart].
  unfold updateResults in *. cbn [renderColumns parsedEntries] in *.
  change (parsedEntries p1) with (entry :: rest) in *. cbv iota in *.
  destruct (getSelectedFields _ _) as [|f fs] eqn:Hget; [done|].
  cbn [fst snd]. intros Hrun.
  destruct (Hstart r Hrun) as [_ Hid].
  apply continueLoop_context in Hrun. rewrite Hrun. cbn [selectedFields].
  split; [exact Hselected|]. split; [exact Hid|reflexivity].
Qed.

End ColumnFacts.

Lemma fileLoaded_selects_available_witness :
  exists r,
    (@fileLoaded exampleRuntime
       ("Title,other,PASSWORD" +:+ String LF "A,b,x") newPanel).2 = Some r
    /\ selectedFields (contextOf r)
       = filter (fun field => truthy (headerName field) = true)
           (buildActiveFields
              (Csv.headers (Csv.parseCsv ("Title,other,PASSWORD" +:+ String LF "A,b,x")))).
Proof.
  eexists. split; [reflexivity|].
  refine (proj1 (@fileLoaded_selects_available exampleRuntime
                   ("Title,other,PASSWORD" +:+ String LF "A,b,x") newPanel _ _)).
  reflexivity.
Defined.
(** ** Normalised dates are fixed points of the normaliser *)

#[local] Arguments String.append !_ _ / : simpl nomatch.
#[local] Arguments numberOfDigits : simpl never.
#[local] Arguments makeDate : simpl never.
#[local] Arguments makeDay : simpl never.
#[local] Arguments makeTime : simpl never.
#[local] Arguments daysInMonth : simpl never.
#[local] Arguments inRange : simpl never.

Lemma digit_not_space (c : ascii) : isDigit c = true -> isSpace c = false.
Proof.
  unfold isDigit, isSpace. cbv zeta.
  intros [Hlo%N.leb_le Hhi%N.leb_le]%andb_true_iff.
  rewrite (proj2 (N.leb_gt _ 13)) by lia. rewrite andb_false_r. simpl.
  apply orb_false_iff. split; apply N.eqb_neq; lia.
Qed.

Lemma digitChar_value (n : Z) : Z.of_N (N_of_ascii (digitChar n)) - 48 = n mod 10.
Proof.
  unfold digitChar. pose proof (Z.mod_pos_bound n 10 ltac:(lia)) as Hbound.
  rewrite N_ascii_embedding by lia. lia.
Qed.

Lemma numberOfDigits_decimal2 (n : Z) :
  0 <= n <= 99 -> numberOfDigits (decimal 2 n EmptyString) = n.
Proof.
  intros Hn. unfold numberOfDigits. cbn [decimal list_ascii_of_string fold_left].
  rewrite !digitChar_value. Z.div_mod_to_equations. lia.
Qed.

Lemma numberOfDigits_decimal4 (n : Z) :
  0 <= n <= 9999 -> numberOfDigits (decimal 4 n EmptyString) = n.
Proof.
  intros Hn. unfold numberOfDigits. cbn [decimal list_ascii_of_string fold_left].
  rewrite !digitChar_value. Z.div_mod_to_equations. lia.
Qed.

Section Shape.
Variables y1 y2 y3 y4 m1 m2 d1 d2 h1 h2 i1 i2 s1 s2 : ascii.
Hypothesis Hdigits :
  Forall (fun c => isDigit c = true) [y1; y2; y3; y4; m1; m2; d1; d2; h1; h2; i1; i2; s1; s2].

Let stamp : string :=
  utcStamp (digits4 y1 y2 y3 y4) (digits2 m1 m2) (digits2 d1 d2)
           (digits2 h1 h2) (digits2 i1 i2) (digits2 s1 s2).

Lemma isoMatch_stamp :
  isoMatch stamp
  = Some (IsoGroups (digits4 y1 y2 y3 y4) (digits2 m1 m2) (digits2 d1 d2)
            (Some (digits2 h1 h2)) (Some (digits2 i1 i2)) (Some (digits2 s1 s2))
            None (Some "Z"%string)).
Proof.
  repeat match goal with
         | H : Forall _ (_ :: _) |- _ => apply Forall_cons in H as [? H]
         end.
  unfold stamp, utcStamp, digits4, digits2, isoMatch, matchTime, matchZone.
  repeat (simpl;
          match goal with
          | H : isDigit ?c = true |- context [isDigit ?c] => rewrite H
          end).
  reflexivity.
Qed.


Let isoString : string :=
  digits4 y1 y2 y3 y4 +:+ "-" +:+ digits2 m1 m2 +:+ "-" +:+ digits2 d1 d2 +:+ "T"
  +:+ digits2 h1 h2 +:+ ":" +:+ digits2 i1 i2 +:+ ":" +:+ digits2 s1 s2 +:+ ".000Z".

Let y := numberOfDigits (digits4 y1 y2 y3 y4).
Let m := numberOfDigits (digits2 m1 m2).
Let d := numberOfDigits (digits2 d1 d2).
Let h := numberOfDigits (digits2 h1 h2).
Let mi := numberOfDigits (digits2 i1 i2).
Let sec := numberOfDigits (digits2 s1 s2).

Lemma isoDateTime_stamp :
  inRange 1 12 m = true -> inRange 1 (daysInMonth y m) d = true ->
  inRange 0 23 h = true -> inRange 0 59 mi = true -> inRange 0 59 sec = true ->
  isoDateTime isoString
  = Some (makeDate (makeDay y (m - 1) d) (makeTime h mi sec 0)).
Proof.
  intros Hm Hd Hh Hmi Hsec.
  repeat match goal with
         | H : Forall _ (_ :: _) |- _ => apply Forall_cons in H as [? H]
         end.
  unfold isoDateTime, isoString, digits4, digits2.
  repeat (simpl;
          match goal with
          | H : isDigit ?c = true |- context [isDigit ?c] => rewrite H
          end).
  simpl.
  unfold y, m, d, h, mi, sec, digits4, digits2 in *.
  rewrite Hm, Hd, Hh, Hmi, Hsec. simpl.
  change (numberOfDigits "000") with 0. by rewrite Z.sub_0_r.
Qed.

Lemma dateOfGroups_stamp {rt : Runtime} :
  inRange 1 12 m = true -> inRange 1 (daysInMonth y m) d = true ->
  inRange 0 23 h = true -> inRange 0 59 mi = true -> inRange 0 59 sec = true ->
  Z.abs (makeDate (makeDay y (m - 1) d) (makeTime h mi sec 0)) <= 8640000000000000 ->
  dateOfGroups
    (IsoGroups (digits4 y1 y2 y3 y4) (digits2 m1 m2) (digits2 d1 d2)
       (Some (digits2 h1 h2)) (Some (digits2 i1 i2)) (Some (digits2 s1 s2))
       None (Some "Z"%string))
  = Some (ValidDate (makeDate (makeDay y (m - 1) d) (makeTime h mi sec 0))).
Proof.
  intros Hm Hd Hh Hmi Hsec Ht.
  pose proof (isoDateTime_stamp Hm Hd Hh Hmi Hsec) as Hiso.
  unfold dateOfGroups.
  cbn [truthy millisecond zone hour minute second year month day default id
       isEmptyStr negb map].
  change (padStart 2 "0" (digits2 ?a ?b)) with (digits2 a b).
  change (bool_decide ("Z"%string = "Z"%string)) with true. cbv iota.
  match goal with
  | |- context [newDateOfString ?s] => change s with isoString
  end.
  unfold newDateOfString, dateParse. rewrite Hiso.
  rewrite (proj2 (Z.leb_le _ _) Ht), timeClip_valid by done. reflexivity.
Qed.

Lemma normalizeText_stamp {rt : Runtime} : normalizeText (Some stamp) = nfc stamp.
Proof.
  repeat match goal with
         | H : Forall _ (_ :: _) |- _ => apply Forall_cons in H as [? H]
         end.
  repeat match goal with
         | H : isDigit _ = true |- _ => apply digit_not_space in H
         end.
  unfold normalizeText, trim, stamp, utcStamp, digits4, digits2.
  repeat (simpl;
          match goal with
          | H : isSpace ?c = false |- context [isSpace ?c] => rewrite H
          end).
  reflexivity.
Qed.

End Shape.

Lemma isoSeconds_whole (t : Z) : isoSeconds (t - t mod 1000) = isoSeconds t.
Proof.
  unfold isoSeconds. cbv zeta.
  assert ((t - t mod 1000) / msPerDay = t / msPerDay) as ->
    by (unfold msPerDay; Z.div_mod_to_equations; lia).
  assert ((t - t mod 1000) mod msPerDay / 3600000 = t mod msPerDay / 3600000) as ->
    by (unfold msPerDay; Z.div_mod_to_equations; lia).
  assert ((t - t mod 1000) mod msPerDay / 60000 = t mod msPerDay / 60000) as ->
    by (unfold msPerDay; Z.div_mod_to_equations; lia).
  assert ((t - t mod 1000) mod msPerDay / 1000 = t mod msPerDay / 1000) as ->
    by (unfold msPerDay; Z.div_mod_to_equations; lia).
  reflexivity.
Qed.

Lemma civil_parts (day : Z) :
  exists y m d,
    civilFromDays day = (y, m, d)
    /\ 1 <= m <= 12 /\ 1 <= d <= daysInMonth y m /\ d <= 31
    /\ makeDay y (m - 1) d = day.
Proof.
  unfold civilFromDays. cbv zeta.
  set (z := day + 719468).
  set (era := z / 146097).
  set (doe := z - era * 146097).
  assert (0 <= doe <= 146096) as Hdoe by (unfold doe, era; Z.div_mod_to_equations; lia).
  set (yoe := (doe - doe / 1460 + doe / 36524 - doe / 146096) / 365).
  set (doy := doe - (365 * yoe + yoe / 4 - yoe / 100)).
  assert (0 <= yoe <= 399 /\ 0 <= doy
          /\ (doe + 1 <= 365 * (yoe + 1) + (yoe + 1) / 4 - (yoe + 1) / 100 \/ yoe = 399))
    as (Hyoe & Hdoy & Hnext).
  { unfold doy, yoe. Z.div_mod_to_equations; lia. }
  assert (doy <= 365) as Hdoy2.
  { unfold doy in *. Z.div_mod_to_equations; lia. }
  set (mp := (5 * doy + 2) / 153).
  assert (0 <= mp <= 11) as Hmp by (unfold mp; Z.div_mod_to_equations; lia).
  set (d := doy - (153 * mp + 2) / 5 + 1).
  assert (1 <= d <= 31) as Hd by (unfold d, mp; Z.div_mod_to_equations; lia).
  assert (doy + 1 <= (153 * (mp + 1) + 2) / 5) as Hmonth
    by (unfold mp; Z.div_mod_to_equations; lia).
  set (m := if mp <? 10 then mp + 3 else mp - 9).
  set (y := if m <=? 2 then yoe + era * 400 + 1 else yoe + era * 400).
  assert (1 <= m <= 12) as Hm by (unfold m; destruct (mp <? 10) eqn:H; lia).
  assert ((yoe + era * 400) / 400 = era) as Hera by (Z.div_mod_to_equations; lia).
  assert (daysFromCivil y m 1 = day - d + 1) as Hfirst.
  { unfold daysFromCivil, y, m. cbv zeta.
    destruct (Z.ltb_spec mp 10) as [Hlt|Hge].
    - assert ((mp + 3 <=? 2) = false) as -> by lia.
      assert ((2 <? mp + 3) = true) as -> by lia.
      replace (mp + 3 - 3) with mp by lia. rewrite Hera.
      replace (yoe + era * 400 - era * 400) with yoe by lia.
      unfold d, doy. unfold doe, z in *. lia.
    - assert ((mp - 9 <=? 2) = true) as -> by lia.
      assert ((2 <? mp - 9) = false) as -> by lia.
      replace (yoe + era * 400 + 1 - 1) with (yoe + era * 400) by lia.
      replace (mp - 9 + 9) with mp by lia. rewrite Hera.
      replace (yoe + era * 400 - era * 400) with yoe by lia.
      unfold d, doy. unfold doe, z in *. lia. }
  exists y, m, d. split; [reflexivity|]. split; [exact Hm|].
  split; [|split; [lia|]].
  - split; [lia|]. unfold daysInMonth.
    destruct (Z.eqb_spec m 12) as [H12|H12]; [lia|].
    rewrite Hfirst.
    unfold daysFromCivil, y, m in *. cbv zeta.
    destruct (Z.ltb_spec mp 10) as [Hlt|Hge].
    + assert ((mp + 3 <=? 2) = false) as Hlate by lia. rewrite Hlate.
      assert ((mp + 3 + 1 <=? 2) = false) as -> by lia.
      assert ((2 <? mp + 3 + 1) = true) as -> by lia.
      replace (mp + 3 + 1 - 3) with (mp + 1) by lia. rewrite Hera.
      replace (yoe + era * 400 - era * 400) with yoe by lia.
      unfold d, doy in *. unfold doe, z in *. lia.
    + assert ((mp - 9 <=? 2) = true) as Hearly by lia. rewrite Hearly.
      replace (yoe + era * 400 + 1 - 1) with (yoe + era * 400) by lia.
      destruct (Z.eq_dec mp 10) as [H10|H10].
      * assert ((mp - 9 + 1 <=? 2) = true) as -> by lia.
        assert ((2 <? mp - 9 + 1) = false) as -> by lia.
        replace (yoe + era * 400 + 1 - 1) with (yoe + era * 400) by lia.
        replace (mp - 9 + 1 + 9) with (mp + 1) by lia. rewrite Hera.
        replace (yoe + era * 400 - era * 400) with yoe by lia.
        unfold d, doy in *. unfold doe, z in *. lia.
      * assert (mp = 11) as Hfeb by lia.
        assert ((mp - 9 + 1 <=? 2) = false) as -> by lia.
        assert ((2 <? mp - 9 + 1) = true) as -> by lia.
        replace (mp - 9 + 1 - 3) with 0 by lia.
        change ((153 * 0 + 2) / 5) with 0.
        destruct (Z.eq_dec yoe 399) as [Hlast|Hlast].
        -- assert ((yoe + era * 400 + 1) / 400 = era + 1) as ->
             by (Z.div_mod_to_equations; lia).
           replace (yoe + era * 400 + 1 - (era + 1) * 400) with 0 by lia.
           change (0 / 4) with 0. change (0 / 100) with 0.
           unfold d, doy in *. unfold doe, z in *. lia.
        -- assert ((yoe + era * 400 + 1) / 400 = era) as ->
             by (Z.div_mod_to_equations; lia).
           replace (yoe + era * 400 + 1 - era * 400) with (yoe + 1) by lia.
           unfold d, doy in *. unfold doe, z in *. lia.
  - unfold makeDay.
    replace ((m - 1) / 12) with 0 by (Z.div_mod_to_equations; lia).
    replace ((m - 1) mod 12 + 1) with m by (Z.div_mod_to_equations; lia).
    rewrite Z.add_0_r, Hfirst. lia.
Qed.

Lemma string_length_app (s1 s2 : string) :
  String.length (s1 +:+ s2) = (String.length s1 + String.length s2)%nat.
Proof. induction s1 as [|c s1 IH]; simpl; [reflexivity|]. by rewrite IH. Qed.

Lemma decimal_length (width : nat) (n : Z) (acc : string) :
  String.length (decimal width n acc) = (width + String.length acc)%nat.
Proof.
  revert n acc. induction width as [|w IH]; intros n acc; simpl; [reflexivity|].
  rewrite IH. simpl. lia.
Qed.

(** A text of [formatUtcIso] of at most 20 characters has a year of four
    digits. *)
Lemma isoSeconds_short (t y m d : Z) :
  civilFromDays (t / msPerDay) = (y, m, d) ->
  (String.length (isoSeconds t +:+ "Z") <= 20)%nat -> 0 <= y <= 9999.
Proof.
  intros Hcivil. unfold isoSeconds. cbv zeta. rewrite Hcivil.
  rewrite !string_length_app, !decimal_length. unfold isoYear.
  destruct (Z.leb_spec 0 y), (Z.leb_spec y 9999); cbn [andb]; try lia;
    cbn [String.length]; rewrite decimal_length; simpl; lia.
Qed.

Lemma timeClip_bound (x t : Z) :
  timeClip x = ValidDate t -> Z.abs t <= 8640000000000000.
Proof.
  unfold timeClip. destruct (Z.leb_spec (Z.abs x) 8640000000000000); [|done].
  by intros [= <-].
Qed.

Section DateFixedPoint.
Context {rt : Runtime}.

Lemma parseFlexibleDate_bound (value : string) (t : Z) :
  parseFlexibleDate value = Some (ValidDate t) -> Z.abs t <= 8640000000000000.
Proof.
  unfold parseFlexibleDate.
  destruct (isoMatch value ≫= dateOfGroups) as [d'|] eqn:Hpattern.
  - intros [= ->]. destruct (isoMatch value) as [g|]; [|done]. simpl in Hpattern.
    unfold dateOfGroups in Hpattern. cbv zeta in Hpattern.
    destruct (truthy (zone g)).
    + unfold newDateOfString in Hpattern.
      destruct (dateParse _) as [x|]; [|done].
      destruct (timeClip x) as [t'|] eqn:Hclip; [|done].
      simpl in Hpattern. injection Hpattern as ->. by eapply timeClip_bound.
    + unfold newDateLocal in Hpattern.
      match type of Hpattern with
      | context [timeClip ?x] => destruct (timeClip x) as [t'|] eqn:Hclip; [|done]
      end.
      simpl in Hpattern. injection Hpattern as ->. by eapply timeClip_bound.
  - destruct (dateParse value) as [ts|] eqn:Hparse; [|done].
    intros [= Hclip]. by eapply timeClip_bound.
Qed.

Lemma formatted_is_fixed_point (t y m d : Z) :
  civilFromDays (t / msPerDay) = (y, m, d) ->
  0 <= y <= 9999 ->
  Z.abs t <= 8640000000000000 ->
  nfc (isoSeconds t +:+ "Z") = isoSeconds t +:+ "Z" ->
  normalizeDate (Some (isoSeconds t +:+ "Z")) = Returns (isoSeconds t +:+ "Z").
Proof.
  intros Hcivil Hy Ht Hnfc.
  destruct (civil_parts (t / msPerDay))
    as (y' & m' & d' & Hcivil' & Hm & Hd & Hd31 & Hday).
  rewrite Hcivil in Hcivil'. injection Hcivil' as <- <- <-.
  set (tod := t mod msPerDay).
  assert (0 <= tod < 86400000) as Htod by (apply Z.mod_pos_bound; reflexivity).
  set (h := tod / 3600000). set (mi := tod / 60000 mod 60).
  set (sec := tod / 1000 mod 60).
  assert (0 <= h <= 23) as Hh by (unfold h; Z.div_mod_to_equations; lia).
  assert (0 <= mi <= 59) as Hmi by (unfold mi; Z.div_mod_to_equations; lia).
  assert (0 <= sec <= 59) as Hsec by (unfold sec; Z.div_mod_to_equations; lia).
  assert (isoSeconds t +:+ "Z"
          = utcStamp (decimal 4 y EmptyString) (decimal 2 m EmptyString)
              (decimal 2 d EmptyString) (decimal 2 h EmptyString)
              (decimal 2 mi EmptyString) (decimal 2 sec EmptyString)) as Hstamp.
  { unfold isoSeconds. cbv zeta. rewrite Hcivil. unfold isoYear.
    rewrite (proj2 (Z.leb_le 0 y)), (proj2 (Z.leb_le y 9999)) by lia.
    reflexivity. }
  rewrite Hstamp in Hnfc |- *.
  assert (forall n, isDigit (digitChar n) = true) as Hdigit
    by (intros n; apply digitChar_props).
  pose proof (numberOfDigits_decimal4 y Hy) as Ey.
  pose proof (numberOfDigits_decimal2 m ltac:(lia)) as Em.
  pose proof (numberOfDigits_decimal2 d ltac:(lia)) as Ed.
  pose proof (numberOfDigits_decimal2 h ltac:(lia)) as Eh.
  pose proof (numberOfDigits_decimal2 mi ltac:(lia)) as Emi.
  pose proof (numberOfDigits_decimal2 sec ltac:(lia)) as Esec.
  change (decimal 4 y EmptyString)
    with (digits4 (digitChar (y / 10 / 10 / 10)) (digitChar (y / 10 / 10))
                  (digitChar (y / 10)) (digitChar y)) in *.
  change (decimal 2 ?n EmptyString) with (digits2 (digitChar (n / 10)) (digitChar n)) in *.
  assert (makeDate (makeDay y (m - 1) d) (makeTime h mi sec 0) = t - t mod 1000)
    as Hvalue.
  { rewrite Hday. unfold makeDate, makeTime.
    assert (tod = h * 3600000 + mi * 60000 + sec * 1000 + tod mod 1000) as Hsplit
      by (unfold h, mi, sec; Z.div_mod_to_equations; lia).
    assert (t = t / msPerDay * msPerDay + tod) as Hdays
      by (unfold tod, msPerDay; Z.div_mod_to_equations; lia).
    assert (t mod 1000 = tod mod 1000) as ->
      by (unfold tod, msPerDay; Z.div_mod_to_equations; lia).
    lia. }
  unfold normalizeDate.
  rewrite normalizeText_stamp by (repeat constructor; apply Hdigit).
  rewrite Hnfc.
  assert (forall a b c e f g, isEmptyStr (utcStamp (digits4 a b c e) f g
            (digits2 (digitChar (h / 10)) (digitChar h))
            (digits2 (digitChar (mi / 10)) (digitChar mi))
            (digits2 (digitChar (sec / 10)) (digitChar sec))) = false) as ->
    by reflexivity.
  unfold parseFlexibleDate.
  rewrite isoMatch_stamp by (repeat constructor; apply Hdigit).
  cbn [mbind option_bind].
  rewrite dateOfGroups_stamp; rewrite ?Ey, ?Em, ?Ed, ?Eh, ?Emi, ?Esec, ?Hvalue;
    try (repeat constructor; apply Hdigit);
    try (unfold inRange; apply andb_true_iff; split; apply Z.leb_le; lia).
  - rewrite formatUtcIso_valid, isoSeconds_whole, Hstamp. reflexivity.
  - clear -Ht. Z.div_mod_to_equations. lia.
Qed.


(** X27.  Normalising a date is idempotent where the normalised date has a
    year of four digits (it is then 20 characters long) and NFC leaves it
    unchanged, as it does every ASCII text: the normalised date is
    normalised to itself, in every time zone and whatever the free-form
    parser of the runtime accepts. *)
Theorem normalizeDate_idempotent (value : option string) (out : string) :
  normalizeDate value = Returns out ->
  (String.length out <= 20)%nat ->
  nfc out = out ->
  normalizeDate (Some out) = Returns out.
Proof.
  intros Hout Hlen Hnfc.
  destruct (normalizeDate_cases value) as [[Hempty _]|(t & _ & Hparse & Hdate)].
  - rewrite Hempty in Hout. injection Hout as <-. reflexivity.
  - rewrite Hdate in Hout. injection Hout as <-.
    destruct (civilFromDays (t / msPerDay)) as [[y m] d] eqn:Hcivil.
    apply (formatted_is_fixed_point t y m d); try done.
    + by eapply isoSeconds_short.
    + by eapply parseFlexibleDate_bound.
Qed.

End DateFixedPoint.

Lemma normalizeDate_idempotent_witness :
  @normalizeDate exampleRuntime (Some "2024-03-05 10:20:30.5 +02:00"%string)
  = Returns "2024-03-05T08:20:30Z"%string
  /\ @normalizeDate exampleRuntime (Some "2024-03-05T08:20:30Z"%string)
     = Returns "2024-03-05T08:20:30Z"%string.
Proof.
  assert (@normalizeDate exampleRuntime (Some "2024-03-05 10:20:30.5 +02:00"%string)
          = Returns "2024-03-05T08:20:30Z"%string) as Hout by (vm_compute; reflexivity).
  split; [exact Hout|].
  apply (@normalizeDate_idempotent exampleRuntime _ _ Hout); [simpl; lia|reflexivity].
Defined.

(** *** Dates without time and zone are read in local time *)

Section DateOnly.
Context {rt : Runtime}.
Variables y1 y2 y3 y4 m1 m2 d1 d2 : ascii.
Hypothesis Hdigits :
  Forall (fun c => isDigit c = true) [y1; y2; y3; y4; m1; m2; d1; d2].

Let text : string :=
  digits4 y1 y2 y3 y4 +:+ "-" +:+ digits2 m1 m2 +:+ "-" +:+ digits2 d1 d2.

Lemma isoMatch_dateOnly :
  isoMatch text
  = Some (IsoGroups (digits4 y1 y2 y3 y4) (digits2 m1 m2) (digits2 d1 d2)
            None None None None None).
Proof.
  repeat match goal with
         | H : Forall _ (_ :: _) |- _ => apply Forall_cons in H as [? H]
         end.
  unfold text, digits4, digits2, isoMatch, matchTime, matchZone.
  repeat (simpl;
          match goal with
          | H : isDigit ?c = true |- context [isDigit ?c] => rewrite H
          end).
  reflexivity.
Qed.

Lemma normalizeText_dateOnly : normalizeText (Some text) = nfc text.
Proof.
  repeat match goal with
         | H : Forall _ (_ :: _) |- _ => apply Forall_cons in H as [? H]
         end.
  repeat match goal with
         | H : isDigit _ = true |- _ => apply digit_not_space in H
         end.
  unfold normalizeText, trim, text, digits4, digits2.
  repeat (simpl;
          match goal with
          | H : isSpace ?c = false |- context [isSpace ?c] => rewrite H
          end).
  reflexivity.
Qed.

(** X28.  A date without time and zone, [YYYY-MM-DD] with any digits, is
    read as midnight in the local time zone by the [Date] constructor, with
    what that implies: a month or a day out of range rolls over into the
    following months, and a year from 0000 to 0099 is taken as 1900 to
    1999.  The normalised date is the UTC text of that instant whenever it
    is a valid time value. *)
Theorem normalizeDate_dateOnly (t : Z) :
  let yearNumber := numberOfDigits (digits4 y1 y2 y3 y4) in
  let monthNumber := numberOfDigits (digits2 m1 m2) in
  let dayNumber := numberOfDigits (digits2 d1 d2) in
  nfc text = text ->
  timeClip (utcOfLocal
              (makeDate (makeDay (if inRange 0 99 yearNumber
                                  then 1900 + yearNumber else yearNumber)
                                 (monthNumber - 1) dayNumber)
                        0))
  = ValidDate t ->
  normalizeDate (Some text) = Returns (isoSeconds t +:+ "Z").
Proof.
  intros yearNumber monthNumber dayNumber Hnfc Hclip.
  unfold normalizeDate. rewrite normalizeText_dateOnly, Hnfc.
  assert (isEmptyStr text = false) as -> by reflexivity.
  unfold parseFlexibleDate. rewrite isoMatch_dateOnly.
  cbn [mbind option_bind]. unfold dateOfGroups.
  cbn [truthy millisecond zone hour minute second year month day numberOr0].
  cbv zeta. cbn [isEmptyStr].
  unfold newDateLocal. change (numberOfDigits "000") with 0.
  change (makeTime 0 0 0 0) with 0.
  fold yearNumber monthNumber dayNumber. rewrite Hclip. cbn [isValidDate].
  apply formatUtcIso_valid.
Qed.

End DateOnly.

Lemma normalizeDate_dateOnly_witness :
  @normalizeDate exampleRuntime (Some "2023-02-31"%string)
  = Returns "2023-03-03T00:00:00Z"%string
  /\ @normalizeDate exampleRuntime (Some "0099-12-01"%string)
     = Returns "1999-12-01T00:00:00Z"%string.
Proof.
  split.
  - exact (@normalizeDate_dateOnly exampleRuntime "2" "0" "2" "3" "0" "2" "3" "1"
             ltac:(repeat constructor) 1677801600000 eq_refl eq_refl).
  - exact (@normalizeDate_dateOnly exampleRuntime "0" "0" "9" "9" "1" "2" "0" "1"
             ltac:(repeat constructor) 944006400000 eq_refl eq_refl).
Defined.
